(** * moltr: the LambdaMART gradient kernel and its callers

    A shallow embedding of
    - [argsort.cpp]   (the stable descending permutation sort),
    - [lambdaobj.pyx] (the sigmoid lookup, the per-query pairwise kernel, the
      loop over queries and the Python entry point), and
    - the notebook's objective callbacks ([lambdamart_objective],
      [get_grad_hess], [combined_objective]) and its filter of the requests
      ([drop_requests_with_no_interactions]).

    The C code computes on [double]s.  The embedding is generic in the
    arithmetic (class [Double]): everything that only depends on the control
    flow and on the memory accesses is proved for every arithmetic, hence for
    IEEE binary64; what depends on algebraic laws is proved for the exact
    rationals [Q], and checked against binary64 on concrete inputs. *)

From Stdlib Require Import ZArith QArith Qround Qabs Lia Lqa.
From Stdlib Require Import Floats.
From stdpp Require Import base option list list_numbers sorting strings.

Local Open Scope Z_scope.

(** ** Outcomes

    A C memory access outside its array, a [double] that does not fit the
    [int] it is cast to, a C++ array allocation of negative length and the two
    Python exceptions the callers can raise all end the computation. *)

Inductive failure : Type :=
  | OutOfBounds                (* C: access outside the array (undefined) *)
  | BadCast                    (* C: <int> of a double outside int (undefined) *)
  | BadArrayNewLength          (* C++: new T[n] with n < 0 *)
  | IndexError                 (* Cython: checked index on a memoryview *)
  | NameError (name : string). (* Python: unbound global name *)

Inductive result (A : Type) : Type :=
  | Ok (a : A)
  | Fail (e : failure).
Arguments Ok {A} a.
Arguments Fail {A} e.

Global Instance result_ret : MRet result := fun A a => Ok a.
Global Instance result_bind : MBind result := fun A B f m =>
  match m with
  | Ok a => f a
  | Fail e => Fail e
  end.

Definition is_Ok {A} (r : result A) : Prop := exists a, r = Ok a.

(** ** The arithmetic of [double] *)

Class Double (D : Type) : Type := {
  lit_0 : D;                        (* 0.0, also eight zero bytes *)
  lit_1 : D;                        (* 1 *)
  lit_2 : D;                        (* 2.0 and the int 2 promoted *)
  lit_0_01 : D;                     (* 0.01 *)
  d_add : D -> D -> D;
  d_sub : D -> D -> D;
  d_mul : D -> D -> D;
  d_div : D -> D -> D;
  d_neg : D -> D;
  fabs : D -> D;
  d_leb : D -> D -> bool;           (* a <= b *)
  d_ltb : D -> D -> bool;           (* a < b *)
  d_eqb : D -> D -> bool;           (* a == b *)
  d_trunc : D -> option Z           (* the integer part, toward zero *)
}.

Declare Scope double_scope.
Delimit Scope double_scope with D.
Infix "+" := d_add : double_scope.
Infix "-" := d_sub : double_scope.
Infix "*" := d_mul : double_scope.
Infix "/" := d_div : double_scope.
Notation "- x" := (d_neg x) : double_scope.

(** *** Exact rationals *)

Definition Qtrunc (q : Q) : Z := Z.quot (Qnum q) (Zpos (Qden q)).

Global Instance Q_double : Double Q := {|
  lit_0 := 0%Q;
  lit_1 := 1%Q;
  lit_2 := 2%Q;
  lit_0_01 := (1 # 100)%Q;
  d_add := Qplus;
  d_sub := Qminus;
  d_mul := Qmult;
  d_div := Qdiv;
  d_neg := Qopp;
  fabs := Qabs;
  d_leb := Qle_bool;
  d_ltb := fun a b => negb (Qle_bool b a);
  d_eqb := Qeq_bool;
  d_trunc := fun q => Some (Qtrunc q)
|}.

(** *** IEEE binary64 *)

Definition float_trunc (f : float) : option Z :=
  match Prim2SF f with
  | S754_zero _ => Some 0
  | S754_finite s m e =>
      let mag := if 0 <=? e then Zpos m * 2 ^ e else Zpos m / 2 ^ (- e) in
      Some (if s then - mag else mag)
  | _ => None
  end.

Global Instance float_double : Double float := {|
  lit_0 := 0%float;
  lit_1 := 1%float;
  lit_2 := 2%float;
  lit_0_01 := 0x1.47ae147ae147bp-7%float;   (* the double nearest to 0.01 *)
  d_add := PrimFloat.add;
  d_sub := PrimFloat.sub;
  d_mul := PrimFloat.mul;
  d_div := PrimFloat.div;
  d_neg := PrimFloat.opp;
  fabs := PrimFloat.abs;
  d_leb := PrimFloat.leb;
  d_ltb := PrimFloat.ltb;
  d_eqb := PrimFloat.eqb;
  d_trunc := float_trunc
|}.

(** ** C integers and arrays *)

Definition INT_MIN : Z := - 2 ^ 31.
Definition INT_MAX : Z := 2 ^ 31 - 1.

(** [<int>] of a [long]: the low 32 bits, read as a signed number. *)
Definition cast_int (z : Z) : Z := (z + 2 ^ 31) mod 2 ^ 32 - 2 ^ 31.

(** [<int>] of a [double]: its integer part when that is an [int]. *)
Definition double_to_int `{Double D} (x : D) : result Z :=
  match d_trunc x with
  | Some z => if decide (INT_MIN <= z <= INT_MAX) then Ok z else Fail BadCast
  | None => Fail BadCast
  end.

(** [a[i]] as an rvalue. *)
Definition rd {A} (a : list A) (i : Z) : result A :=
  if decide (0 <= i) then
    match a !! Z.to_nat i with
    | Some x => Ok x
    | None => Fail OutOfBounds
    end
  else Fail OutOfBounds.

(** [a[i] = v]. *)
Definition wr {A} (a : list A) (i : Z) (v : A) : result (list A) :=
  if decide (0 <= i < Z.of_nat (length a)) then Ok (<[Z.to_nat i := v]> a)
  else Fail OutOfBounds.

(** [a + k] for a pointer [a] to the start of an array. *)
Definition offset {A} (a : list A) (k : Z) : result (list A) :=
  if decide (0 <= k <= Z.of_nat (length a)) then Ok (drop (Z.to_nat k) a)
  else Fail OutOfBounds.

(** [memset(a, 0, n * sizeof(double))]. *)
Definition memset_zero `{Double D} (a : list D) (n : Z) : result (list D) :=
  if decide (0 <= n <= Z.of_nat (length a))
  then Ok (replicate (Z.to_nat n) lit_0 ++ drop (Z.to_nat n) a)
  else Fail OutOfBounds.

(** [for i in range(n): s = body(i, s)]. *)
Fixpoint iterate {S} (body : Z -> S -> result S) (ks : list Z) (s : S) : result S :=
  match ks with
  | [] => Ok s
  | i :: ks => s' ← body i s; iterate body ks s'
  end.

Definition for_range {S} (n : Z) (body : Z -> S -> result S) (s : S) : result S :=
  iterate body (seqZ 0 n) s.

(** [malloc(n * sizeof(int))]: [n] cells of unspecified content (they are all
    written before they are read); no cell when [n <= 0]. *)
Definition malloc_int (n : Z) : list Z := replicate (Z.to_nat n) 0.

(** ** argsort.cpp *)

Section Argsort.
Context `{Double D}.

Record IndexedElement : Type := { index : Z; value : D }.

Definition cmp (a b : IndexedElement) : bool := d_ltb (value b) (value a).

(** [std::stable_sort(first, last, comp)] is the C++ library's.  The standard
    fixes its result for a strict weak ordering: the sorted arrangement in
    which equivalent elements keep their order.  Inserting each element, from
    the last to the first, in front of the first element that does not have to
    precede it computes that arrangement. *)
Fixpoint insert_before {A} (comp : A -> A -> bool) (x : A) (l : list A) : list A :=
  match l with
  | [] => [x]
  | y :: l' => if comp y x then y :: insert_before comp x l' else x :: l
  end.

Fixpoint stable_sort {A} (comp : A -> A -> bool) (l : list A) : list A :=
  match l with
  | [] => []
  | x :: l' => insert_before comp x (stable_sort comp l')
  end.

(** [new IndexedElement[n]]: for a negative [n] the new-expression throws
    [std::bad_array_new_length] and no array is made. *)
Definition new_array (n : Z) : result (list IndexedElement) :=
  if decide (n < 0) then Fail BadArrayNewLength
  else Ok (replicate (Z.to_nat n) {| index := 0; value := lit_0 |}).

Definition argsort (data : list D) (indices : list Z) (n : Z) : result (list Z) :=
  order_struct ← new_array n;
  order_struct ← for_range n (fun i order_struct =>
                    v ← rd data i;
                    wr order_struct i {| index := i; value := v |}) order_struct;
  let order_struct := stable_sort cmp order_struct in
  for_range n (fun i indices =>
    e ← rd order_struct i;
    wr indices i (index e)) indices.

End Argsort.
Arguments IndexedElement D : clear implicits.

(** ** lambdaobj.pyx *)

Section Kernel.
Context `{Double D}.
Local Open Scope double_scope.

Definition get_sigmoid (score : D) (sigmoid_table : list D) (n_sigmoid_bins : Z)
    (min_sigmoid_arg max_sigmoid_arg sigmoid_idx_factor : D) : result D :=
  if d_leb score min_sigmoid_arg then rd sigmoid_table 0%Z
  else if d_leb max_sigmoid_arg score then rd sigmoid_table (n_sigmoid_bins - 1)%Z
  else
    k ← double_to_int ((score - min_sigmoid_arg) * sigmoid_idx_factor);
    rd sigmoid_table k.

(** [a[i] += v] and [a[i] -= v]. *)
Definition add_at (a : list D) (i : Z) (v : D) : result (list D) :=
  x ← rd a i; wr a i (x + v).
Definition sub_at (a : list D) (i : Z) (v : D) : result (list D) :=
  x ← rd a i; wr a i (x - v).

Section OneQuery.
Variables (gains preds : list D) (start end_ : Z)
          (discounts : list D) (inverse_max_dcg : D)
          (sigmoid_table : list D) (n_sigmoid_bins : Z)
          (min_sigmoid_arg max_sigmoid_arg sigmoid_idx_factor : D).

(** The body of the inner loop, lines 71 to 96: the pair of the documents at
    ranks [i] and [j]. *)
Definition pair_step (sorted_idx : list Z) (should_adjust : bool)
    (i high : Z) (gain_high score_high : D)
    (j : Z) (gh : list D * list D) : result (list D * list D) :=
  let '(grad, hess) := gh in
  low ← rd sorted_idx j;
  gain_low ← rd gains (start + low)%Z;
  score_low ← rd preds (start + low)%Z;
  if d_ltb gain_low gain_high then
    let delta_score := score_high - score_low in
    p_lambda ← get_sigmoid delta_score sigmoid_table (cast_int n_sigmoid_bins)
                 min_sigmoid_arg max_sigmoid_arg sigmoid_idx_factor;
    let p_hess := p_lambda * (lit_2 - p_lambda) in
    let gain_diff := gain_high - gain_low in
    d_j ← rd discounts (1 + j)%Z;
    d_i ← rd discounts (1 + i)%Z;
    let paired_discount := fabs (d_j - d_i) in
    let abs_delta_ndcg := gain_diff * paired_discount * inverse_max_dcg in
    let abs_delta_ndcg :=
      if should_adjust then abs_delta_ndcg / (lit_0_01 + fabs delta_score)
      else abs_delta_ndcg in
    let p_lambda := p_lambda * - abs_delta_ndcg in
    let p_hess := p_hess * (lit_2 * abs_delta_ndcg) in
    grad ← add_at grad (start + high)%Z p_lambda;
    hess ← add_at hess (start + high)%Z p_hess;
    grad ← sub_at grad (start + low)%Z p_lambda;
    hess ← add_at hess (start + low)%Z p_hess;
    mret (grad, hess)
  else mret (grad, hess).

(** The body of the outer loop, lines 67 to 96. *)
Definition rank_step (sorted_idx : list Z) (should_adjust : bool) (cnt : Z)
    (i : Z) (gh : list D * list D) : result (list D * list D) :=
  high ← rd sorted_idx i;
  gain_high ← rd gains (start + high)%Z;
  score_high ← rd preds (start + high)%Z;
  for_range cnt (pair_step sorted_idx should_adjust i high gain_high score_high) gh.

Definition get_gradients_for_one_query (grad hess : list D) : result (list D * list D) :=
  let cnt := cast_int (end_ - start) in
  let sorted_idx := malloc_int cnt in
  data ← offset preds start;
  sorted_idx ← argsort data sorted_idx cnt;
  i_best ← rd sorted_idx 0%Z;
  best_score ← rd preds (start + i_best)%Z;
  i_worst ← rd sorted_idx (cnt - 1)%Z;
  worst_score ← rd preds (start + i_worst)%Z;
  let should_adjust := negb (d_eqb best_score worst_score) in
  for_range cnt (rank_step sorted_idx should_adjust cnt) (grad, hess).

End OneQuery.

(** The loop over the queries.  [prange] runs its iterations on several
    threads; they are taken here one after the other, in index order. *)
Definition _get_gradients (gains preds : list D) (n_preds : Z)
    (groups query_boundaries : list Z) (n_queries : Z)
    (discounts inverse_max_dcgs sigmoid_table : list D) (n_sigmoid_bins : Z)
    (min_sigmoid_arg max_sigmoid_arg sigmoid_idx_factor : D)
    (grad hess : list D) : result (list D * list D) :=
  grad ← memset_zero grad n_preds;
  hess ← memset_zero hess n_preds;
  for_range n_queries (fun i '(grad, hess) =>
    start ← rd query_boundaries i;
    end_ ← rd query_boundaries (i + 1)%Z;
    inverse_max_dcg ← rd inverse_max_dcgs i;
    get_gradients_for_one_query gains preds start end_ discounts inverse_max_dcg
      sigmoid_table n_sigmoid_bins min_sigmoid_arg max_sigmoid_arg
      sigmoid_idx_factor grad hess) (grad, hess).

(** [&a[0]] on a typed memoryview: Cython checks the index (its [boundscheck]
    default) and raises IndexError on an empty view. *)
Definition address_of_first {A} (a : list A) : result (list A) :=
  match a with
  | [] => Fail IndexError
  | _ => Ok a
  end.

Definition get_gradients (gains preds : list D) (n_preds : Z)
    (groups query_boundaries : list Z) (n_queries : Z)
    (discounts inverse_max_dcgs sigmoid_table : list D) (n_sigmoid_bins : Z)
    (min_sigmoid_arg max_sigmoid_arg sigmoid_idx_factor : D)
    (grad hess : list D) : result (list D * list D) :=
  gains ← address_of_first gains;
  preds ← address_of_first preds;
  groups ← address_of_first groups;
  query_boundaries ← address_of_first query_boundaries;
  discounts ← address_of_first discounts;
  inverse_max_dcgs ← address_of_first inverse_max_dcgs;
  sigmoid_table ← address_of_first sigmoid_table;
  grad ← address_of_first grad;
  hess ← address_of_first hess;
  _get_gradients gains preds n_preds groups query_boundaries n_queries
    discounts inverse_max_dcgs sigmoid_table n_sigmoid_bins
    min_sigmoid_arg max_sigmoid_arg sigmoid_idx_factor grad hess.

End Kernel.

(** ** The notebook's objective callbacks

    [moltr.calculator] is not among the sources: its [Calculator] is the
    record of the five fields the callbacks read, and its two constants
    [MIN_SIGMOID_ARG] and [MAX_SIGMOID_ARG] are parameters. *)

Section Notebook.
Context `{Double D}.
Variables MIN_SIGMOID_ARG MAX_SIGMOID_ARG : D.
Local Open Scope double_scope.

Record Calculator : Type := {
  query_boundaries : list Z;
  discounts : list D;
  inverse_max_dcgs : list D;
  sigmoids : list D;
  sigmoid_idx_factor : D
}.

Record DatasetWithCalculator : Type := {
  label : list D;
  get_group : list Z;
  calculator : Calculator
}.

(** [get_group2] is [get_group] of a [DatasetWithTwoLabels]: both classes
    inherit it from [lgb.Dataset]. *)
Record DatasetWithTwoLabels : Type := {
  label_1 : list D;
  label_2 : list D;
  get_group2 : list Z;
  calculator_1 : Calculator;
  calculator_2 : Calculator;
  alpha : D
}.

(** [np.zeros(n)], [a * v] for a scalar [a] and [u + v] for two arrays of one
    length. *)
Definition np_zeros (n : nat) : list D := replicate n lit_0.
Definition np_scale (a : D) (v : list D) : list D := (d_mul a) <$> v.
Definition np_add (u v : list D) : list D := zip_with d_add u v.

Definition len {A} (l : list A) : Z := Z.of_nat (length l).

(** [grad] and [hess] are C-contiguous arrays of doubles, so
    [np.ascontiguousarray] hands the kernel the arrays themselves and the
    kernel's writes are seen by the caller. *)
Definition lambdamart_objective (preds : list D) (dataset : DatasetWithCalculator)
    : result (list D * list D) :=
  let groups := get_group dataset in
  if decide (len groups = 0%Z) then Fail (NameError "Error")
  else
    let grad := np_zeros (length preds) in
    let hess := np_zeros (length preds) in
    let c := calculator dataset in
    get_gradients (label dataset) preds (len preds) groups
      (query_boundaries c) (len (query_boundaries c) - 1)%Z
      (discounts c) (inverse_max_dcgs c) (sigmoids c) (len (sigmoids c))
      MIN_SIGMOID_ARG MAX_SIGMOID_ARG (sigmoid_idx_factor c) grad hess.

Definition get_grad_hess (labels preds : list D) (groups : list Z) (c : Calculator)
    : result (list D * list D) :=
  let grad := np_zeros (length preds) in
  let hess := np_zeros (length preds) in
  get_gradients labels preds (len preds) groups
    (query_boundaries c) (len (query_boundaries c) - 1)%Z
    (discounts c) (inverse_max_dcgs c) (sigmoids c) (len (sigmoids c))
    MIN_SIGMOID_ARG MAX_SIGMOID_ARG (sigmoid_idx_factor c) grad hess.

Definition combined_objective (preds : list D) (dataset : DatasetWithTwoLabels)
    : result (list D * list D) :=
  let groups := get_group2 dataset in
  if decide (len groups = 0%Z) then Fail (NameError "Error")
  else
    '(grad_1, hess_1) ← get_grad_hess (label_1 dataset) preds groups (calculator_1 dataset);
    '(grad_2, hess_2) ← get_grad_hess (label_2 dataset) preds groups (calculator_2 dataset);
    let alpha := alpha dataset in
    mret (np_add (np_scale alpha grad_1) (np_scale (lit_1 - alpha) grad_2),
          np_add (np_scale alpha hess_1) (np_scale (lit_1 - alpha) hess_2)).

(** [DatasetWithTwoLabels.set_alpha]: the assignment to the attribute, as
    the dataset after it. *)
Definition set_alpha (self : DatasetWithTwoLabels) (alpha : D) : DatasetWithTwoLabels :=
  {| label_1 := label_1 self; label_2 := label_2 self; get_group2 := get_group2 self;
     calculator_1 := calculator_1 self; calculator_2 := calculator_2 self;
     alpha := alpha |}.

End Notebook.

(** ** The notebook's data preparation

    A pandas data frame is the list of its columns, each a name with its
    cells in index order; the columns of a frame have one length and distinct
    names.  The cells are doubles: [request_id] and the features are float64
    columns, and the interaction columns hold the integers 0 and 1, which
    compare as the doubles 0.0 and 1.0 do. *)

Inductive pandas_error : Type :=
  | KeyError (key : string)           (* data[col]: no such column *)
  | AttributeError (name : string).   (* data.name: no such column *)

Global Instance pandas_ret : MRet (sum pandas_error) := fun A a => inr a.
Global Instance pandas_bind : MBind (sum pandas_error) := fun A B f m =>
  match m with
  | inr a => f a
  | inl e => inl e
  end.

(** [s[mask]] for a boolean mask: the cells at which the mask holds. *)
Fixpoint select {A} (mask : list bool) (s : list A) : list A :=
  match mask, s with
  | b :: mask, x :: s => if b then x :: select mask s else select mask s
  | _, _ => []
  end.

Section DataFrame.
Context `{Double D}.

Definition DataFrame : Type := list (string * list D).

Fixpoint column (data : DataFrame) (name : string) : option (list D) :=
  match data with
  | [] => None
  | (n, s) :: data => if decide (n = name) then Some s else column data name
  end.

(** [data[col]] and [data.name]. *)
Definition getitem (data : DataFrame) (col : string) : pandas_error + list D :=
  match column data col with
  | Some s => inr s
  | None => inl (KeyError col)
  end.

Definition getattr (data : DataFrame) (name : string) : pandas_error + list D :=
  match column data name with
  | Some s => inr s
  | None => inl (AttributeError name)
  end.

(** [s > 0]; a NaN is not greater than 0. *)
Definition gt_0 (s : list D) : list bool := (fun v => d_ltb lit_0 v) <$> s.

(** [x != x], which holds of a NaN and of no other double. *)
Definition isnan (x : D) : bool := negb (d_eqb x x).

(** The equality of the hash tables by which pandas computes [isin] and
    [unique] on a float64 column: [==], or both sides NaN. *)
Definition same_value (x y : D) : bool := d_eqb x y || (isnan x && isnan y).

(** [s.isin(values)].  [values] is a Python set, which pandas turns into an
    array before it looks the cells up: it is kept as the list of its
    members. *)
Definition isin (s : list D) (values : list D) : list bool :=
  (fun v => existsb (same_value v) values) <$> s.

(** [data.loc[mask]]: the rows at which the mask holds, in every column. *)
Definition loc (data : DataFrame) (mask : list bool) : DataFrame :=
  (fun c => (c.1, select mask c.2)) <$> data.

Definition drop_requests_with_no_interactions (data : DataFrame)
    (interaction_col : string) : pandas_error + DataFrame :=
  interactions ← getitem data interaction_col;
  ids ← getattr (loc data (gt_0 interactions)) "request_id";
  let interaction_requests := ids in
  request_id ← getattr data "request_id";
  mret (loc data (isin request_id interaction_requests)).

(** [s.unique()]: the distinct values of a column, each at its first
    occurrence; and [s.nunique()], their number without the NaN (its
    [dropna] is true by default). *)
Fixpoint unique (s : list D) : list D :=
  match s with
  | [] => []
  | x :: s => x :: filter (fun y => same_value x y = false) (unique s)
  end.

Definition nunique (s : list D) : nat :=
  length (filter (fun x => isnan x = false) (unique s)).

(** [[N_POSITIONS] * data.request_id.nunique()], the group sizes that the
    notebook gives to [lgb.Dataset] with a frame. *)
Definition group_sizes (N_POSITIONS : Z) (request_id : list D) : list Z :=
  replicate (nunique request_id) N_POSITIONS.

End DataFrame.
Arguments DataFrame D : clear implicits.

(** [np.repeat(a, n)]: every element of [a], [n] times; the request ids of
    [generate_data] are [np.repeat(range(n_requests), n_positions)]. *)
Definition np_repeat {A} (a : list A) (n : nat) : list A := a ≫= replicate n.

(** ** Functions of the specification *)

(** The array [order_struct] that [argsort] hands to [std::stable_sort]. *)
Definition indexed `{Double D} (data : list D) : list (IndexedElement D) :=
  imap (fun i v => {| index := Z.of_nat i; value := v |}) data.

(** Two arrays agree outside the index range [lo, hi). *)
Definition same_outside {A} (lo hi : Z) (a a' : list A) : Prop :=
  length a' = length a /\
  forall k : Z, ~ (lo <= k < hi) -> rd a' k = rd a k.

(** The quantities of one pair, in the words of the specification: the
    documents at ranks [i] and [j] have gains [gain_high] and [gain_low] and
    scores [score_high] and [score_low], [d_i] and [d_j] are the discounts
    taken for the two ranks, and [p] is the sigmoid looked up. *)
Section PairQuantities.
Context `{Double D}.
Local Open Scope double_scope.

Definition delta_ndcg (should_adjust : bool) (gain_high gain_low : D)
    (score_high score_low : D) (d_i d_j : D) (inverse_max_dcg : D) : D :=
  let delta := (gain_high - gain_low) * fabs (d_j - d_i) * inverse_max_dcg in
  if should_adjust then delta / (lit_0_01 + fabs (score_high - score_low))
  else delta.

Definition lambda_of (p delta : D) : D := p * - delta.

Definition hess_term_of (p delta : D) : D := p * (lit_2 - p) * (lit_2 * delta).

End PairQuantities.

(** ** The pairs of a query, in the words of the specification *)

(** A loop as a relation of the state before it to the state after it:
    its iterations relate the states in between, one after the other. *)
Inductive run {X S} (step : X -> S -> S -> Prop) : list X -> S -> S -> Prop :=
  | run_nil s : run step [] s s
  | run_cons x xs s s' s'' :
      step x s s' -> run step xs s' s'' -> run step (x :: xs) s s''.

(** The ordered pairs of the ranks [0 .. cnt-1], in the order in which the
    kernel takes them. *)
Definition rank_pairs (cnt : Z) : list (Z * Z) :=
  i ← seqZ 0 cnt; j ← seqZ 0 cnt; [(i, j)].

Section Accumulation.
Context `{Double D}.
Local Open Scope double_scope.

(** [grad[high] += lambda; grad[low] -= lambda; hess[high] += hess_term;
    hess[low] += hess_term]. *)
Definition accumulate (high low : Z) (lambda hess_term : D)
    (gh : list D * list D) : list D * list D :=
  (alter (fun g => g - lambda) (Z.to_nat low)
     (alter (fun g => g + lambda) (Z.to_nat high) gh.1),
   alter (fun h => h + hess_term) (Z.to_nat low)
     (alter (fun h => h + hess_term) (Z.to_nat high) gh.2)).

Variables (gains preds : list D) (start : Z)
          (discounts : list D) (inverse_max_dcg : D)
          (sigmoid_table : list D) (n_sigmoid_bins : Z)
          (min_sigmoid_arg max_sigmoid_arg sigmoid_idx_factor : D).

(** What the pair of the ranks [(i, j)] does to the two arrays: [high] and
    [low] are the documents at the two ranks.  When the gain of [high] is the
    greater, [delta_ndcg], [lambda] and [hess_term] are computed from the sigmoid
    looked up at the score difference and from the discounts at [1 + i] and
    [1 + j], and accumulated in the cells of the two documents; otherwise the
    arrays stay as they are. *)
Definition pair_accumulated (sorted_idx : list Z) (should_adjust : bool)
    (ij : Z * Z) (gh gh' : list D * list D) : Prop :=
  exists high low gain_high gain_low score_high score_low,
    rd sorted_idx ij.1 = Ok high /\ rd sorted_idx ij.2 = Ok low /\
    rd gains (start + high)%Z = Ok gain_high /\
    rd gains (start + low)%Z = Ok gain_low /\
    rd preds (start + high)%Z = Ok score_high /\
    rd preds (start + low)%Z = Ok score_low /\
    if d_ltb gain_low gain_high then
      exists p d_i d_j,
        get_sigmoid (score_high - score_low) sigmoid_table (cast_int n_sigmoid_bins)
          min_sigmoid_arg max_sigmoid_arg sigmoid_idx_factor = Ok p /\
        rd discounts (1 + ij.1)%Z = Ok d_i /\
        rd discounts (1 + ij.2)%Z = Ok d_j /\
        (0 <= start + high < len gh.1)%Z /\ (0 <= start + low < len gh.1)%Z /\
        (0 <= start + high < len gh.2)%Z /\ (0 <= start + low < len gh.2)%Z /\
        let delta := delta_ndcg should_adjust gain_high gain_low score_high score_low
                       d_i d_j inverse_max_dcg in
        gh' = accumulate (start + high) (start + low)
                (lambda_of p delta) (hess_term_of p delta) gh
    else gh' = gh.

End Accumulation.

(** What the query [i] does to the two arrays: its documents are the cells
    [start .. start + cnt - 1], [sorted_idx] holds them in the order of the
    sort of their scores, so that the document [sorted_idx[r]] has the rank
    [r], [should_adjust] holds unless the scores at the first and at the last
    rank are equal, and every ordered pair of ranks is accumulated, with the
    normalizer of the query. *)
Definition query_accumulated `{Double D} (gains preds : list D)
    (query_boundaries : list Z) (discounts inverse_max_dcgs sigmoid_table : list D)
    (n_sigmoid_bins : Z) (min_sigmoid_arg max_sigmoid_arg sigmoid_idx_factor : D)
    (i : Z) (gh gh' : list D * list D) : Prop :=
  exists start end_ inverse_max_dcg sorted_idx i_best i_worst best_score worst_score,
    rd query_boundaries i = Ok start /\
    rd query_boundaries (i + 1) = Ok end_ /\
    rd inverse_max_dcgs i = Ok inverse_max_dcg /\
    let cnt := cast_int (end_ - start) in
    0 <= start <= len preds /\
    argsort (drop (Z.to_nat start) preds) (malloc_int cnt) cnt = Ok sorted_idx /\
    sorted_idx ≡ₚ seqZ 0 cnt /\
    rd sorted_idx 0 = Ok i_best /\ rd preds (start + i_best) = Ok best_score /\
    rd sorted_idx (cnt - 1) = Ok i_worst /\ rd preds (start + i_worst) = Ok worst_score /\
    run (pair_accumulated gains preds start discounts inverse_max_dcg sigmoid_table
           n_sigmoid_bins min_sigmoid_arg max_sigmoid_arg sigmoid_idx_factor
           sorted_idx (negb (d_eqb best_score worst_score)))
        (rank_pairs cnt) gh gh'.

(** The QueryBoundary table does not decrease over the entries [0 .. n]. *)
Definition boundaries_sorted (query_boundaries : list Z) (n : Z) : Prop :=
  forall j k s e, 0 <= j <= k -> k <= n ->
    rd query_boundaries j = Ok s -> rd query_boundaries k = Ok e -> s <= e.

(** The arrays of a call of the kernel fit together: the [n_preds] cells
    that are zeroed exist in both output arrays and in the gains and the
    predictions, there is a normalizer for every query, and every query has at
    least one document, lies in the first [n_preds] cells, has an [int] as its
    size and a discount for each of its ranks and one more. *)
Definition kernel_input_ok {D} (gains preds : list D) (n_preds : Z)
    (query_boundaries : list Z) (n_queries : Z)
    (discounts inverse_max_dcgs grad hess : list D) : Prop :=
  0 <= n_preds /\
  n_preds <= Z.of_nat (length grad) /\ n_preds <= Z.of_nat (length hess) /\
  n_preds <= Z.of_nat (length gains) /\ n_preds <= Z.of_nat (length preds) /\
  0 <= n_queries <= Z.of_nat (length inverse_max_dcgs) /\
  forall j, 0 <= j < n_queries ->
    exists s e, rd query_boundaries j = Ok s /\ rd query_boundaries (j + 1) = Ok e /\
                0 <= s /\ s < e /\ e <= n_preds /\ e - s <= INT_MAX /\
                e - s < Z.of_nat (length discounts).

(** The order in which a stable descending sort leaves two elements: the
    greater value first and, of two equal values, the smaller index first. *)
Definition before (a b : IndexedElement Q) : Prop :=
  (value b < value a)%Q \/ ((value a == value b)%Q /\ index a < index b).

Definition index_lt {D} (a b : IndexedElement D) : Prop := index a < index b.

(** The cells [lo .. hi-1] of an array, and the sum of an array of
    rationals. *)
Definition slice {A} (lo hi : Z) (a : list A) : list A :=
  take (Z.to_nat (hi - lo)) (drop (Z.to_nat lo) a).

Definition sum_Q (l : list Q) : Q := foldr Qplus 0%Q l.

(** The sigmoid lookups of the query [s .. e-1] succeed: the one at the
    score difference of any two of its documents of which the first has the
    greater gain.  These are the lookups that the kernel makes. *)
Definition lookups_succeed `{Double D} (gains preds : list D) (s e : Z)
    (sigmoid_table : list D) (n_sigmoid_bins : Z)
    (min_sigmoid_arg max_sigmoid_arg sigmoid_idx_factor : D) : Prop :=
  forall k k' gain_high gain_low score_high score_low,
    s <= k < e -> s <= k' < e ->
    rd gains k = Ok gain_high -> rd gains k' = Ok gain_low ->
    rd preds k = Ok score_high -> rd preds k' = Ok score_low ->
    d_ltb gain_low gain_high = true ->
    is_Ok (get_sigmoid (d_sub score_high score_low) sigmoid_table
             (cast_int n_sigmoid_bins) min_sigmoid_arg max_sigmoid_arg
             sigmoid_idx_factor).

(** The same of every query of a QueryBoundary table. *)
Definition all_lookups_succeed `{Double D} (gains preds : list D)
    (query_boundaries : list Z) (n_queries : Z)
    (sigmoid_table : list D) (n_sigmoid_bins : Z)
    (min_sigmoid_arg max_sigmoid_arg sigmoid_idx_factor : D) : Prop :=
  forall j s e, 0 <= j < n_queries ->
    rd query_boundaries j = Ok s -> rd query_boundaries (j + 1) = Ok e ->
    lookups_succeed gains preds s e sigmoid_table n_sigmoid_bins
      min_sigmoid_arg max_sigmoid_arg sigmoid_idx_factor.

(** A call of the objective callback whose arrays fit together: no array
    is empty, the calculator's tables fit the labels and the predictions as
    [kernel_input_ok] says, with one query for each entry of the QueryBoundary
    table but the last, and the sigmoid lookups of every query succeed. *)
Definition objective_input_ok `{Double D} (MIN_SIGMOID_ARG MAX_SIGMOID_ARG : D)
    (labels preds : list D) (groups : list Z) (c : Calculator) : Prop :=
  groups <> [] /\ labels <> [] /\ preds <> [] /\
  query_boundaries c <> [] /\ discounts c <> [] /\ inverse_max_dcgs c <> [] /\
  sigmoids c <> [] /\
  kernel_input_ok labels preds (len preds) (query_boundaries c)
    (len (query_boundaries c) - 1) (discounts c) (inverse_max_dcgs c)
    (np_zeros (length preds)) (np_zeros (length preds)) /\
  all_lookups_succeed labels preds (query_boundaries c)
    (len (query_boundaries c) - 1) (sigmoids c) (len (sigmoids c))
    MIN_SIGMOID_ARG MAX_SIGMOID_ARG (sigmoid_idx_factor c).

(** Two arrays of one length agree on the index range [lo, hi). *)
Definition agree_inside {A} (lo hi : Z) (a b : list A) : Prop :=
  length a = length b /\
  forall k : Z, lo <= k < hi -> rd a k = rd b k.

Definition agree2 {A} (lo hi : Z) (gh gh' : list A * list A) : Prop :=
  agree_inside lo hi gh.1 gh'.1 /\ agree_inside lo hi gh.2 gh'.2.

(** The sign of the cells of an array of rationals: of the first [n], and
    of the cell [k]. *)
Definition nonneg_below (n : Z) (a : list Q) : Prop :=
  forall k x, 0 <= k < n -> rd a k = Ok x -> (0 <= x)%Q.

Definition nonpos_at (k : Z) (a : list Q) : Prop :=
  forall x, rd a k = Ok x -> (x <= 0)%Q.

Definition nonneg_at (k : Z) (a : list Q) : Prop :=
  forall x, rd a k = Ok x -> (0 <= x)%Q.

(** The QueryBoundary table of a calculator does not decrease, starts at 0
    and ends at [n]: its queries cover the cells [0 .. n-1]. *)
Definition queries_cover {D} (c : @Calculator D) (n : Z) : Prop :=
  boundaries_sorted (query_boundaries c) (len (query_boundaries c) - 1) /\
  rd (query_boundaries c) 0 = Ok 0 /\
  rd (query_boundaries c) (len (query_boundaries c) - 1) = Ok n.

(** [==] is symmetric and transitive on the cells of a frame. *)
Definition eqb_is_partial_equivalence (D : Type) `{Double D} : Prop :=
  (forall x y : D, d_eqb x y = true -> d_eqb y x = true) /\
  (forall x y z : D, d_eqb x y = true -> d_eqb y z = true -> d_eqb x z = true).

(** The request of the cell [id] has an interaction: a row with the same
    request id (an equal one, or a NaN as [id] is) has a positive cell in the
    interaction column. *)
Definition has_interaction `{Double D} (interactions request_id : list D) (id : D)
    : Prop :=
  exists k id' v, request_id !! k = Some id' /\ interactions !! k = Some v /\
                  d_ltb lit_0 v = true /\ same_value id id' = true.

(** * Properties *)

(** ** Outcomes, arrays and loops *)

Lemma bind_Ok {A B} (m : result A) (f : A -> result B) (b : B) :
  m ≫= f = Ok b <-> exists a, m = Ok a /\ f a = Ok b.
Proof.
  destruct m as [a|e]; cbn.
  - split; [intros Hf; exists a; auto | intros (a' & [= <-] & Hf); exact Hf].
  - split; [discriminate | intros (a' & Hm & _); discriminate].
Qed.

Lemma bind_Ok_l {A B} (m : result A) (f : A -> result B) (a : A) :
  m = Ok a -> m ≫= f = f a.
Proof. intros ->. reflexivity. Qed.

Lemma rd_Ok {A} (a : list A) (i : Z) (x : A) :
  rd a i = Ok x <-> 0 <= i /\ a !! Z.to_nat i = Some x.
Proof.
  unfold rd. destruct (decide (0 <= i)) as [Hi|Hi].
  - destruct (a !! Z.to_nat i) as [y|]; split.
    + intros [= ->]. auto.
    + intros [_ [= ->]]. reflexivity.
    + discriminate.
    + intros [_ [=]].
  - split; [discriminate | intros [Hi' _]; contradiction].
Qed.

Lemma rd_in_range {A} (a : list A) (i : Z) :
  0 <= i < Z.of_nat (length a) -> exists x, rd a i = Ok x.
Proof.
  intros Hi. destruct (lookup_lt_is_Some_2 a (Z.to_nat i)) as [x Hx]; [lia|].
  exists x. apply rd_Ok. split; [lia | exact Hx].
Qed.

Lemma rd_range {A} (a : list A) (i : Z) (x : A) :
  rd a i = Ok x -> 0 <= i < Z.of_nat (length a).
Proof.
  intros [Hi Hx]%rd_Ok. apply lookup_lt_Some in Hx. lia.
Qed.

Lemma wr_Ok {A} (a : list A) (i : Z) (v : A) (a' : list A) :
  wr a i v = Ok a' <-> 0 <= i < Z.of_nat (length a) /\ a' = <[Z.to_nat i := v]> a.
Proof.
  unfold wr. destruct (decide _) as [Hi|Hi]; split.
  - intros [= <-]. auto.
  - intros [_ ->]. reflexivity.
  - discriminate.
  - intros [Hi' _]. contradiction.
Qed.

Lemma wr_in_range {A} (a : list A) (i : Z) (v : A) :
  0 <= i < Z.of_nat (length a) -> wr a i v = Ok (<[Z.to_nat i := v]> a).
Proof. intros Hi. apply wr_Ok. auto. Qed.

Lemma rd_wr_same {A} (a : list A) (i : Z) (v : A) :
  0 <= i < Z.of_nat (length a) -> rd (<[Z.to_nat i := v]> a) i = Ok v.
Proof.
  intros Hi. apply rd_Ok. split; [lia|]. apply list_lookup_insert_eq. lia.
Qed.

Lemma rd_wr_other {A} (a : list A) (i k : Z) (v : A) :
  0 <= i -> 0 <= k -> i <> k -> rd (<[Z.to_nat i := v]> a) k = rd a k.
Proof.
  intros Hi Hk Hne. unfold rd. destruct (decide (0 <= k)); [|reflexivity].
  rewrite list_lookup_insert_ne by lia. reflexivity.
Qed.

Lemma rd_eq_lookup {A} (a b : list A) (k : Z) :
  (0 <= k)%Z -> rd a k = rd b k -> a !! Z.to_nat k = b !! Z.to_nat k.
Proof.
  unfold rd. intros Hk. destruct (decide (0 <= k)%Z); [|lia].
  destruct (a !! Z.to_nat k), (b !! Z.to_nat k); congruence.
Qed.

Lemma seqZ_succ (m : Z) (n : Z) :
  0 < n -> seqZ m n = m :: seqZ (m + 1) (n - 1).
Proof.
  intros Hn. replace n with (Z.succ (n - 1)) at 1 by lia.
  rewrite seqZ_cons by lia. f_equal. f_equal; lia.
Qed.

(** A loop invariant [P i s], read "before iteration [i] the state is [s]". *)
Lemma iterate_seqZ_inv {S} (P : Z -> S -> Prop) (body : Z -> S -> result S)
    (m n : Z) (s s' : S) :
  0 <= n ->
  P m s ->
  (forall i t t', m <= i < m + n -> P i t -> body i t = Ok t' -> P (i + 1) t') ->
  iterate body (seqZ m n) s = Ok s' ->
  P (m + n) s'.
Proof.
  intros Hn. revert m s. pattern n. apply natlike_ind; [ | | exact Hn]; clear n Hn.
  - intros m s HP _ [= <-]. replace (m + 0) with m by lia. exact HP.
  - intros n Hn IH m s HP Hstep Hrun.
    rewrite seqZ_succ in Hrun by lia. cbn in Hrun.
    apply bind_Ok in Hrun as (t & Ht & Hrun).
    replace (Z.succ n - 1) with n in Hrun by lia.
    replace (m + Z.succ n) with ((m + 1) + n) by lia.
    apply (IH (m + 1) t); [ | | exact Hrun].
    + apply (Hstep m s t); [lia | exact HP | exact Ht].
    + intros i u u' Hi. apply Hstep. lia.
Qed.

Lemma iterate_app {S} (body : Z -> S -> result S) (ks1 ks2 : list Z) (s : S) :
  iterate body (ks1 ++ ks2) s = iterate body ks1 s ≫= iterate body ks2.
Proof.
  revert s. induction ks1 as [|k ks1 IH]; intros s; cbn; [reflexivity|].
  destruct (body k s) as [t|e]; cbn; [apply IH | reflexivity].
Qed.

Lemma for_range_nonpos {S} (n : Z) (body : Z -> S -> result S) (s : S) :
  n <= 0 -> for_range n body s = Ok s.
Proof.
  intros Hn. unfold for_range, seqZ.
  replace (Z.to_nat n) with 0%nat by lia. reflexivity.
Qed.

Lemma for_range_succ {S} (n : Z) (body : Z -> S -> result S) (s : S) :
  0 <= n -> for_range (n + 1) body s = for_range n body s ≫= body n.
Proof.
  intros Hn. unfold for_range.
  rewrite seqZ_app by lia. rewrite iterate_app.
  destruct (iterate body (seqZ 0 n) s) as [t|e]; cbn; [|reflexivity].
  rewrite seqZ_succ by lia. replace (1 - 1) with 0 by lia.
  replace (0 + n) with n by lia.
  cbn. destruct (body n t); reflexivity.
Qed.

Lemma for_range_inv {S} (P : Z -> S -> Prop) (body : Z -> S -> result S)
    (n : Z) (s s' : S) :
  0 <= n ->
  P 0 s ->
  (forall i t t', 0 <= i < n -> P i t -> body i t = Ok t' -> P (i + 1) t') ->
  for_range n body s = Ok s' ->
  P n s'.
Proof.
  intros Hn HP Hstep Hrun.
  apply (iterate_seqZ_inv P body 0 n s s' Hn HP); [|exact Hrun].
  intros i t t' Hi. apply Hstep. lia.
Qed.

(** An invariant that does not mention the index holds for every [n]. *)
Lemma for_range_preserves {S} (P : S -> Prop) (body : Z -> S -> result S)
    (n : Z) (s s' : S) :
  P s ->
  (forall i t t', 0 <= i < n -> P t -> body i t = Ok t' -> P t') ->
  for_range n body s = Ok s' ->
  P s'.
Proof.
  intros HP Hstep Hrun. destruct (Z.le_gt_cases 0 n) as [Hn|Hn].
  - apply (for_range_inv (fun _ => P) body n s s' Hn HP Hstep Hrun).
  - rewrite for_range_nonpos in Hrun by lia. injection Hrun as <-. exact HP.
Qed.

(** A loop whose every iteration succeeds from a state that satisfies the
    invariant succeeds. *)
Lemma for_range_total {S} (P : Z -> S -> Prop) (body : Z -> S -> result S)
    (n : Z) (s : S) :
  0 <= n ->
  P 0 s ->
  (forall i t, 0 <= i < n -> P i t -> exists t', body i t = Ok t' /\ P (i + 1) t') ->
  exists s', for_range n body s = Ok s' /\ P n s'.
Proof.
  intros Hn. pattern n. apply natlike_ind; [ | | exact Hn]; clear n Hn.
  - intros HP _. exists s. rewrite for_range_nonpos by lia. auto.
  - intros n Hn IH HP Hstep.
    destruct IH as (t & Ht & HPt); [exact HP | intros i u Hi; apply Hstep; lia |].
    destruct (Hstep n t) as (t' & Ht' & HPt'); [lia | exact HPt |].
    exists t'. unfold Z.succ. rewrite for_range_succ by lia. rewrite Ht. auto.
Qed.

(** [for i in range(n): dst[i] = g(i, src[i])]. *)
Lemma for_range_copy {A B} (src : list A) (g : Z -> A -> B) (n : Z) (dst dst' : list B) :
  0 <= n ->
  for_range n (fun i a => v ← rd src i; wr a i (g i v)) dst = Ok dst' <->
  n <= Z.of_nat (length src) /\ n <= Z.of_nat (length dst) /\
  dst' = imap (fun i v => g (Z.of_nat i) v) (take (Z.to_nat n) src)
           ++ drop (Z.to_nat n) dst.
Proof.
  intros Hn. revert dst'. pattern n. apply natlike_ind; [ | | exact Hn]; clear n Hn.
  - intros dst'. rewrite for_range_nonpos by lia. cbn. rewrite drop_0.
    split; [intros [= <-] | intros (_ & _ & ->)]; repeat split; auto; lia.
  - intros n Hn IH dst'. unfold Z.succ. rewrite for_range_succ by lia.
    rewrite bind_Ok. split.
    + intros (a & Ha & Hbody). apply IH in Ha as (Hsrc & Hdst & ->).
      apply bind_Ok in Hbody as (v & Hv & Hw).
      pose proof (rd_range _ _ _ Hv) as Hlt.
      apply rd_Ok in Hv as [_ Hv].
      apply wr_Ok in Hw as [Hw ->].
      rewrite length_app, length_imap, length_take, length_drop in Hw.
      repeat split; [lia | lia |].
      replace (Z.to_nat (n + 1)) with (S (Z.to_nat n)) by lia.
      rewrite (take_S_r _ _ _ Hv), imap_app, <- app_assoc. cbn.
      rewrite insert_app_r_alt by (rewrite length_imap, length_take; lia).
      rewrite length_imap, length_take.
      replace (Z.to_nat n - Z.to_nat n `min` length src)%nat with 0%nat by lia.
      destruct (lookup_lt_is_Some_2 dst (Z.to_nat n)) as [y Hy]; [lia|].
      rewrite (drop_S _ _ _ Hy). cbn.
      replace (Z.to_nat n `min` length src + 0)%nat with (Z.to_nat n) by lia.
      rewrite Z2Nat.id by lia. reflexivity.
    + intros (Hsrc & Hdst & ->).
      destruct (lookup_lt_is_Some_2 src (Z.to_nat n)) as [v Hv]; [lia|].
      destruct (lookup_lt_is_Some_2 dst (Z.to_nat n)) as [y Hy]; [lia|].
      exists (imap (fun i v => g (Z.of_nat i) v) (take (Z.to_nat n) src)
                ++ drop (Z.to_nat n) dst).
      split; [apply IH; split; [lia | split; [lia | reflexivity]] |].
      assert (Hrd : rd src n = Ok v) by (apply rd_Ok; split; [lia | exact Hv]).
      rewrite (bind_Ok_l _ _ _ Hrd).
      apply wr_Ok. rewrite length_app, length_imap, length_take, length_drop.
      split; [lia|].
      replace (Z.to_nat (n + 1)) with (S (Z.to_nat n)) by lia.
      rewrite (take_S_r _ _ _ Hv), imap_app, <- app_assoc. cbn.
      rewrite insert_app_r_alt by (rewrite length_imap, length_take; lia).
      rewrite length_imap, length_take.
      replace (Z.to_nat n - Z.to_nat n `min` length src)%nat with 0%nat by lia.
      rewrite (drop_S _ _ _ Hy). cbn.
      replace (Z.to_nat n `min` length src + 0)%nat with (Z.to_nat n) by lia.
      rewrite Z2Nat.id by lia. reflexivity.
Qed.

(** ** argsort *)

Section ArgsortFacts.
Context `{Double D}.

Lemma insert_before_Permutation {A} (comp : A -> A -> bool) (x : A) (l : list A) :
  insert_before comp x l ≡ₚ x :: l.
Proof.
  induction l as [|y l IH]; cbn; [reflexivity|].
  destruct (comp y x); [|reflexivity].
  rewrite IH. apply Permutation_swap.
Qed.

Lemma stable_sort_Permutation {A} (comp : A -> A -> bool) (l : list A) :
  stable_sort comp l ≡ₚ l.
Proof.
  induction l as [|x l IH]; cbn; [reflexivity|].
  rewrite insert_before_Permutation, IH. reflexivity.
Qed.

Lemma stable_sort_length {A} (comp : A -> A -> bool) (l : list A) :
  length (stable_sort comp l) = length l.
Proof. apply Permutation_length, stable_sort_Permutation. Qed.

Lemma indexed_length (data : list D) : length (indexed data) = length data.
Proof. apply length_imap. Qed.

Lemma indexed_lookup (data : list D) (i : nat) :
  indexed data !! i = (fun v => {| index := Z.of_nat i; value := v |}) <$> data !! i.
Proof. unfold indexed. rewrite list_lookup_imap. reflexivity. Qed.

Lemma indexed_index (data : list D) :
  index <$> indexed data = seqZ 0 (Z.of_nat (length data)).
Proof.
  apply list_eq. intros i. rewrite list_lookup_fmap, indexed_lookup.
  destruct (data !! i) as [v|] eqn:Hv; cbn.
  - apply lookup_lt_Some in Hv. symmetry. apply lookup_seqZ. lia.
  - apply lookup_ge_None in Hv. symmetry. apply lookup_ge_None.
    rewrite length_seqZ. lia.
Qed.

Lemma imap_index (l : list (IndexedElement D)) :
  imap (fun (_ : nat) (e : IndexedElement D) => index e) l = index <$> l.
Proof. apply (imap_const index). Qed.

(** What [argsort] computes, and when. *)
Lemma argsort_Ok (data : list D) (indices : list Z) (n : Z) (idx : list Z) :
  argsort data indices n = Ok idx <->
  0 <= n <= Z.of_nat (length data) /\ n <= Z.of_nat (length indices) /\
  idx = (index <$> stable_sort cmp (indexed (take (Z.to_nat n) data)))
          ++ drop (Z.to_nat n) indices.
Proof.
  unfold argsort, new_array. destruct (decide (n < 0)) as [Hneg|Hn].
  { cbn. split; [discriminate | lia]. }
  assert (Hn0 : 0 <= n) by lia. cbn.
  set (fill := fun (i : Z) (a : list (IndexedElement D)) =>
                 v ← rd data i; wr a i {| index := i; value := v |}).
  assert (Hfill : forall a',
    for_range n fill (replicate (Z.to_nat n) {| index := 0; value := lit_0 |}) = Ok a' <->
    n <= Z.of_nat (length data) /\ a' = indexed (take (Z.to_nat n) data)).
  { intros a'. unfold fill.
    rewrite (for_range_copy data (fun i v => {| index := i; value := v |}) n _ a' Hn0).
    rewrite length_replicate, drop_ge by (rewrite length_replicate; lia).
    rewrite app_nil_r. unfold indexed. split.
    - intros (? & _ & ->). auto.
    - intros (? & ->). repeat split; [lia | lia]. }
  destruct (for_range n fill _) as [a|e]; cbn.
  - destruct (Hfill a) as [[Hdata ->] _]; [reflexivity|].
    rewrite (for_range_copy _ (fun _ e => index e) n indices idx Hn0).
    rewrite stable_sort_length, indexed_length, length_take.
    rewrite take_ge by (rewrite stable_sort_length, indexed_length, length_take; lia).
    cbv beta. rewrite imap_index. split.
    + intros (_ & ? & ->). repeat split; auto; lia.
    + intros (? & ? & ->). repeat split; auto; lia.
  - split; [discriminate|]. intros ([_ Hdata] & _ & _).
    destruct (Hfill (indexed (take (Z.to_nat n) data))) as [_ Hback].
    discriminate Hback. auto.
Qed.

(** The first [n] cells of the result hold a permutation of [0 .. n-1]. *)
Lemma argsort_Permutation (data : list D) (indices : list Z) (n : Z) (idx : list Z) :
  argsort data indices n = Ok idx ->
  take (Z.to_nat n) idx ≡ₚ seqZ 0 n /\ length idx = length indices.
Proof.
  intros ([Hn Hdata] & Hind & ->)%argsort_Ok.
  assert (Hlen : length (index <$> stable_sort cmp (indexed (take (Z.to_nat n) data)))
                 = Z.to_nat n).
  { rewrite length_fmap, stable_sort_length, indexed_length, length_take. lia. }
  split.
  - rewrite take_app_length' by (symmetry; exact Hlen).
    rewrite stable_sort_Permutation, indexed_index, length_take.
    replace (Z.of_nat (Z.to_nat n `min` length data)) with n by lia. reflexivity.
  - rewrite length_app, Hlen, length_drop. lia.
Qed.

(** Every cell the sort has written holds an index below [n]. *)
Lemma argsort_range (data : list D) (indices : list Z) (n : Z) (idx : list Z)
    (i x : Z) :
  argsort data indices n = Ok idx -> i < n -> rd idx i = Ok x -> 0 <= x < n.
Proof.
  intros Hsort Hi [Hi0 Hx]%rd_Ok.
  destruct (argsort_Permutation _ _ _ _ Hsort) as [Hperm _].
  assert (Hin : x ∈ seqZ 0 n).
  { rewrite <- Hperm. apply list_elem_of_lookup. exists (Z.to_nat i).
    rewrite lookup_take_lt by lia. exact Hx. }
  apply elem_of_seqZ in Hin. lia.
Qed.

End ArgsortFacts.

(** ** C integers *)

Lemma cast_int_id (z : Z) : INT_MIN <= z <= INT_MAX -> cast_int z = z.
Proof.
  unfold INT_MIN, INT_MAX, cast_int. intros Hz.
  rewrite Z.mod_small by lia. lia.
Qed.

(** On a difference that is not negative the cast can only lose. *)
Lemma cast_int_le (z : Z) : 0 <= z -> cast_int z <= z.
Proof.
  unfold cast_int. intros Hz.
  pose proof (Z.mod_le (z + 2 ^ 31) (2 ^ 32) ltac:(lia) ltac:(lia)). lia.
Qed.

(** ** The kernel: what a pair writes *)

Section KernelFacts.
Context `{Double D}.
Local Open Scope double_scope.

Lemma add_at_Ok (a : list D) (i : Z) (v : D) (a' : list D) :
  add_at a i v = Ok a' <->
  exists x, rd a i = Ok x /\ a' = <[Z.to_nat i := x + v]> a.
Proof.
  unfold add_at. rewrite bind_Ok. split.
  - intros (x & Hx & [_ ->]%wr_Ok). eauto.
  - intros (x & Hx & ->). exists x. split; [exact Hx|].
    apply wr_in_range. exact (rd_range _ _ _ Hx).
Qed.

Lemma sub_at_Ok (a : list D) (i : Z) (v : D) (a' : list D) :
  sub_at a i v = Ok a' <->
  exists x, rd a i = Ok x /\ a' = <[Z.to_nat i := x - v]> a.
Proof.
  unfold sub_at. rewrite bind_Ok. split.
  - intros (x & Hx & [_ ->]%wr_Ok). eauto.
  - intros (x & Hx & ->). exists x. split; [exact Hx|].
    apply wr_in_range. exact (rd_range _ _ _ Hx).
Qed.

Lemma same_outside_refl (lo hi : Z) (a : list D) : same_outside lo hi a a.
Proof. split; auto. Qed.

Lemma same_outside_weaken (lo hi lo' hi' : Z) (a a' : list D) :
  lo' <= lo -> hi <= hi' -> same_outside lo hi a a' -> same_outside lo' hi' a a'.
Proof.
  intros Hlo Hhi [Hlen Hout]. split; [exact Hlen|].
  intros k Hk. apply Hout. lia.
Qed.

Lemma same_outside_trans (lo hi : Z) (a b c : list D) :
  same_outside lo hi a b -> same_outside lo hi b c -> same_outside lo hi a c.
Proof.
  intros [Hl1 H1] [Hl2 H2]. split; [congruence|].
  intros k Hk. rewrite H2, H1 by exact Hk. reflexivity.
Qed.

Lemma same_outside_insert (lo hi : Z) (a : list D) (i : Z) (v : D) :
  lo <= i < hi -> 0 <= i -> same_outside lo hi a (<[Z.to_nat i := v]> a).
Proof.
  intros Hi Hi0. split; [apply length_insert|].
  intros k Hk. unfold rd. destruct (decide (0 <= k)); [|reflexivity].
  rewrite list_lookup_insert_ne by lia. reflexivity.
Qed.

Lemma add_at_same_outside (lo hi : Z) (a : list D) (i : Z) (v : D) (a' : list D) :
  add_at a i v = Ok a' -> lo <= i < hi -> same_outside lo hi a a'.
Proof.
  intros (x & Hx & ->)%add_at_Ok Hi.
  apply same_outside_insert; [exact Hi | apply (rd_range _ _ _ Hx)].
Qed.

Lemma sub_at_same_outside (lo hi : Z) (a : list D) (i : Z) (v : D) (a' : list D) :
  sub_at a i v = Ok a' -> lo <= i < hi -> same_outside lo hi a a'.
Proof.
  intros (x & Hx & ->)%sub_at_Ok Hi.
  apply same_outside_insert; [exact Hi | apply (rd_range _ _ _ Hx)].
Qed.

Section OneQueryFacts.
Variables (gains preds : list D) (start end_ : Z)
          (discounts : list D) (inverse_max_dcg : D)
          (sigmoid_table : list D) (n_sigmoid_bins : Z)
          (min_sigmoid_arg max_sigmoid_arg sigmoid_idx_factor : D).

Local Abbreviation pair_step' := (pair_step gains preds start discounts inverse_max_dcg
  sigmoid_table n_sigmoid_bins min_sigmoid_arg max_sigmoid_arg sigmoid_idx_factor).
Local Abbreviation rank_step' := (rank_step gains preds start discounts inverse_max_dcg
  sigmoid_table n_sigmoid_bins min_sigmoid_arg max_sigmoid_arg sigmoid_idx_factor).
Local Abbreviation one_query' := (get_gradients_for_one_query gains preds start end_
  discounts inverse_max_dcg sigmoid_table n_sigmoid_bins min_sigmoid_arg
  max_sigmoid_arg sigmoid_idx_factor).
Local Abbreviation get_sigmoid' score := (get_sigmoid score sigmoid_table
  (cast_int n_sigmoid_bins) min_sigmoid_arg max_sigmoid_arg sigmoid_idx_factor).

(** The inner loop body, unfolded: the reads it makes, then either nothing
    (the pair does not qualify) or the four accumulations. *)
Lemma pair_step_Ok (sorted_idx : list Z) (should_adjust : bool)
    (i high : Z) (gain_high score_high : D) (j : Z) (grad hess grad' hess' : list D) :
  pair_step' sorted_idx should_adjust i high gain_high score_high j (grad, hess)
    = Ok (grad', hess') <->
  exists low gain_low score_low,
    rd sorted_idx j = Ok low /\
    rd gains (start + low)%Z = Ok gain_low /\
    rd preds (start + low)%Z = Ok score_low /\
    if d_ltb gain_low gain_high then
      exists p d_j d_i g1 h1,
        get_sigmoid' (score_high - score_low) = Ok p /\
        rd discounts (1 + j)%Z = Ok d_j /\
        rd discounts (1 + i)%Z = Ok d_i /\
        let delta := delta_ndcg should_adjust gain_high gain_low
                       score_high score_low d_i d_j inverse_max_dcg in
        add_at grad (start + high)%Z (lambda_of p delta) = Ok g1 /\
        add_at hess (start + high)%Z (hess_term_of p delta) = Ok h1 /\
        sub_at g1 (start + low)%Z (lambda_of p delta) = Ok grad' /\
        add_at h1 (start + low)%Z (hess_term_of p delta) = Ok hess'
    else grad' = grad /\ hess' = hess.
Proof.
  unfold pair_step. split.
  - intros Hrun.
    apply bind_Ok in Hrun as (low & Hlow & Hrun).
    apply bind_Ok in Hrun as (gain_low & Hgl & Hrun).
    apply bind_Ok in Hrun as (score_low & Hsl & Hrun).
    exists low, gain_low, score_low. repeat (split; [assumption|]).
    destruct (d_ltb gain_low gain_high).
    + apply bind_Ok in Hrun as (p & Hp & Hrun).
      apply bind_Ok in Hrun as (d_j & Hdj & Hrun).
      apply bind_Ok in Hrun as (d_i & Hdi & Hrun).
      apply bind_Ok in Hrun as (g1 & Hg1 & Hrun).
      apply bind_Ok in Hrun as (h1 & Hh1 & Hrun).
      apply bind_Ok in Hrun as (g2 & Hg2 & Hrun).
      apply bind_Ok in Hrun as (h2 & Hh2 & Hrun).
      injection Hrun as <- <-.
      exists p, d_j, d_i, g1, h1. repeat (split; [assumption|]). assumption.
    + injection Hrun as <- <-. auto.
  - intros (low & gain_low & score_low & Hlow & Hgl & Hsl & Hrest).
    rewrite (bind_Ok_l _ _ _ Hlow), (bind_Ok_l _ _ _ Hgl), (bind_Ok_l _ _ _ Hsl).
    destruct (d_ltb gain_low gain_high).
    + destruct Hrest as (p & d_j & d_i & g1 & h1 & Hp & Hdj & Hdi & Hg1 & Hh1 & Hg2 & Hh2).
      rewrite (bind_Ok_l _ _ _ Hp), (bind_Ok_l _ _ _ Hdj), (bind_Ok_l _ _ _ Hdi).
      unfold delta_ndcg, lambda_of, hess_term_of in Hg1, Hh1, Hg2, Hh2.
      rewrite (bind_Ok_l _ _ _ Hg1), (bind_Ok_l _ _ _ Hh1).
      rewrite (bind_Ok_l _ _ _ Hg2), (bind_Ok_l _ _ _ Hh2). reflexivity.
    + destruct Hrest as [-> ->]. reflexivity.
Qed.

(** A pair writes the cells of its two documents and no other. *)
Lemma pair_step_frame (lo hi : Z) (sorted_idx : list Z) (should_adjust : bool)
    (i high : Z) (gain_high score_high : D) (j : Z) (grad hess grad' hess' : list D) :
  pair_step' sorted_idx should_adjust i high gain_high score_high j (grad, hess)
    = Ok (grad', hess') ->
  (lo <= start + high < hi)%Z ->
  (forall low, rd sorted_idx j = Ok low -> lo <= start + low < hi)%Z ->
  same_outside lo hi grad grad' /\ same_outside lo hi hess hess'.
Proof.
  intros (low & gain_low & score_low & Hlow & _ & _ & Hrest)%pair_step_Ok Hhigh Hin.
  specialize (Hin low Hlow).
  destruct (d_ltb gain_low gain_high).
  - destruct Hrest as (p & d_j & d_i & g1 & h1 & _ & _ & _ & Hg1 & Hh1 & Hg2 & Hh2).
    split.
    + eapply same_outside_trans;
        [eapply add_at_same_outside | eapply sub_at_same_outside]; eassumption.
    + eapply same_outside_trans; eapply add_at_same_outside; eassumption.
  - destruct Hrest as [-> ->]. split; apply same_outside_refl.
Qed.

(** The per-query computation writes inside the [cnt] cells that start at
    [start], where [cnt] is the [int] the code computes. *)
Lemma one_query_frame_cnt (grad hess grad' hess' : list D) :
  one_query' grad hess = Ok (grad', hess') ->
  same_outside start (start + cast_int (end_ - start)) grad grad' /\
  same_outside start (start + cast_int (end_ - start)) hess hess'.
Proof.
  unfold get_gradients_for_one_query.
  set (cnt := cast_int (end_ - start)). intros Hrun.
  apply bind_Ok in Hrun as (data & Hdata & Hrun).
  apply bind_Ok in Hrun as (sorted_idx & Hsort & Hrun).
  apply bind_Ok in Hrun as (i_best & _ & Hrun).
  apply bind_Ok in Hrun as (best_score & _ & Hrun).
  apply bind_Ok in Hrun as (i_worst & _ & Hrun).
  apply bind_Ok in Hrun as (worst_score & _ & Hrun).
  set (should_adjust := negb (d_eqb best_score worst_score)) in Hrun.
  pose (P := fun gh : list D * list D =>
    same_outside start (start + cnt) grad gh.1 /\
    same_outside start (start + cnt) hess gh.2).
  change (P (grad', hess')).
  eapply (for_range_preserves P); [ | | exact Hrun];
    [split; apply same_outside_refl | ].
  clear Hrun. intros i [g h] [g' h'] Hi HP Hrank.
  unfold rank_step in Hrank.
  apply bind_Ok in Hrank as (high & Hhigh & Hrank).
  apply bind_Ok in Hrank as (gain_high & _ & Hrank).
  apply bind_Ok in Hrank as (score_high & _ & Hrank).
  assert (Hhr : (0 <= high < cnt)%Z)
    by (apply (argsort_range _ _ _ _ i _ Hsort); [lia | exact Hhigh]).
  eapply (for_range_preserves P); [ | | exact Hrank]; [exact HP | ].
  intros j [g1 h1] [g2 h2] Hj [HPg HPh] Hpair. cbn in HPg, HPh.
  destruct (pair_step_frame start (start + cnt)%Z _ _ _ _ _ _ _ _ _ _ _ Hpair)
    as [Hg Hh]; [lia | |].
  - intros low Hlow.
    assert (0 <= low < cnt)%Z
      by (apply (argsort_range _ _ _ _ j _ Hsort); [lia | exact Hlow]).
    lia.
  - split; cbn; eapply same_outside_trans; eassumption.
Qed.

Lemma one_query_frame (grad hess grad' hess' : list D) :
  (start <= end_)%Z ->
  one_query' grad hess = Ok (grad', hess') ->
  same_outside start end_ grad grad' /\ same_outside start end_ hess hess'.
Proof.
  intros Hse Hrun.
  destruct (one_query_frame_cnt _ _ _ _ Hrun) as [Hg Hh].
  pose proof (cast_int_le (end_ - start) ltac:(lia)) as Hcnt.
  split; apply (same_outside_weaken start (start + cast_int (end_ - start)));
    [lia | lia | exact Hg | lia | lia | exact Hh].
Qed.

(** A query none of whose pairs qualifies leaves both arrays as they are. *)
Lemma one_query_no_pair (grad hess grad' hess' : list D) :
  (forall x, d_ltb x x = false) ->
  (start <= end_)%Z ->
  (forall k k', start <= k < end_ -> start <= k' < end_ -> rd gains k = rd gains k')%Z ->
  one_query' grad hess = Ok (grad', hess') ->
  grad' = grad /\ hess' = hess.
Proof.
  intros Hirr Hse Hsame. unfold get_gradients_for_one_query.
  pose proof (cast_int_le (end_ - start) ltac:(lia)) as Hcnt.
  set (cnt := cast_int (end_ - start)) in *. intros Hrun.
  apply bind_Ok in Hrun as (data & Hdata & Hrun).
  apply bind_Ok in Hrun as (sorted_idx & Hsort & Hrun).
  apply bind_Ok in Hrun as (i_best & _ & Hrun).
  apply bind_Ok in Hrun as (best_score & _ & Hrun).
  apply bind_Ok in Hrun as (i_worst & _ & Hrun).
  apply bind_Ok in Hrun as (worst_score & _ & Hrun).
  enough (Heq : (grad', hess') = (grad, hess)) by (injection Heq; auto).
  eapply (for_range_preserves (fun gh => gh = (grad, hess))); [ | | exact Hrun];
    [reflexivity | ].
  clear Hrun. intros i gh [g' h'] Hi -> Hrank.
  unfold rank_step in Hrank.
  apply bind_Ok in Hrank as (high & Hhigh & Hrank).
  apply bind_Ok in Hrank as (gain_high & Hgh & Hrank).
  apply bind_Ok in Hrank as (score_high & _ & Hrank).
  assert (Hhr : (0 <= high < cnt)%Z)
    by (apply (argsort_range _ _ _ _ i _ Hsort); [lia | exact Hhigh]).
  eapply (for_range_preserves (fun gh => gh = (grad, hess))); [ | | exact Hrank];
    [reflexivity | ].
  intros j gh [g2 h2] Hj -> Hpair.
  apply pair_step_Ok in Hpair as (low & gain_low & score_low & Hlow & Hgl & _ & Hrest).
  assert (Hlr : (0 <= low < cnt)%Z)
    by (apply (argsort_range _ _ _ _ j _ Hsort); [lia | exact Hlow]).
  rewrite (Hsame (start + low)%Z (start + high)%Z) in Hgl by lia.
  assert (gain_low = gain_high) as -> by congruence.
  rewrite Hirr in Hrest. destruct Hrest as [-> ->]. reflexivity.
Qed.

End OneQueryFacts.

(** *** Success of the per-query computation *)

Lemma add_at_total (a : list D) (i : Z) (v : D) :
  (0 <= i < Z.of_nat (length a))%Z ->
  exists a', add_at a i v = Ok a' /\ length a' = length a.
Proof.
  intros Hi. destruct (rd_in_range a i Hi) as [x Hx].
  exists (<[Z.to_nat i := x + v]> a). split; [|apply length_insert].
  apply add_at_Ok. eauto.
Qed.

Lemma sub_at_total (a : list D) (i : Z) (v : D) :
  (0 <= i < Z.of_nat (length a))%Z ->
  exists a', sub_at a i v = Ok a' /\ length a' = length a.
Proof.
  intros Hi. destruct (rd_in_range a i Hi) as [x Hx].
  exists (<[Z.to_nat i := x - v]> a). split; [|apply length_insert].
  apply sub_at_Ok. eauto.
Qed.

Section OneQueryTotal.
Variables (gains preds : list D) (start end_ : Z)
          (discounts : list D) (inverse_max_dcg : D)
          (sigmoid_table : list D) (n_sigmoid_bins : Z)
          (min_sigmoid_arg max_sigmoid_arg sigmoid_idx_factor : D).
Variables (n : Z).
Hypothesis Hstart : (0 <= start)%Z.
Hypothesis Hgains : (start + n <= Z.of_nat (length gains))%Z.
Hypothesis Hpreds : (start + n <= Z.of_nat (length preds))%Z.
Hypothesis Hdiscounts : (n < Z.of_nat (length discounts))%Z.
Hypothesis Hsigmoid :
  lookups_succeed gains preds start (start + n) sigmoid_table n_sigmoid_bins
    min_sigmoid_arg max_sigmoid_arg sigmoid_idx_factor.

Lemma pair_step_total (sorted_idx : list Z) (should_adjust : bool)
    (i high : Z) (gain_high score_high : D) (j low : Z) (grad hess : list D) :
  (start + n <= Z.of_nat (length grad))%Z ->
  (start + n <= Z.of_nat (length hess))%Z ->
  (0 <= i < n)%Z -> (0 <= j < n)%Z -> (0 <= high < n)%Z -> (0 <= low < n)%Z ->
  rd gains (start + high)%Z = Ok gain_high ->
  rd preds (start + high)%Z = Ok score_high ->
  rd sorted_idx j = Ok low ->
  exists grad' hess',
    pair_step gains preds start discounts inverse_max_dcg sigmoid_table
      n_sigmoid_bins min_sigmoid_arg max_sigmoid_arg sigmoid_idx_factor
      sorted_idx should_adjust i high gain_high score_high j (grad, hess)
      = Ok (grad', hess') /\
    length grad' = length grad /\ length hess' = length hess.
Proof.
  intros Hgrad Hhess Hi Hj Hhigh Hlow Hgh Hsh Hrd.
  destruct (rd_in_range gains (start + low)%Z ltac:(lia)) as [gain_low Hgl].
  destruct (rd_in_range preds (start + low)%Z ltac:(lia)) as [score_low Hsl].
  destruct (d_ltb gain_low gain_high) eqn:Hcmp.
  - assert (Hkh : (start <= start + high < start + n)%Z) by lia.
    assert (Hkl : (start <= start + low < start + n)%Z) by lia.
    destruct (Hsigmoid _ _ _ _ _ _ Hkh Hkl Hgh Hgl Hsh Hsl Hcmp) as [p Hp].
    destruct (rd_in_range discounts (1 + j)%Z ltac:(lia)) as [d_j Hdj].
    destruct (rd_in_range discounts (1 + i)%Z ltac:(lia)) as [d_i Hdi].
    set (delta := delta_ndcg should_adjust gain_high gain_low score_high
                    score_low d_i d_j inverse_max_dcg).
    destruct (add_at_total grad (start + high)%Z (lambda_of p delta) ltac:(lia))
      as (g1 & Hg1 & Hl1).
    destruct (add_at_total hess (start + high)%Z (hess_term_of p delta) ltac:(lia))
      as (h1 & Hh1 & Hl2).
    destruct (sub_at_total g1 (start + low)%Z (lambda_of p delta) ltac:(lia))
      as (g2 & Hg2 & Hl3).
    destruct (add_at_total h1 (start + low)%Z (hess_term_of p delta) ltac:(lia))
      as (h2 & Hh2 & Hl4).
    exists g2, h2. split; [|split; congruence].
    apply pair_step_Ok. exists low, gain_low, score_low.
    repeat (split; [assumption|]). rewrite Hcmp.
    exists p, d_j, d_i, g1, h1. repeat (split; [assumption|]). assumption.
  - exists grad, hess. split; [|split; reflexivity].
    apply pair_step_Ok. exists low, gain_low, score_low.
    repeat (split; [assumption|]). rewrite Hcmp. auto.
Qed.

(** A query of [n >= 1] documents, [n] an [int], whose cells exist in every
    array, is computed to the end. *)
Lemma one_query_total (grad hess : list D) :
  (1 <= n <= INT_MAX)%Z -> end_ = (start + n)%Z ->
  (start + n <= Z.of_nat (length grad))%Z ->
  (start + n <= Z.of_nat (length hess))%Z ->
  exists grad' hess',
    get_gradients_for_one_query gains preds start end_ discounts
      inverse_max_dcg sigmoid_table n_sigmoid_bins min_sigmoid_arg
      max_sigmoid_arg sigmoid_idx_factor grad hess = Ok (grad', hess') /\
    length grad' = length grad /\ length hess' = length hess.
Proof.
  intros Hn -> Hgrad Hhess. unfold get_gradients_for_one_query.
  replace (start + n - start)%Z with n by lia.
  rewrite cast_int_id by (unfold INT_MIN, INT_MAX in *; lia).
  unfold offset. destruct (decide _) as [_|Hbad]; [|lia]. cbn.
  set (data := drop (Z.to_nat start) preds).
  set (sorted_idx := (index <$> stable_sort cmp (indexed (take (Z.to_nat n) data)))
                       ++ drop (Z.to_nat n) (malloc_int n)).
  assert (Hsort : argsort data (malloc_int n) n = Ok sorted_idx).
  { apply argsort_Ok. unfold data, malloc_int.
    rewrite length_drop, length_replicate. repeat split; lia. }
  rewrite Hsort. cbn.
  assert (Hlen : length sorted_idx = Z.to_nat n).
  { destruct (argsort_Permutation _ _ _ _ Hsort) as [_ ->].
    unfold malloc_int. apply length_replicate. }
  assert (Hidx : forall i, (0 <= i < n)%Z -> exists x, rd sorted_idx i = Ok x /\ (0 <= x < n)%Z).
  { intros i Hi. destruct (rd_in_range sorted_idx i ltac:(lia)) as [x Hx].
    exists x. split; [exact Hx|].
    apply (argsort_range _ _ _ _ i _ Hsort); [lia | exact Hx]. }
  destruct (Hidx 0%Z ltac:(lia)) as (i_best & -> & Hb). cbn.
  destruct (rd_in_range preds (start + i_best)%Z ltac:(lia)) as [best_score ->]. cbn.
  destruct (Hidx (n - 1)%Z ltac:(lia)) as (i_worst & -> & Hw). cbn.
  destruct (rd_in_range preds (start + i_worst)%Z ltac:(lia)) as [worst_score ->]. cbn.
  set (should_adjust := negb (d_eqb best_score worst_score)).
  pose (P := fun gh : list D * list D =>
    length gh.1 = length grad /\ length gh.2 = length hess).
  destruct (for_range_total (fun _ => P)
              (rank_step gains preds start discounts inverse_max_dcg sigmoid_table
                 n_sigmoid_bins min_sigmoid_arg max_sigmoid_arg sigmoid_idx_factor
                 sorted_idx should_adjust n) n (grad, hess))
    as ([g' h'] & Hrun & Hg' & Hh'); [lia | split; reflexivity | | eauto].
  intros i [g h] Hi [Hg Hh]. cbn in Hg, Hh. unfold rank_step.
  destruct (Hidx i Hi) as (high & -> & Hhigh). cbn.
  destruct (rd_in_range gains (start + high)%Z ltac:(lia)) as [gain_high Hgh].
  destruct (rd_in_range preds (start + high)%Z ltac:(lia)) as [score_high Hsh].
  rewrite Hgh, Hsh. cbn.
  apply (for_range_total (fun _ => P)); [lia | split; assumption | ].
  intros j [g1 h1] Hj [Hg1 Hh1]. cbn in Hg1, Hh1.
  destruct (Hidx j Hj) as (low & Hlow & Hlr).
  destruct (pair_step_total sorted_idx should_adjust i high gain_high score_high
              j low g1 h1) as (g2 & h2 & Hstep & Hg2 & Hh2); try lia;
    [exact Hgh | exact Hsh | exact Hlow|].
  exists (g2, h2). split; [exact Hstep|]. split; cbn; congruence.
Qed.

End OneQueryTotal.

Lemma get_gradients_Ok (gains preds : list D) (n_preds : Z)
    (groups query_boundaries : list Z) (n_queries : Z)
    (discounts inverse_max_dcgs sigmoid_table : list D) (n_sigmoid_bins : Z)
    (min_sigmoid_arg max_sigmoid_arg sigmoid_idx_factor : D)
    (grad hess : list D) (r : list D * list D) :
  get_gradients gains preds n_preds groups query_boundaries n_queries discounts
    inverse_max_dcgs sigmoid_table n_sigmoid_bins min_sigmoid_arg max_sigmoid_arg
    sigmoid_idx_factor grad hess = Ok r <->
  (gains <> [] /\ preds <> [] /\ groups <> [] /\ query_boundaries <> [] /\
   discounts <> [] /\ inverse_max_dcgs <> [] /\ sigmoid_table <> [] /\
   grad <> [] /\ hess <> []) /\
  _get_gradients gains preds n_preds groups query_boundaries n_queries discounts
    inverse_max_dcgs sigmoid_table n_sigmoid_bins min_sigmoid_arg max_sigmoid_arg
    sigmoid_idx_factor grad hess = Ok r.
Proof.
  unfold get_gradients.
  destruct gains, preds, groups, query_boundaries, discounts, inverse_max_dcgs,
    sigmoid_table, grad, hess; cbn;
    try (split; [discriminate | intros [(? & ? & ? & ? & ? & ? & ? & ? & ?) _]; congruence]).
  split; [intros Hrun; split; [repeat split; discriminate | exact Hrun] | intros [_ Hrun]; exact Hrun].
Qed.

Lemma memset_zero_Ok (a : list D) (n : Z) (a' : list D) :
  memset_zero a n = Ok a' ->
  length a' = length a /\ (0 <= n <= Z.of_nat (length a))%Z /\
  (forall k, 0 <= k < n -> rd a' k = Ok lit_0)%Z /\
  (forall k, n <= k -> rd a' k = rd a k)%Z.
Proof.
  unfold memset_zero. destruct (decide _) as [Hn|Hn]; [|discriminate].
  intros [= <-]. repeat split; try lia.
  - rewrite length_app, length_replicate, length_drop. lia.
  - intros k Hk. apply rd_Ok. split; [lia|].
    rewrite lookup_app_l by (rewrite length_replicate; lia).
    apply lookup_replicate_2. lia.
  - intros k Hk. unfold rd. destruct (decide (0 <= k)%Z); [|reflexivity].
    rewrite lookup_app_r by (rewrite length_replicate; lia).
    rewrite length_replicate, lookup_drop.
    replace (Z.to_nat n + (Z.to_nat k - Z.to_nat n))%nat with (Z.to_nat k) by lia.
    reflexivity.
Qed.

(** An invariant of the loop over the queries: it holds once the two arrays
    are zeroed and every query keeps it. *)
Lemma _get_gradients_inv (P : list D * list D -> Prop)
    (gains preds : list D) (n_preds : Z)
    (groups query_boundaries : list Z) (n_queries : Z)
    (discounts inverse_max_dcgs sigmoid_table : list D) (n_sigmoid_bins : Z)
    (min_sigmoid_arg max_sigmoid_arg sigmoid_idx_factor : D)
    (grad hess : list D) (r : list D * list D) :
  _get_gradients gains preds n_preds groups query_boundaries n_queries discounts
    inverse_max_dcgs sigmoid_table n_sigmoid_bins min_sigmoid_arg max_sigmoid_arg
    sigmoid_idx_factor grad hess = Ok r ->
  (forall g0 h0, memset_zero grad n_preds = Ok g0 ->
                 memset_zero hess n_preds = Ok h0 -> P (g0, h0)) ->
  (forall j s e inv g h g' h',
     (0 <= j < n_queries)%Z ->
     rd query_boundaries j = Ok s ->
     rd query_boundaries (j + 1)%Z = Ok e ->
     rd inverse_max_dcgs j = Ok inv ->
     P (g, h) ->
     get_gradients_for_one_query gains preds s e discounts inv sigmoid_table
       n_sigmoid_bins min_sigmoid_arg max_sigmoid_arg sigmoid_idx_factor g h
       = Ok (g', h') ->
     P (g', h')) ->
  P r.
Proof.
  unfold _get_gradients. intros Hrun Hinit Hstep.
  apply bind_Ok in Hrun as (g0 & Hg0 & Hrun).
  apply bind_Ok in Hrun as (h0 & Hh0 & Hrun).
  eapply (for_range_preserves P); [ | | exact Hrun]; [exact (Hinit _ _ Hg0 Hh0) | ].
  intros j [g h] [g' h'] Hj HP Hbody. cbn in Hbody.
  apply bind_Ok in Hbody as (s & Hs & Hbody).
  apply bind_Ok in Hbody as (e & He & Hbody).
  apply bind_Ok in Hbody as (inv & Hinv & Hbody).
  exact (Hstep j s e inv g h g' h' Hj Hs He Hinv HP Hbody).
Qed.

(** The loop over the queries runs to its end on arrays that fit together,
    when the sigmoid lookups of every query succeed. *)
Lemma _get_gradients_total (gains preds : list D) (n_preds : Z)
    (groups query_boundaries : list Z) (n_queries : Z)
    (discounts inverse_max_dcgs sigmoid_table : list D) (n_sigmoid_bins : Z)
    (min_sigmoid_arg max_sigmoid_arg sigmoid_idx_factor : D)
    (grad hess : list D) :
  kernel_input_ok gains preds n_preds query_boundaries n_queries discounts
    inverse_max_dcgs grad hess ->
  all_lookups_succeed gains preds query_boundaries n_queries sigmoid_table
    n_sigmoid_bins min_sigmoid_arg max_sigmoid_arg sigmoid_idx_factor ->
  exists grad' hess',
    _get_gradients gains preds n_preds groups query_boundaries n_queries discounts
      inverse_max_dcgs sigmoid_table n_sigmoid_bins min_sigmoid_arg max_sigmoid_arg
      sigmoid_idx_factor grad hess = Ok (grad', hess') /\
    length grad' = length grad /\ length hess' = length hess.
Proof.
  intros (Hn0 & Hgrad & Hhess & Hgains & Hpreds & Hq & Hqueries) Hsigmoid.
  unfold _get_gradients.
  destruct (memset_zero grad n_preds) as [g0|] eqn:Hg0;
    [|unfold memset_zero in Hg0; destruct (decide _); [discriminate | lia]].
  destruct (memset_zero hess n_preds) as [h0|] eqn:Hh0;
    [|unfold memset_zero in Hh0; destruct (decide _); [discriminate | lia]].
  apply memset_zero_Ok in Hg0 as (Hlg & _). apply memset_zero_Ok in Hh0 as (Hlh & _).
  cbn.
  pose (P := fun gh : list D * list D =>
    length gh.1 = length grad /\ length gh.2 = length hess).
  match goal with |- exists _ _, for_range _ ?body _ = _ /\ _ =>
    destruct (for_range_total (fun _ => P) body n_queries (g0, h0))
      as ([g' h'] & Hrun & Hg' & Hh'); [lia | split; assumption | | eauto]
  end.
  intros j [g h] Hj [Hg Hh]. cbn in Hg, Hh. cbn.
  destruct (Hqueries j Hj) as (s & e & Hqs & Hqe & Hs & Hse & He & Hint & Hdisc).
  pose proof (Hsigmoid j s e Hj Hqs Hqe) as Hlookups.
  replace e with (s + (e - s))%Z in Hlookups at 1 by lia.
  rewrite Hqs, Hqe. cbn.
  destruct (rd_in_range inverse_max_dcgs j ltac:(lia)) as [inv ->]. cbn.
  destruct (one_query_total gains preds s e discounts inv sigmoid_table
              n_sigmoid_bins min_sigmoid_arg max_sigmoid_arg sigmoid_idx_factor
              (e - s)%Z ltac:(lia) ltac:(lia) ltac:(lia) ltac:(lia) Hlookups g h)
    as (g2 & h2 & Hone & Hg2 & Hh2); try lia.
  exists (g2, h2). split; [exact Hone|]. split; cbn; congruence.
Qed.

Lemma _get_gradients_length (gains preds : list D) (n_preds : Z)
    (groups query_boundaries : list Z) (n_queries : Z)
    (discounts inverse_max_dcgs sigmoid_table : list D) (n_sigmoid_bins : Z)
    (min_sigmoid_arg max_sigmoid_arg sigmoid_idx_factor : D)
    (grad hess grad' hess' : list D) :
  _get_gradients gains preds n_preds groups query_boundaries n_queries discounts
    inverse_max_dcgs sigmoid_table n_sigmoid_bins min_sigmoid_arg max_sigmoid_arg
    sigmoid_idx_factor grad hess = Ok (grad', hess') ->
  length grad' = length grad /\ length hess' = length hess.
Proof.
  intros Hrun.
  pose (P := fun gh : list D * list D =>
    length gh.1 = length grad /\ length gh.2 = length hess).
  change (P (grad', hess')).
  apply (_get_gradients_inv P _ _ _ _ _ _ _ _ _ _ _ _ _ _ _ _ Hrun); unfold P; cbn.
  - intros g0 h0 (Hg & _)%memset_zero_Ok (Hh & _)%memset_zero_Ok. auto.
  - intros j s e inv g h g' h' _ _ _ _ [Hg Hh] Hone.
    destruct (one_query_frame_cnt _ _ _ _ _ _ _ _ _ _ _ _ _ _ _ Hone)
      as [[Hg' _] [Hh' _]].
    split; congruence.
Qed.

End KernelFacts.

(** ** Two queries in either order

    The loop over the queries is a [prange]: its iterations may run in any
    order.  Here two iterations on ranges that do not meet are exchanged. *)

Lemma for_range_sim {S T} (R : S -> T -> Prop)
    (body : Z -> S -> result S) (body' : Z -> T -> result T) (n : Z) (s s' : S) (t : T) :
  R s t ->
  (forall i u u' v, 0 <= i < n -> R u v -> body i u = Ok u' ->
     exists v', body' i v = Ok v' /\ R u' v') ->
  for_range n body s = Ok s' ->
  exists t', for_range n body' t = Ok t' /\ R s' t'.
Proof.
  intros HR Hstep. destruct (Z.le_gt_cases 0 n) as [Hn|Hn].
  - revert s' Hstep. pattern n. apply natlike_ind; [ | | exact Hn]; clear n Hn.
    + intros s' _ Hrun. rewrite for_range_nonpos in Hrun by lia.
      rewrite for_range_nonpos by lia. injection Hrun as <-. eauto.
    + intros n Hn IH s' Hstep Hrun. unfold Z.succ in *.
      rewrite for_range_succ in Hrun by lia. rewrite for_range_succ by lia.
      apply bind_Ok in Hrun as (u & Hu & Hbody).
      destruct (IH u) as (v & Hv & HRuv); [intros; eapply Hstep; eauto; lia | exact Hu |].
      destruct (Hstep n u s' v ltac:(lia) HRuv Hbody) as (v' & Hv' & HR').
      exists v'. rewrite Hv. cbn. auto.
  - intros Hrun. rewrite for_range_nonpos in Hrun by lia.
    rewrite for_range_nonpos by lia. injection Hrun as <-. eauto.
Qed.

Lemma list_eq_rd {A} (a b : list A) :
  length a = length b -> (forall k, 0 <= k -> rd a k = rd b k) -> a = b.
Proof.
  intros Hlen Hrd. apply list_eq. intros i.
  specialize (Hrd (Z.of_nat i) ltac:(lia)).
  apply rd_eq_lookup in Hrd; [|lia]. rewrite Nat2Z.id in Hrd. exact Hrd.
Qed.

Section Exchange.
Context `{Double D}.

Lemma agree_inside_insert (lo hi : Z) (a b : list D) (i : nat) (v : D) :
  agree_inside lo hi a b -> agree_inside lo hi (<[i := v]> a) (<[i := v]> b).
Proof.
  intros [Hlen Hin]. split; [rewrite !length_insert; exact Hlen|].
  intros k Hk. specialize (Hin k Hk). unfold rd in *.
  destruct (decide (0 <= k)); [|reflexivity].
  destruct (decide (i = Z.to_nat k)) as [->|Hne].
  - destruct (decide (Z.to_nat k < length a)%nat) as [Hlt|Hge].
    + rewrite !list_lookup_insert_eq by lia. reflexivity.
    + rewrite !list_insert_ge by lia. exact Hin.
  - rewrite !list_lookup_insert_ne by exact Hne. exact Hin.
Qed.

Lemma add_at_sim (lo hi : Z) (a b a' : list D) (i : Z) (v : D) :
  add_at a i v = Ok a' -> agree_inside lo hi a b -> lo <= i < hi ->
  exists b', add_at b i v = Ok b' /\ agree_inside lo hi a' b'.
Proof.
  intros (x & Hx & ->)%add_at_Ok Hab Hi.
  exists (<[Z.to_nat i := (x + v)%D]> b). split.
  - apply add_at_Ok. exists x. split; [|reflexivity].
    destruct Hab as [_ Hin]. rewrite <- (Hin i Hi). exact Hx.
  - apply agree_inside_insert. exact Hab.
Qed.

Lemma sub_at_sim (lo hi : Z) (a b a' : list D) (i : Z) (v : D) :
  sub_at a i v = Ok a' -> agree_inside lo hi a b -> lo <= i < hi ->
  exists b', sub_at b i v = Ok b' /\ agree_inside lo hi a' b'.
Proof.
  intros (x & Hx & ->)%sub_at_Ok Hab Hi.
  exists (<[Z.to_nat i := (x - v)%D]> b). split.
  - apply sub_at_Ok. exists x. split; [|reflexivity].
    destruct Hab as [_ Hin]. rewrite <- (Hin i Hi). exact Hx.
  - apply agree_inside_insert. exact Hab.
Qed.

Section OneQuerySim.
Variables (gains preds : list D) (start end_ : Z)
          (discounts : list D) (inverse_max_dcg : D)
          (sigmoid_table : list D) (n_sigmoid_bins : Z)
          (min_sigmoid_arg max_sigmoid_arg sigmoid_idx_factor : D).

Local Abbreviation pair_step' := (pair_step gains preds start discounts inverse_max_dcg
  sigmoid_table n_sigmoid_bins min_sigmoid_arg max_sigmoid_arg sigmoid_idx_factor).
Local Abbreviation one_query' := (get_gradients_for_one_query gains preds start end_
  discounts inverse_max_dcg sigmoid_table n_sigmoid_bins min_sigmoid_arg
  max_sigmoid_arg sigmoid_idx_factor).

Lemma pair_step_sim (lo hi : Z) (sorted_idx : list Z) (should_adjust : bool)
    (i high : Z) (gain_high score_high : D) (j : Z) (gh gh' gh2 : list D * list D) :
  pair_step' sorted_idx should_adjust i high gain_high score_high j gh = Ok gh' ->
  agree2 lo hi gh gh2 ->
  lo <= start + high < hi ->
  (forall low, rd sorted_idx j = Ok low -> lo <= start + low < hi) ->
  exists gh2',
    pair_step' sorted_idx should_adjust i high gain_high score_high j gh2 = Ok gh2' /\
    agree2 lo hi gh' gh2'.
Proof.
  destruct gh as [g h], gh' as [g' h'], gh2 as [g2 h2].
  intros (low & gain_low & score_low & Hlow & Hgl & Hsl & Hrest)%pair_step_Ok
    [Hg Hh] Hhigh Hin. cbn in Hg, Hh.
  specialize (Hin low Hlow).
  destruct (d_ltb gain_low gain_high) eqn:Hcmp.
  - destruct Hrest as (p & d_j & d_i & g1 & h1 & Hp & Hdj & Hdi & Hg1 & Hh1 & Hg2 & Hh2).
    destruct (add_at_sim lo hi _ _ _ _ _ Hg1 Hg Hhigh) as (g1' & Hg1' & Hag1).
    destruct (add_at_sim lo hi _ _ _ _ _ Hh1 Hh Hhigh) as (h1' & Hh1' & Hah1).
    destruct (sub_at_sim lo hi _ _ _ _ _ Hg2 Hag1 Hin) as (g2' & Hg2' & Hag2).
    destruct (add_at_sim lo hi _ _ _ _ _ Hh2 Hah1 Hin) as (h2' & Hh2' & Hah2).
    exists (g2', h2'). split; [|split; assumption].
    apply pair_step_Ok. exists low, gain_low, score_low.
    repeat (split; [assumption|]). rewrite Hcmp.
    exists p, d_j, d_i, g1', h1'. repeat (split; [assumption|]). assumption.
  - destruct Hrest as [-> ->]. exists (g2, h2). split; [|split; assumption].
    apply pair_step_Ok. exists low, gain_low, score_low.
    repeat (split; [assumption|]). rewrite Hcmp. auto.
Qed.

(** What a query leaves in its cells depends on what it found there only. *)
Lemma one_query_sim (gh gh' gh2 : list D * list D) :
  one_query' gh.1 gh.2 = Ok gh' ->
  agree2 start (start + cast_int (end_ - start)) gh gh2 ->
  exists gh2',
    one_query' gh2.1 gh2.2 = Ok gh2' /\
    agree2 start (start + cast_int (end_ - start)) gh' gh2'.
Proof.
  unfold get_gradients_for_one_query.
  set (cnt := cast_int (end_ - start)). intros Hrun Hagree.
  apply bind_Ok in Hrun as (data & Hdata & Hrun). rewrite Hdata. cbn.
  apply bind_Ok in Hrun as (sorted_idx & Hsort & Hrun). rewrite Hsort. cbn.
  apply bind_Ok in Hrun as (i_best & Hib & Hrun). rewrite Hib. cbn.
  apply bind_Ok in Hrun as (best_score & Hbs & Hrun). rewrite Hbs. cbn.
  apply bind_Ok in Hrun as (i_worst & Hiw & Hrun). rewrite Hiw. cbn.
  apply bind_Ok in Hrun as (worst_score & Hws & Hrun). rewrite Hws. cbn.
  destruct gh as [g h], gh2 as [g2 h2]. cbn in Hrun |- *.
  eapply (for_range_sim (agree2 start (start + cnt))); [exact Hagree | | exact Hrun].
  intros i u u' v Hi Huv Hrank. unfold rank_step in Hrank |- *.
  apply bind_Ok in Hrank as (high & Hhigh & Hrank). rewrite Hhigh. cbn.
  apply bind_Ok in Hrank as (gain_high & Hgh & Hrank). rewrite Hgh. cbn.
  apply bind_Ok in Hrank as (score_high & Hsh & Hrank). rewrite Hsh. cbn.
  assert (Hhr : 0 <= high < cnt)
    by (apply (argsort_range _ _ _ _ i _ Hsort); [lia | exact Hhigh]).
  eapply (for_range_sim (agree2 start (start + cnt))); [exact Huv | | exact Hrank].
  intros j w w' x Hj Hwx Hpair.
  apply (pair_step_sim start (start + cnt) _ _ _ _ _ _ _ _ _ _ Hpair Hwx); [lia|].
  intros low Hlow.
  assert (0 <= low < cnt)
    by (apply (argsort_range _ _ _ _ j _ Hsort); [lia | exact Hlow]).
  lia.
Qed.

End OneQuerySim.

End Exchange.

(** ** Exact arithmetic: the sigmoid lookup *)

Section SigmoidQ.
Local Open Scope Q_scope.

Lemma Q_leb_true (x y : Q) : d_leb x y = true <-> x <= y.
Proof. apply Qle_bool_iff. Qed.

Lemma Q_leb_false (x y : Q) : d_leb x y = false <-> y < x.
Proof.
  cbn. rewrite <- not_true_iff_false, Qle_bool_iff. split.
  - apply Qnot_le_lt.
  - apply Qlt_not_le.
Qed.

Lemma Q_ltb_true (x y : Q) : d_ltb x y = true <-> x < y.
Proof. cbn. rewrite negb_true_iff. apply Q_leb_false. Qed.

Lemma Q_ltb_false (x y : Q) : d_ltb x y = false <-> y <= x.
Proof. cbn. rewrite negb_false_iff. apply Qle_bool_iff. Qed.

Lemma Q_ltb_irrefl (x : Q) : d_ltb x x = false.
Proof. apply Q_ltb_false, Qle_refl. Qed.

(** The same holds of the doubles of the machine, a NaN included. *)
Lemma float_ltb_irrefl (x : float) : d_ltb x x = false.
Proof.
  cbn. rewrite ltb_spec. unfold SFltb, SFcompare.
  destruct (Prim2SF x) as [s|s| |s m e]; try reflexivity.
  - destruct s; reflexivity.
  - destruct s; rewrite Z.compare_refl, Pos.compare_cont_refl; reflexivity.
Qed.

(** The cast to [int] truncates toward zero; on a number that is not negative
    that is the floor. *)
Lemma Qtrunc_floor (q : Q) : 0 <= q -> Qtrunc q = Qfloor q.
Proof.
  destruct q as [n d]. unfold Qle, Qtrunc, Qfloor. cbn. intros Hn.
  apply Z.quot_div_nonneg; lia.
Qed.

Lemma Qfloor_nonneg (q : Q) : 0 <= q -> (0 <= Qfloor q)%Z.
Proof. intros Hq. apply (Qfloor_resp_le 0 q Hq). Qed.

Lemma Qfloor_lt (q : Q) (n : Z) : q < inject_Z n -> (Qfloor q < n)%Z.
Proof.
  intros Hq. rewrite Zlt_Qlt.
  apply Qle_lt_trans with (y := q); [apply Qfloor_le | exact Hq].
Qed.

(** The three cases of the lookup. *)
Lemma get_sigmoid_low (score : Q) (table : list Q) (n : Z) (lo hi factor : Q) :
  score <= lo -> get_sigmoid score table n lo hi factor = rd table 0%Z.
Proof. intros Hs. unfold get_sigmoid. apply Q_leb_true in Hs. rewrite Hs. reflexivity. Qed.

Lemma get_sigmoid_high (score : Q) (table : list Q) (n : Z) (lo hi factor : Q) :
  lo < score -> hi <= score ->
  get_sigmoid score table n lo hi factor = rd table (n - 1)%Z.
Proof.
  intros Hl Hh. unfold get_sigmoid.
  apply Q_leb_false in Hl. apply Q_leb_true in Hh. rewrite Hl, Hh. reflexivity.
Qed.

Lemma get_sigmoid_middle (score : Q) (table : list Q) (n : Z) (lo hi factor : Q) :
  lo < score -> score < hi -> 0 <= factor ->
  (Qfloor ((score - lo) * factor) <= INT_MAX)%Z ->
  get_sigmoid score table n lo hi factor
    = rd table (Qfloor ((score - lo) * factor)).
Proof.
  intros Hl Hh Hf Hmax. unfold get_sigmoid.
  pose proof Hl as Hl'. pose proof Hh as Hh'.
  apply Q_leb_false in Hl'. apply Q_leb_false in Hh'. rewrite Hl', Hh'.
  assert (Hx : 0 <= (score - lo) * factor).
  { apply Qmult_le_0_compat; [|exact Hf]. lra. }
  unfold double_to_int. cbn -[Qtrunc INT_MIN INT_MAX].
  rewrite (Qtrunc_floor _ Hx).
  pose proof (Qfloor_nonneg _ Hx) as H0.
  destruct (decide _) as [_|Hbad]; [reflexivity|].
  unfold INT_MIN in Hbad. lia.
Qed.

(** Between the bounds, with the scale factor of the data model, the product
    that is cast lies in [0, n_sigmoid_bins). *)
Lemma middle_index_bounds (score lo hi factor : Q) (n : Z) :
  lo < score -> score < hi -> (1 <= n)%Z -> factor == inject_Z n / (hi - lo) ->
  0 <= factor /\ (0 <= Qfloor ((score - lo) * factor) < n)%Z.
Proof.
  intros Hl Hh Hn Hfactor.
  assert (Hn1 : 1 <= inject_Z n)
    by (change 1 with (inject_Z 1); rewrite <- Zle_Qle; lia).
  assert (Hfb : factor * (hi - lo) == inject_Z n) by (rewrite Hfactor; field; lra).
  assert (Hf0 : 0 <= factor) by nra.
  assert (Hx0 : 0 <= (score - lo) * factor) by nra.
  assert (Hxn : (score - lo) * factor < inject_Z n) by nra.
  pose proof (Qfloor_nonneg _ Hx0). pose proof (Qfloor_lt _ _ Hxn).
  split; [exact Hf0 | lia].
Qed.

(** On a table of [n_sigmoid_bins] entries every lookup succeeds. *)
Lemma get_sigmoid_total (table : list Q) (n : Z) (lo hi factor : Q) :
  lo < hi -> (1 <= n <= INT_MAX)%Z -> factor == inject_Z n / (hi - lo) ->
  Z.of_nat (length table) = n ->
  forall score, is_Ok (get_sigmoid score table n lo hi factor).
Proof.
  intros Hlohi Hn Hfactor Hlen score.
  destruct (Qlt_le_dec lo score) as [Hl|Hl];
    [destruct (Qlt_le_dec score hi) as [Hh|Hh]|].
  - destruct (middle_index_bounds score lo hi factor n Hl Hh ltac:(lia) Hfactor)
      as [Hf0 Hk].
    rewrite get_sigmoid_middle by (assumption || lia).
    apply rd_in_range. lia.
  - rewrite get_sigmoid_high by assumption. apply rd_in_range. lia.
  - rewrite get_sigmoid_low by assumption. apply rd_in_range. lia.
Qed.

End SigmoidQ.

(** ** Exact arithmetic: the stable descending sort *)

Lemma StronglySorted_lookup {A} (R : relation A) (l : list A) :
  StronglySorted R l <->
  forall (i j : nat) x y, (i < j)%nat -> l !! i = Some x -> l !! j = Some y -> R x y.
Proof.
  induction l as [|a l IH].
  - split; [intros _ i j x y _ Hx; discriminate Hx | constructor].
  - rewrite StronglySorted_cons, IH, Forall_lookup. split.
    + intros [Ha Hl] [|i] [|j] x y Hij Hx Hy; try lia; cbn in Hx, Hy.
      * injection Hx as <-. exact (Ha j y Hy).
      * apply (Hl i j x y); [lia | exact Hx | exact Hy].
    + intros Hall. split.
      * intros j y Hy. apply (Hall 0%nat (S j) a y); [lia | reflexivity | exact Hy].
      * intros i j x y Hij Hx Hy. apply (Hall (S i) (S j) x y); [lia | exact Hx | exact Hy].
Qed.

Lemma boundaries_sorted_of_sorted (query_boundaries : list Z) (n : Z) :
  StronglySorted Z.le query_boundaries -> boundaries_sorted query_boundaries n.
Proof.
  intros Hs j k s e Hjk Hk [_ Hj]%rd_Ok [_ Hk']%rd_Ok.
  destruct (decide (j = k)) as [->|Hne]; [assert (s = e) by congruence; lia|].
  rewrite StronglySorted_lookup in Hs.
  apply (Hs (Z.to_nat j) (Z.to_nat k)); [lia | exact Hj | exact Hk'].
Qed.

Section SortQ.

Lemma before_trans (a b c : IndexedElement Q) : before a b -> before b c -> before a c.
Proof.
  unfold before. intros [Hab|[Hab Hiab]] [Hbc|[Hbc Hibc]].
  - left. lra.
  - left. lra.
  - left. lra.
  - right. split; [lra | lia].
Qed.

Lemma before_asym (a b : IndexedElement Q) : before a b -> before b a -> False.
Proof. unfold before. intros [Hab|[Hab Hiab]] [Hba|[Hba Hiba]]; try lra; lia. Qed.

Lemma cmp_true (a b : IndexedElement Q) : cmp a b = true <-> (value b < value a)%Q.
Proof. unfold cmp. apply Q_ltb_true. Qed.

Lemma cmp_false (a b : IndexedElement Q) : cmp a b = false <-> (value a <= value b)%Q.
Proof. unfold cmp. apply Q_ltb_false. Qed.

(** Inserting an element whose index is below all the others keeps the
    arrangement. *)
Lemma insert_before_sorted (x : IndexedElement Q) (l : list (IndexedElement Q)) :
  StronglySorted before l -> Forall (index_lt x) l ->
  StronglySorted before (insert_before cmp x l).
Proof.
  induction 1 as [|y l Hl IH Hy]; intros Hx; cbn [insert_before].
  - repeat constructor.
  - apply Forall_cons in Hx as [Hxy Hxl].
    destruct (cmp y x) eqn:Hc.
    + apply cmp_true in Hc. constructor; [apply IH; exact Hxl|].
      rewrite insert_before_Permutation. constructor; [left; exact Hc | exact Hy].
    + apply cmp_false in Hc.
      assert (Hbxy : before x y).
      { destruct (Qlt_le_dec (value y) (value x)) as [Hlt|Hle].
        - left. exact Hlt.
        - right. split; [lra | exact Hxy]. }
      constructor; [constructor; assumption|].
      constructor; [exact Hbxy|].
      eapply Forall_impl; [exact Hy|]. intros z Hz. exact (before_trans _ _ _ Hbxy Hz).
Qed.

Lemma stable_sort_sorted (l : list (IndexedElement Q)) :
  StronglySorted index_lt l -> StronglySorted before (stable_sort cmp l).
Proof.
  induction 1 as [|x l Hl IH Hx]; cbn; [constructor|].
  apply insert_before_sorted; [exact IH|].
  rewrite stable_sort_Permutation. exact Hx.
Qed.

Lemma indexed_increasing (data : list Q) : StronglySorted index_lt (indexed data).
Proof.
  apply StronglySorted_lookup. intros i j x y Hij Hx Hy.
  rewrite indexed_lookup in Hx, Hy.
  destruct (data !! i); [|discriminate]. destruct (data !! j); [|discriminate].
  injection Hx as <-. injection Hy as <-. unfold index_lt. cbn. lia.
Qed.

(** An element of the sorted array carries the value the input has at its
    index. *)
Lemma sorted_elem_value (data : list Q) (e : IndexedElement Q) :
  e ∈ stable_sort cmp (indexed data) ->
  0 <= index e /\ data !! Z.to_nat (index e) = Some (value e).
Proof.
  rewrite stable_sort_Permutation. intros [i Hi]%list_elem_of_lookup.
  rewrite indexed_lookup in Hi.
  destruct (data !! i) as [v|] eqn:Hv; [|discriminate]. injection Hi as <-. cbn.
  rewrite Nat2Z.id. split; [lia | exact Hv].
Qed.

(** An input that does not increase is left in its order. *)
Lemma stable_sort_descending (data : list Q) :
  (forall (p q : nat) vp vq, (p < q)%nat -> data !! p = Some vp -> data !! q = Some vq ->
     (vq <= vp)%Q) ->
  stable_sort cmp (indexed data) = indexed data.
Proof.
  intros Hdesc. apply (StronglySorted_unique_strong before).
  - intros a b _ _ Hab Hba. destruct (before_asym a b Hab Hba).
  - apply stable_sort_sorted, indexed_increasing.
  - apply StronglySorted_lookup. intros i j x y Hij Hx Hy.
    rewrite indexed_lookup in Hx, Hy.
    destruct (data !! i) as [vi|] eqn:Hvi; [|discriminate].
    destruct (data !! j) as [vj|] eqn:Hvj; [|discriminate].
    injection Hx as <-. injection Hy as <-.
    pose proof (Hdesc i j vi vj Hij Hvi Hvj) as Hle. unfold before. cbn.
    destruct (Qlt_le_dec vj vi) as [Hlt|Hge]; [left; exact Hlt|].
    right. split; [lra | lia].
  - apply stable_sort_Permutation.
Qed.

End SortQ.

(** ** Exact arithmetic: the gradients of a query sum to zero *)

Section SumQ.
Local Open Scope Q_scope.

Lemma sum_Q_cons (x : Q) (l : list Q) : sum_Q (x :: l) = x + sum_Q l.
Proof. reflexivity. Qed.

Lemma sum_Q_app (l1 l2 : list Q) : sum_Q (l1 ++ l2) == sum_Q l1 + sum_Q l2.
Proof.
  induction l1 as [|x l1 IH].
  - change (sum_Q l2 == 0 + sum_Q l2). lra.
  - change (x + sum_Q (l1 ++ l2) == x + sum_Q l1 + sum_Q l2). lra.
Qed.

Lemma sum_Q_insert (l : list Q) (i : nat) (x y : Q) :
  l !! i = Some x -> sum_Q (<[i := y]> l) == sum_Q l - x + y.
Proof.
  revert i. induction l as [|a l IH]; intros [|i] Hx; try discriminate.
  - injection Hx as ->. change (y + sum_Q l == x + sum_Q l - x + y). lra.
  - change (a + sum_Q (<[i := y]> l) == a + sum_Q l - x + y).
    rewrite (IH i Hx). lra.
Qed.

Lemma sum_Q_zeros (l : list Q) : Forall (fun x => x = 0%Q) l -> (sum_Q l == 0)%Q.
Proof.
  induction 1 as [|x l -> _ IH]; [reflexivity|].
  rewrite sum_Q_cons, IH. lra.
Qed.

Lemma slice_lookup {A} (lo hi : Z) (a : list A) (k : nat) :
  (0 <= lo)%Z -> (Z.of_nat k < hi - lo)%Z ->
  slice lo hi a !! k = a !! (Z.to_nat lo + k)%nat.
Proof.
  intros Hlo Hk. unfold slice. rewrite lookup_take_lt by lia. apply lookup_drop.
Qed.

Lemma slice_insert {A} (lo hi : Z) (a : list A) (i : Z) (y : A) :
  (0 <= lo)%Z -> (lo <= i < hi)%Z ->
  slice lo hi (<[Z.to_nat i := y]> a) = <[Z.to_nat (i - lo) := y]> (slice lo hi a).
Proof.
  intros Hlo Hi. unfold slice.
  rewrite drop_insert_ge by lia. rewrite take_insert_lt by lia.
  f_equal. lia.
Qed.

Lemma slice_app {A} (lo mid hi : Z) (a : list A) :
  (0 <= lo <= mid)%Z -> (mid <= hi)%Z ->
  slice lo hi a = slice lo mid a ++ slice mid hi a.
Proof.
  intros Hlo Hhi. unfold slice.
  replace (Z.to_nat mid) with (Z.to_nat lo + Z.to_nat (mid - lo))%nat by lia.
  rewrite <- drop_drop, take_take_drop. f_equal. lia.
Qed.

(** Two arrays that agree outside a range have the same cells in a range
    that does not meet it. *)
Lemma same_outside_slice (lo hi s e : Z) (a a' : list Q) :
  same_outside lo hi a a' -> (0 <= s)%Z -> (e <= lo \/ hi <= s)%Z ->
  slice s e a' = slice s e a.
Proof.
  intros [Hlen Hout] Hs Hdisj. apply list_eq. intros k.
  destruct (decide (Z.of_nat k < e - s)%Z) as [Hk|Hk].
  - rewrite !slice_lookup by lia.
    replace (Z.to_nat s + k)%nat with (Z.to_nat (s + Z.of_nat k)) by lia.
    apply rd_eq_lookup; [lia|]. apply Hout. lia.
  - unfold slice. rewrite !lookup_take_ge by lia. reflexivity.
Qed.

Lemma sum_Q_slice_insert (s e : Z) (a : list Q) (i : Z) (x y : Q) :
  (0 <= s)%Z -> (s <= i < e)%Z -> rd a i = Ok x ->
  sum_Q (slice s e (<[Z.to_nat i := y]> a)) == sum_Q (slice s e a) - x + y.
Proof.
  intros Hs Hi [_ Hx]%rd_Ok. rewrite slice_insert by lia.
  apply sum_Q_insert. rewrite slice_lookup by lia.
  replace (Z.to_nat s + Z.to_nat (i - s))%nat with (Z.to_nat i) by lia. exact Hx.
Qed.

Section OneQuerySum.
Variables (gains preds : list Q) (start end_ : Z)
          (discounts : list Q) (inverse_max_dcg : Q)
          (sigmoid_table : list Q) (n_sigmoid_bins : Z)
          (min_sigmoid_arg max_sigmoid_arg sigmoid_idx_factor : Q).

(** What a pair adds to the gradient of one document it takes from the
    other. *)
Lemma pair_step_sum (s e : Z) (sorted_idx : list Z) (should_adjust : bool)
    (i high : Z) (gain_high score_high : Q) (j : Z) (grad hess grad' hess' : list Q) :
  pair_step gains preds start discounts inverse_max_dcg sigmoid_table
    n_sigmoid_bins min_sigmoid_arg max_sigmoid_arg sigmoid_idx_factor
    sorted_idx should_adjust i high gain_high score_high j (grad, hess)
    = Ok (grad', hess') ->
  (0 <= s)%Z -> (s <= start + high < e)%Z ->
  (forall low, rd sorted_idx j = Ok low -> s <= start + low < e)%Z ->
  sum_Q (slice s e grad') == sum_Q (slice s e grad).
Proof.
  intros (low & gain_low & score_low & Hlow & _ & _ & Hrest)%pair_step_Ok Hs Hhigh Hin.
  specialize (Hin low Hlow).
  destruct (d_ltb gain_low gain_high).
  - destruct Hrest as (p & d_j & d_i & g1 & h1 & _ & _ & _ & Hg1 & _ & Hg2 & _).
    apply add_at_Ok in Hg1 as (x & Hx & ->).
    apply sub_at_Ok in Hg2 as (x' & Hx' & ->).
    rewrite (sum_Q_slice_insert s e _ _ x' _ Hs Hin Hx').
    rewrite (sum_Q_slice_insert s e _ _ x _ Hs Hhigh Hx).
    change d_add with Qplus. change d_sub with Qminus. lra.
  - destruct Hrest as [-> _]. reflexivity.
Qed.

Lemma one_query_sum (grad hess grad' hess' : list Q) :
  (0 <= start <= end_)%Z ->
  get_gradients_for_one_query gains preds start end_ discounts inverse_max_dcg
    sigmoid_table n_sigmoid_bins min_sigmoid_arg max_sigmoid_arg
    sigmoid_idx_factor grad hess = Ok (grad', hess') ->
  sum_Q (slice start end_ grad') == sum_Q (slice start end_ grad).
Proof.
  intros Hse. unfold get_gradients_for_one_query.
  pose proof (cast_int_le (end_ - start) ltac:(lia)) as Hcnt.
  set (cnt := cast_int (end_ - start)) in *. intros Hrun.
  apply bind_Ok in Hrun as (data & Hdata & Hrun).
  apply bind_Ok in Hrun as (sorted_idx & Hsort & Hrun).
  apply bind_Ok in Hrun as (i_best & _ & Hrun).
  apply bind_Ok in Hrun as (best_score & _ & Hrun).
  apply bind_Ok in Hrun as (i_worst & _ & Hrun).
  apply bind_Ok in Hrun as (worst_score & _ & Hrun).
  pose (P := fun gh : list Q * list Q =>
    sum_Q (slice start end_ gh.1) == sum_Q (slice start end_ grad)).
  change (P (grad', hess')).
  eapply (for_range_preserves P); [ | | exact Hrun]; [unfold P; reflexivity | ].
  clear Hrun. intros i [g h] [g' h'] Hi HP Hrank.
  unfold rank_step in Hrank.
  apply bind_Ok in Hrank as (high & Hhigh & Hrank).
  apply bind_Ok in Hrank as (gain_high & _ & Hrank).
  apply bind_Ok in Hrank as (score_high & _ & Hrank).
  assert (Hhr : (0 <= high < cnt)%Z)
    by (apply (argsort_range _ _ _ _ i _ Hsort); [lia | exact Hhigh]).
  eapply (for_range_preserves P); [ | | exact Hrank]; [exact HP | ].
  intros j [g1 h1] [g2 h2] Hj HP1 Hpair. unfold P in *. cbn in *.
  rewrite <- HP1.
  apply (pair_step_sum start end_ _ _ _ _ _ _ _ _ _ _ _ Hpair); [lia | lia |].
  intros low Hlow.
  assert (0 <= low < cnt)%Z
    by (apply (argsort_range _ _ _ _ j _ Hsort); [lia | exact Hlow]).
  lia.
Qed.

End OneQuerySum.

End SumQ.

(** ** The objective callbacks *)

Section NotebookFacts.
Context `{Double D}.
Variables MIN_SIGMOID_ARG MAX_SIGMOID_ARG : D.

Lemma np_zeros_length (n : nat) : length (np_zeros n) = n.
Proof. apply length_replicate. Qed.

Lemma len_nil {A} (l : list A) : len l = 0 <-> l = [].
Proof. unfold len. destruct l; cbn; split; (discriminate || lia || reflexivity). Qed.

(** The single-objective computation returns what the kernel leaves in two
    arrays of the length of the predictions, and only for groups that are not
    empty. *)
Lemma get_grad_hess_Ok (labels preds : list D) (groups : list Z) (c : Calculator)
    (grad hess : list D) :
  get_grad_hess MIN_SIGMOID_ARG MAX_SIGMOID_ARG labels preds groups c = Ok (grad, hess) ->
  groups <> [] /\ length grad = length preds /\ length hess = length preds.
Proof.
  unfold get_grad_hess.
  intros [(_ & _ & Hgroups & _) Hrun]%get_gradients_Ok.
  apply _get_gradients_length in Hrun as [Hg Hh].
  rewrite np_zeros_length in Hg, Hh. auto.
Qed.

Lemma get_grad_hess_total (labels preds : list D) (groups : list Z) (c : Calculator) :
  objective_input_ok MIN_SIGMOID_ARG MAX_SIGMOID_ARG labels preds groups c ->
  exists grad hess,
    get_grad_hess MIN_SIGMOID_ARG MAX_SIGMOID_ARG labels preds groups c = Ok (grad, hess).
Proof.
  intros (Hgroups & Hlabels & Hpreds & Hqb & Hdisc & Hinv & Hsig & Hok & Hlookup).
  destruct (_get_gradients_total labels preds (len preds) groups (query_boundaries c)
              (len (query_boundaries c) - 1) (discounts c) (inverse_max_dcgs c)
              (sigmoids c) (len (sigmoids c)) MIN_SIGMOID_ARG MAX_SIGMOID_ARG
              (sigmoid_idx_factor c) (np_zeros (length preds)) (np_zeros (length preds))
              Hok Hlookup) as (grad & hess & Hrun & _).
  exists grad, hess. unfold get_grad_hess. apply get_gradients_Ok.
  split; [|exact Hrun].
  assert (Hz : np_zeros (length preds) <> []).
  { intros Hz. apply (f_equal length) in Hz. rewrite np_zeros_length in Hz.
    destruct preds; [congruence | discriminate]. }
  repeat split; assumption.
Qed.

End NotebookFacts.

(** ** The kernel as the accumulation of its pairs *)

Lemma run_iterate {S} (body : Z -> S -> result S) (ks : list Z) (s s' : S) :
  iterate body ks s = Ok s' <-> run (fun k t t' => body k t = Ok t') ks s s'.
Proof.
  revert s. induction ks as [|k ks IH]; intros s; cbn.
  - split; [intros [= <-]; constructor | inversion 1; reflexivity].
  - rewrite bind_Ok. split.
    + intros (t & Ht & Hrun). econstructor; [exact Ht | apply IH; exact Hrun].
    + inversion 1; subst. eexists. split; [eassumption | apply IH; assumption].
Qed.

Lemma run_impl {X S} (R R' : X -> S -> S -> Prop) (xs : list X) (s s' : S) :
  (forall x t t', x ∈ xs -> R x t t' -> R' x t t') ->
  run R xs s s' -> run R' xs s s'.
Proof.
  intros Himpl Hrun. induction Hrun as [s|x xs s t t' Hx Hxs IH]; [constructor|].
  econstructor.
  - apply Himpl; [left | exact Hx].
  - apply IH. intros y u u' Hy. apply Himpl. right. exact Hy.
Qed.

Lemma run_nil_inv {X S} (R : X -> S -> S -> Prop) (s s' : S) :
  run R [] s s' <-> s' = s.
Proof. split; [inversion 1; reflexivity | intros ->; constructor]. Qed.

Lemma run_cons_inv {X S} (R : X -> S -> S -> Prop) (x : X) (xs : list X) (s s'' : S) :
  run R (x :: xs) s s'' <-> exists s', R x s s' /\ run R xs s' s''.
Proof.
  split.
  - inversion 1; subst. eauto.
  - intros (s' & Hx & Hxs). econstructor; eassumption.
Qed.

Lemma run_app {X S} (R : X -> S -> S -> Prop) (xs ys : list X) (s s'' : S) :
  run R (xs ++ ys) s s'' <-> exists s', run R xs s s' /\ run R ys s' s''.
Proof.
  revert s. induction xs as [|x xs IH]; intros s; cbn.
  - split.
    + intros Hr. exists s. split; [constructor | exact Hr].
    + intros (s' & ->%run_nil_inv & Hr). exact Hr.
  - rewrite run_cons_inv. split.
    + intros (t & Hx & (t' & Hxs & Hys)%IH).
      exists t'. split; [econstructor; eassumption | exact Hys].
    + intros (t' & (t & Hx & Hxs)%run_cons_inv & Hys).
      exists t. split; [exact Hx | apply IH; eauto].
Qed.

Lemma run_pairs {S} (R : Z * Z -> S -> S -> Prop) (rows cols : list Z) (s s' : S) :
  run (fun i t t' => run (fun j => R (i, j)) cols t t') rows s s' <->
  run R (i ← rows; j ← cols; [(i, j)]) s s'.
Proof.
  assert (Hrow : forall i t t',
    run (fun j => R (i, j)) cols t t' <-> run R (j ← cols; [(i, j)]) t t').
  { intros i. induction cols as [|j cols IHc]; intros t t'; cbn.
    - rewrite !run_nil_inv. reflexivity.
    - rewrite !run_cons_inv. setoid_rewrite IHc. reflexivity. }
  revert s. induction rows as [|i rows IH]; intros s; cbn.
  - rewrite !run_nil_inv. reflexivity.
  - rewrite run_app, run_cons_inv. setoid_rewrite IH. setoid_rewrite Hrow. reflexivity.
Qed.

Lemma alter_insert {A} (f : A -> A) (l : list A) (n : nat) (x : A) :
  l !! n = Some x -> alter f n l = <[n := f x]> l.
Proof.
  revert n. induction l as [|y l IH]; intros [|n]; cbn; try discriminate.
  - intros [= ->]. reflexivity.
  - intros Hn. f_equal. apply IH. exact Hn.
Qed.

Lemma rd_alter_same {A} (f : A -> A) (a : list A) (i : Z) (x : A) :
  rd a i = Ok x -> rd (alter f (Z.to_nat i) a) i = Ok (f x).
Proof.
  intros [Hi Hx]%rd_Ok. apply rd_Ok. split; [exact Hi|].
  rewrite list_lookup_alter, decide_True by reflexivity. rewrite Hx. reflexivity.
Qed.

Lemma rd_alter_ne {A} (f : A -> A) (a : list A) (i k : Z) :
  0 <= i -> k <> i -> rd (alter f (Z.to_nat i) a) k = rd a k.
Proof.
  intros Hi Hk. unfold rd. destruct (decide (0 <= k)); [|reflexivity].
  rewrite list_lookup_alter_ne by lia. reflexivity.
Qed.

Section AccumulationFacts.
Context `{Double D}.
Local Open Scope double_scope.

Lemma add_at_alter (a : list D) (i : Z) (v : D) (a' : list D) :
  add_at a i v = Ok a' <->
  (0 <= i < len a)%Z /\ a' = alter (fun x => x + v) (Z.to_nat i) a.
Proof.
  rewrite add_at_Ok. split.
  - intros (x & Hx & ->). split; [exact (rd_range _ _ _ Hx)|].
    apply rd_Ok in Hx as [_ Hx]. symmetry.
    apply (alter_insert (fun x => x + v)). exact Hx.
  - intros [Hi ->]. destruct (rd_in_range a i Hi) as [x Hx].
    exists x. split; [exact Hx|]. apply rd_Ok in Hx as [_ Hx].
    apply (alter_insert (fun x => x + v)). exact Hx.
Qed.

Lemma sub_at_alter (a : list D) (i : Z) (v : D) (a' : list D) :
  sub_at a i v = Ok a' <->
  (0 <= i < len a)%Z /\ a' = alter (fun x => x - v) (Z.to_nat i) a.
Proof.
  rewrite sub_at_Ok. split.
  - intros (x & Hx & ->). split; [exact (rd_range _ _ _ Hx)|].
    apply rd_Ok in Hx as [_ Hx]. symmetry.
    apply (alter_insert (fun x => x - v)). exact Hx.
  - intros [Hi ->]. destruct (rd_in_range a i Hi) as [x Hx].
    exists x. split; [exact Hx|]. apply rd_Ok in Hx as [_ Hx].
    apply (alter_insert (fun x => x - v)). exact Hx.
Qed.

Lemma len_alter (f : D -> D) (n : nat) (a : list D) : len (alter f n a) = len a.
Proof. unfold len. rewrite length_alter. reflexivity. Qed.

(** The cells after the accumulation of a pair of two documents. *)
Lemma accumulate_cells (high low : Z) (lambda hess_term : D)
    (gh : list D * list D) (g_high g_low h_high h_low : D) :
  high <> low ->
  rd gh.1 high = Ok g_high -> rd gh.1 low = Ok g_low ->
  rd gh.2 high = Ok h_high -> rd gh.2 low = Ok h_low ->
  let gh' := accumulate high low lambda hess_term gh in
  rd gh'.1 high = Ok (g_high + lambda)%D /\
  rd gh'.1 low = Ok (g_low - lambda)%D /\
  rd gh'.2 high = Ok (h_high + hess_term)%D /\
  rd gh'.2 low = Ok (h_low + hess_term)%D /\
  forall k, k <> high -> k <> low ->
    rd gh'.1 k = rd gh.1 k /\ rd gh'.2 k = rd gh.2 k.
Proof.
  intros Hne Hg1 Hg2 Hh1 Hh2. cbn.
  pose proof (rd_range _ _ _ Hg1) as Hr1. pose proof (rd_range _ _ _ Hg2) as Hr2.
  repeat split.
  - rewrite rd_alter_ne by lia. apply (rd_alter_same (fun g => g + lambda)%D). exact Hg1.
  - apply (rd_alter_same (fun g => g - lambda)%D).
    rewrite rd_alter_ne by lia. exact Hg2.
  - rewrite rd_alter_ne by lia.
    apply (rd_alter_same (fun h => h + hess_term)%D). exact Hh1.
  - apply (rd_alter_same (fun h => h + hess_term)%D).
    rewrite rd_alter_ne by lia. exact Hh2.
  - rewrite !rd_alter_ne by lia. reflexivity.
  - rewrite !rd_alter_ne by lia. reflexivity.
Qed.

Section OneQueryPairs.
Variables (gains preds : list D) (start end_ : Z)
          (discounts : list D) (inverse_max_dcg : D)
          (sigmoid_table : list D) (n_sigmoid_bins : Z)
          (min_sigmoid_arg max_sigmoid_arg sigmoid_idx_factor : D).

Local Abbreviation pair_step' := (pair_step gains preds start discounts inverse_max_dcg
  sigmoid_table n_sigmoid_bins min_sigmoid_arg max_sigmoid_arg sigmoid_idx_factor).
Local Abbreviation rank_step' := (rank_step gains preds start discounts inverse_max_dcg
  sigmoid_table n_sigmoid_bins min_sigmoid_arg max_sigmoid_arg sigmoid_idx_factor).
Local Abbreviation pair_accumulated' := (pair_accumulated gains preds start discounts
  inverse_max_dcg sigmoid_table n_sigmoid_bins min_sigmoid_arg max_sigmoid_arg
  sigmoid_idx_factor).

(** The body of the inner loop is the accumulation of its pair. *)
Lemma pair_step_accumulated (sorted_idx : list Z) (should_adjust : bool)
    (i high : Z) (gain_high score_high : D) (j : Z) (gh gh' : list D * list D) :
  rd sorted_idx i = Ok high ->
  rd gains (start + high)%Z = Ok gain_high ->
  rd preds (start + high)%Z = Ok score_high ->
  pair_step' sorted_idx should_adjust i high gain_high score_high j gh = Ok gh' <->
  pair_accumulated' sorted_idx should_adjust (i, j) gh gh'.
Proof.
  intros Hhigh Hgh Hsh. destruct gh as [grad hess], gh' as [grad' hess'].
  rewrite pair_step_Ok. unfold pair_accumulated. cbn [fst snd]. split.
  - intros (low & gain_low & score_low & Hlow & Hgl & Hsl & Hrest).
    exists high, low, gain_high, gain_low, score_high, score_low.
    repeat (split; [assumption|]).
    destruct (d_ltb gain_low gain_high); [|destruct Hrest as [-> ->]; reflexivity].
    destruct Hrest as (p & d_j & d_i & g1 & h1 & Hp & Hdj & Hdi & Hg1 & Hh1 & Hg2 & Hh2).
    cbv zeta in Hg1, Hh1, Hg2, Hh2.
    apply add_at_alter in Hg1 as [Hr1 ->]. apply add_at_alter in Hh1 as [Hr2 ->].
    apply sub_at_alter in Hg2 as [Hr3 ->]. apply add_at_alter in Hh2 as [Hr4 ->].
    rewrite len_alter in Hr3, Hr4.
    exists p, d_i, d_j. repeat (split; [assumption|]). reflexivity.
  - intros (high' & low & gain_high' & gain_low & score_high' & score_low
            & Hhigh' & Hlow & Hgh' & Hgl & Hsh' & Hsl & Hrest).
    assert (high' = high) as -> by congruence.
    assert (gain_high' = gain_high) as -> by congruence.
    assert (score_high' = score_high) as -> by congruence.
    exists low, gain_low, score_low. repeat (split; [assumption|]).
    destruct (d_ltb gain_low gain_high); [|injection Hrest as -> ->; auto].
    destruct Hrest as (p & d_i & d_j & Hp & Hdi & Hdj & Hr1 & Hr3 & Hr2 & Hr4 & Heq).
    cbv zeta in Heq. unfold accumulate in Heq. cbn [fst snd] in Heq.
    injection Heq as -> ->.
    exists p, d_j, d_i. do 2 eexists.
    repeat (split; [eassumption|]). cbv zeta.
    split; [apply add_at_alter; eauto|]. split; [apply add_at_alter; eauto|].
    split; [apply sub_at_alter; rewrite len_alter; eauto
           | apply add_at_alter; rewrite len_alter; eauto].
Qed.

(** The body of the outer loop is the accumulation of the pairs of its rank. *)
Lemma rank_step_accumulated (sorted_idx : list Z) (should_adjust : bool) (cnt i : Z)
    (gh gh' : list D * list D) :
  (1 <= cnt)%Z ->
  rank_step' sorted_idx should_adjust cnt i gh = Ok gh' <->
  run (fun j => pair_accumulated' sorted_idx should_adjust (i, j)) (seqZ 0 cnt) gh gh'.
Proof.
  intros Hcnt. unfold rank_step, for_range. split.
  - intros Hrun.
    apply bind_Ok in Hrun as (high & Hhigh & Hrun).
    apply bind_Ok in Hrun as (gain_high & Hgh & Hrun).
    apply bind_Ok in Hrun as (score_high & Hsh & Hrun).
    apply run_iterate in Hrun. revert Hrun. apply run_impl. intros j t t' _.
    apply pair_step_accumulated; assumption.
  - intros Hrun.
    assert (Hreads : exists high gain_high score_high,
              rd sorted_idx i = Ok high /\ rd gains (start + high)%Z = Ok gain_high /\
              rd preds (start + high)%Z = Ok score_high).
    { rewrite seqZ_cons in Hrun by lia.
      apply run_cons_inv in Hrun as (t & Hpair & _).
      destruct Hpair as (high & _ & gain_high & _ & score_high & _
                         & Hhigh & _ & Hgh & _ & Hsh & _).
      cbn [fst] in Hhigh. exists high, gain_high, score_high. auto. }
    destruct Hreads as (high & gain_high & score_high & Hhigh & Hgh & Hsh).
    rewrite (bind_Ok_l _ _ _ Hhigh), (bind_Ok_l _ _ _ Hgh), (bind_Ok_l _ _ _ Hsh).
    apply run_iterate. revert Hrun. apply run_impl. intros j t t' _.
    apply pair_step_accumulated; assumption.
Qed.

End OneQueryPairs.
End AccumulationFacts.

Section KernelPairs.
Context `{Double D}.

(** The per-query computation is the accumulation of the pairs of the
    query. *)
Lemma one_query_accumulated (gains preds : list D) (start end_ : Z)
    (discounts : list D) (inverse_max_dcg : D)
    (sigmoid_table : list D) (n_sigmoid_bins : Z)
    (min_sigmoid_arg max_sigmoid_arg sigmoid_idx_factor : D)
    (gh gh' : list D * list D) :
  get_gradients_for_one_query gains preds start end_ discounts inverse_max_dcg
    sigmoid_table n_sigmoid_bins min_sigmoid_arg max_sigmoid_arg sigmoid_idx_factor
    gh.1 gh.2 = Ok gh' <->
  let cnt := cast_int (end_ - start) in
  exists sorted_idx i_best i_worst best_score worst_score,
    0 <= start <= len preds /\
    argsort (drop (Z.to_nat start) preds) (malloc_int cnt) cnt = Ok sorted_idx /\
    sorted_idx ≡ₚ seqZ 0 cnt /\
    rd sorted_idx 0 = Ok i_best /\ rd preds (start + i_best) = Ok best_score /\
    rd sorted_idx (cnt - 1) = Ok i_worst /\ rd preds (start + i_worst) = Ok worst_score /\
    run (pair_accumulated gains preds start discounts inverse_max_dcg sigmoid_table
           n_sigmoid_bins min_sigmoid_arg max_sigmoid_arg sigmoid_idx_factor
           sorted_idx (negb (d_eqb best_score worst_score)))
        (rank_pairs cnt) gh gh'.
Proof.
  unfold get_gradients_for_one_query. set (cnt := cast_int (end_ - start)). cbv zeta.
  assert (Hperm : forall sorted_idx,
    argsort (drop (Z.to_nat start) preds) (malloc_int cnt) cnt = Ok sorted_idx ->
    sorted_idx ≡ₚ seqZ 0 cnt).
  { intros sorted_idx Hsort.
    destruct (argsort_Permutation _ _ _ _ Hsort) as [Hp Hlen].
    unfold malloc_int in Hlen. rewrite length_replicate in Hlen.
    rewrite take_ge in Hp by lia. exact Hp. }
  assert (Hloops : forall sorted_idx should_adjust i_best,
    rd sorted_idx 0 = Ok i_best -> sorted_idx ≡ₚ seqZ 0 cnt ->
    for_range cnt (rank_step gains preds start discounts inverse_max_dcg sigmoid_table
                     n_sigmoid_bins min_sigmoid_arg max_sigmoid_arg sigmoid_idx_factor
                     sorted_idx should_adjust cnt) (gh.1, gh.2) = Ok gh' <->
    run (pair_accumulated gains preds start discounts inverse_max_dcg sigmoid_table
           n_sigmoid_bins min_sigmoid_arg max_sigmoid_arg sigmoid_idx_factor
           sorted_idx should_adjust) (rank_pairs cnt) gh gh').
  { intros sorted_idx should_adjust i_best Hbest Hp.
    assert (Hcnt : 1 <= cnt).
    { apply rd_range in Hbest. apply Permutation_length in Hp.
      rewrite length_seqZ in Hp. lia. }
    unfold for_range, rank_pairs. rewrite <- run_pairs, run_iterate.
    rewrite <- surjective_pairing.
    split; apply run_impl; intros i t t' _; apply rank_step_accumulated; exact Hcnt. }
  split.
  - intros Hrun.
    apply bind_Ok in Hrun as (data & Hdata & Hrun).
    unfold offset in Hdata. destruct (decide _) as [Hstart|]; [|discriminate].
    injection Hdata as <-.
    apply bind_Ok in Hrun as (sorted_idx & Hsort & Hrun).
    apply bind_Ok in Hrun as (i_best & Hbest & Hrun).
    apply bind_Ok in Hrun as (best_score & Hbs & Hrun).
    apply bind_Ok in Hrun as (i_worst & Hworst & Hrun).
    apply bind_Ok in Hrun as (worst_score & Hws & Hrun).
    exists sorted_idx, i_best, i_worst, best_score, worst_score.
    pose proof (Hperm _ Hsort) as Hp.
    repeat (split; [assumption|]).
    apply (Hloops _ _ _ Hbest Hp). exact Hrun.
  - intros (sorted_idx & i_best & i_worst & best_score & worst_score
            & Hstart & Hsort & Hp & Hbest & Hbs & Hworst & Hws & Hrun).
    unfold offset. rewrite decide_True by exact Hstart.
    rewrite (bind_Ok_l _ _ _ eq_refl), (bind_Ok_l _ _ _ Hsort).
    rewrite (bind_Ok_l _ _ _ Hbest), (bind_Ok_l _ _ _ Hbs).
    rewrite (bind_Ok_l _ _ _ Hworst), (bind_Ok_l _ _ _ Hws).
    apply (Hloops _ _ _ Hbest Hp). exact Hrun.
Qed.

End KernelPairs.

Lemma query_step_accumulated `{Double D} (gains preds : list D)
    (query_boundaries : list Z) (discounts inverse_max_dcgs sigmoid_table : list D)
    (n_sigmoid_bins : Z) (min_sigmoid_arg max_sigmoid_arg sigmoid_idx_factor : D)
    (i : Z) (gh gh' : list D * list D) :
  (let '(grad, hess) := gh in
   start ← rd query_boundaries i;
   end_ ← rd query_boundaries (i + 1);
   inverse_max_dcg ← rd inverse_max_dcgs i;
   get_gradients_for_one_query gains preds start end_ discounts inverse_max_dcg
     sigmoid_table n_sigmoid_bins min_sigmoid_arg max_sigmoid_arg
     sigmoid_idx_factor grad hess) = Ok gh' <->
  query_accumulated gains preds query_boundaries discounts inverse_max_dcgs
    sigmoid_table n_sigmoid_bins min_sigmoid_arg max_sigmoid_arg sigmoid_idx_factor
    i gh gh'.
Proof.
  unfold query_accumulated. destruct gh as [grad hess]. split.
  - intros Hrun.
    apply bind_Ok in Hrun as (start & Hs & Hrun).
    apply bind_Ok in Hrun as (end_ & He & Hrun).
    apply bind_Ok in Hrun as (inv & Hinv & Hrun).
    apply (one_query_accumulated _ _ _ _ _ _ _ _ _ _ _ (grad, hess)) in Hrun
      as (sorted_idx & i_best & i_worst & best_score & worst_score & Hrest).
    exists start, end_, inv, sorted_idx, i_best, i_worst, best_score, worst_score.
    repeat (split; [assumption|]). exact Hrest.
  - intros (start & end_ & inv & sorted_idx & i_best & i_worst & best_score
            & worst_score & Hs & He & Hinv & Hrest).
    rewrite (bind_Ok_l _ _ _ Hs), (bind_Ok_l _ _ _ He), (bind_Ok_l _ _ _ Hinv).
    apply (one_query_accumulated _ _ _ _ _ _ _ _ _ _ _ (grad, hess)).
    exists sorted_idx, i_best, i_worst, best_score, worst_score. exact Hrest.
Qed.

(** * The claims *)

(** ** The contribution of one pair *)

(** C1, as the code has it.  A call of the kernel returns the two arrays
    [grad'] and [hess'] exactly when no array is empty, the first [n_preds]
    cells of the two output arrays are zeroed, and the queries [0 ..
    n_queries-1] then change the arrays one after the other as follows.  The
    documents of a query are sorted by their scores, [should_adjust] holds
    unless the scores at the first and at the last rank are equal, and every
    ordered pair of ranks [(i, j)] is taken, with [high] and [low] the
    documents at the two ranks.  When the gain of [high] is not greater than
    that of [low] the pair changes nothing.  When it is greater, the pair adds
    [lambda] to the gradient of [high], subtracts it from the gradient of
    [low] and adds [hess_term] to both Hessians, where
    [delta_ndcg = (gain_high - gain_low) * |d_j - d_i| * inverse_max_dcg],
    divided by [0.01 + |score_high - score_low|] exactly when [should_adjust],
    [lambda = p * - delta_ndcg] and [hess_term = p * (2 - p) * (2 * delta_ndcg)],
    with [p] the sigmoid looked up at the score difference, [inverse_max_dcg]
    the normalizer of the query, and [d_i] and [d_j] the entries of the discount
    table at [1 + i] and [1 + j]: one past the ranks. *)
Theorem pair_contribution `{Double D}
    (gains preds : list D) (n_preds : Z)
    (groups query_boundaries : list Z) (n_queries : Z)
    (discounts inverse_max_dcgs sigmoid_table : list D) (n_sigmoid_bins : Z)
    (min_sigmoid_arg max_sigmoid_arg sigmoid_idx_factor : D)
    (grad hess grad' hess' : list D) :
  get_gradients gains preds n_preds groups query_boundaries n_queries discounts
    inverse_max_dcgs sigmoid_table n_sigmoid_bins min_sigmoid_arg max_sigmoid_arg
    sigmoid_idx_factor grad hess = Ok (grad', hess') <->
  (gains <> [] /\ preds <> [] /\ groups <> [] /\ query_boundaries <> [] /\
   discounts <> [] /\ inverse_max_dcgs <> [] /\ sigmoid_table <> [] /\
   grad <> [] /\ hess <> []) /\
  exists grad_0 hess_0,
    memset_zero grad n_preds = Ok grad_0 /\
    memset_zero hess n_preds = Ok hess_0 /\
    run (query_accumulated gains preds query_boundaries discounts inverse_max_dcgs
           sigmoid_table n_sigmoid_bins min_sigmoid_arg max_sigmoid_arg
           sigmoid_idx_factor)
        (seqZ 0 n_queries) (grad_0, hess_0) (grad', hess').
Proof.
  rewrite get_gradients_Ok. unfold _get_gradients, for_range.
  split; intros [Hne Hrun]; (split; [exact Hne|]).
  - apply bind_Ok in Hrun as (grad_0 & Hg0 & Hrun).
    apply bind_Ok in Hrun as (hess_0 & Hh0 & Hrun).
    exists grad_0, hess_0. split; [exact Hg0|]. split; [exact Hh0|].
    apply run_iterate in Hrun. revert Hrun. apply run_impl. intros i gh gh' _.
    apply query_step_accumulated.
  - destruct Hrun as (grad_0 & hess_0 & Hg0 & Hh0 & Hrun).
    rewrite (bind_Ok_l _ _ _ Hg0), (bind_Ok_l _ _ _ Hh0).
    apply run_iterate. revert Hrun. apply run_impl. intros i gh gh' _.
    apply query_step_accumulated.
Qed.

(** C1 as the specification states it fails: for the query of two documents
    with gains [1, 0], equal scores, the discount table [1, 1/2, 1/3], the
    normalizer 1 and the sigmoid 1/2, the documents have the ranks 0 and 1;
    the code takes [|1/3 - 1/2|] and leaves [-1/12] in the gradient of the
    first, where the discounts at the ranks, [|1/2 - 1|], give [-1/4]. *)
Lemma pair_discount_is_one_past_rank :
  exists grad' hess',
    get_gradients_for_one_query (D := Q) [1; 0]%Q [0; 0]%Q 0 2 [1; 1 # 2; 1 # 3]%Q 1%Q
      [1 # 2]%Q 1 (-1)%Q 1%Q (1 # 2)%Q [0; 0]%Q [0; 0]%Q = Ok (grad', hess') /\
    rd grad' 0 = Ok (-1 # 12)%Q /\
    lambda_of (1 # 2)%Q (delta_ndcg false 1%Q 0%Q 0%Q 0%Q 1%Q (1 # 2)%Q 1%Q)
      = (-1 # 4)%Q /\
    Qeq_bool (-1 # 12) (0 + (-1 # 4)) = false.
Proof.
  exists [-1 # 12; 1 # 12]%Q, [6 # 24; 6 # 24]%Q.
  split; [vm_compute; reflexivity|]. split; [reflexivity|].
  split; vm_compute; reflexivity.
Qed.

(** The gains of the kernel are the entries of the array that it is given.
    The objective callback gives it the labels themselves: on the labels
    [2, 0] the gain difference of the pair is 2, and the gradient of the first
    document [-2/12], where the gains [2^2 - 1] and [2^0 - 1] of the
    specification differ by 3 and give [-3/12]. *)
Lemma objective_gains_are_the_labels :
  lambdamart_objective (D := Q) (-1)%Q 1%Q [0; 0]%Q
    {| label := [2; 0]%Q; get_group := [2];
       calculator := {| query_boundaries := [0; 2];
                        discounts := [1; 1 # 2; 1 # 3]%Q;
                        inverse_max_dcgs := [1]%Q;
                        sigmoids := [1 # 2]%Q;
                        sigmoid_idx_factor := (1 # 2)%Q |} |}
  = Ok ([-2 # 12; 2 # 12]%Q, [12 # 24; 12 # 24]%Q) /\
  lambda_of (1 # 2)%Q (delta_ndcg false 2%Q 0%Q 0%Q 0%Q (1 # 2)%Q (1 # 3)%Q 1%Q)
    = (-2 # 12)%Q /\
  lambda_of (1 # 2)%Q (delta_ndcg false 3%Q 0%Q 0%Q 0%Q (1 # 2)%Q (1 # 3)%Q 1%Q)
    = (-3 # 12)%Q.
Proof. repeat split; vm_compute; reflexivity. Qed.

(** One query of three documents with the gains [2, 1, 0] and the scores
    [1, 2, 4], on arrays that held other numbers. *)
Lemma pair_contribution_witness :
  exists grad_0 hess_0,
    memset_zero (D := Q) [7; 7; 7]%Q 3 = Ok grad_0 /\
    memset_zero (D := Q) [-7; -7; -7]%Q 3 = Ok hess_0 /\
    run (query_accumulated (D := Q) [2; 1; 0]%Q [1; 2; 4]%Q [0; 3]
           [1; 1; 5 # 8; 1 # 2]%Q [1]%Q [1 # 2]%Q 1 (-1)%Q 1%Q (1 # 2)%Q)
        (seqZ 0 1) (grad_0, hess_0)
        ([-887200 # 3891328; -326400 # 10394112; 1004400 # 3872064]%Q,
         [10646400 # 15565312; 19353600 # 41576448; 12052800 # 15488256]%Q).
Proof.
  assert (Hrun : get_gradients (D := Q) [2; 1; 0]%Q [1; 2; 4]%Q 3 [3] [0; 3] 1
                   [1; 1; 5 # 8; 1 # 2]%Q [1]%Q [1 # 2]%Q 1 (-1)%Q 1%Q (1 # 2)%Q
                   [7; 7; 7]%Q [-7; -7; -7]%Q
                 = Ok ([-887200 # 3891328; -326400 # 10394112; 1004400 # 3872064]%Q,
                       [10646400 # 15565312; 19353600 # 41576448;
                        12052800 # 15488256]%Q))
    by (vm_compute; reflexivity).
  exact (proj2 (proj1 (pair_contribution _ _ _ _ _ _ _ _ _ _ _ _ _ _ _ _ _) Hrun)).
Defined.

(** ** The sigmoid lookup is clamped *)




(** ** The outcome of the objective callback *)

(** C3, as the code has it, in every arithmetic.  The callback fails when
    the group sequence is empty, and the failure is its outcome: it has no
    handler.  On groups that are not empty, with arrays that fit together and
    a sigmoid table in which the lookups of the pairs of every query succeed,
    it returns a gradient and a Hessian array of the length of the
    predictions.  It makes no comparison of the sum of the group sizes with
    the length of the predictions. *)
Theorem lambdamart_objective_outcome `{Double D} (MIN_SIGMOID_ARG MAX_SIGMOID_ARG : D)
    (preds : list D) (dataset : DatasetWithCalculator) :
  (get_group dataset = [] ->
     exists e, lambdamart_objective MIN_SIGMOID_ARG MAX_SIGMOID_ARG preds dataset = Fail e) /\
  (objective_input_ok MIN_SIGMOID_ARG MAX_SIGMOID_ARG (label dataset) preds
     (get_group dataset) (calculator dataset) ->
     exists grad hess,
       lambdamart_objective MIN_SIGMOID_ARG MAX_SIGMOID_ARG preds dataset = Ok (grad, hess) /\
       length grad = length preds /\ length hess = length preds).
Proof.
  unfold lambdamart_objective. split.
  - intros ->. cbn. eauto.
  - intros Hok. pose proof Hok as (Hgroups & _).
    destruct (decide (len (get_group dataset) = 0)) as [Hz|_];
      [apply len_nil in Hz; contradiction|].
    destruct (get_grad_hess_total _ _ _ _ _ _ Hok) as (grad & hess & Hrun).
    exists grad, hess. split; [exact Hrun|].
    apply get_grad_hess_Ok in Hrun as (_ & Hg & Hh). auto.
Qed.

(** C3 as the specification states it fails: with one group of two documents
    and three predictions the sum of the group sizes is not the length of the
    predictions, and the callback returns. *)
Lemma lambdamart_objective_no_sum_check :
  (foldr Z.add 0 [2] =? len [0; 0; 0]%Q) = false /\
  lambdamart_objective (D := Q) (-1)%Q 1%Q [0; 0; 0]%Q
    {| label := [1; 0]%Q; get_group := [2];
       calculator := {| query_boundaries := [0; 2];
                        discounts := [1; 1 # 2; 1 # 3]%Q;
                        inverse_max_dcgs := [1]%Q;
                        sigmoids := [1 # 2]%Q;
                        sigmoid_idx_factor := (1 # 2)%Q |} |}
  = Ok ([-1 # 12; 1 # 12; 0]%Q, [6 # 24; 6 # 24; 0]%Q).
Proof. split; vm_compute; reflexivity. Qed.

(** In binary64: one query of two documents, under the calculator whose
    tables are [query_boundaries = [0, 2]], [discounts = [1, 1/2, 1/3]]
    (rounded), one normalizer 1 and one sigmoid bin over [-1, 1]. *)
Lemma lambdamart_objective_outcome_witness :
  exists grad hess,
    lambdamart_objective (D := float) (-1)%float 1%float [0; 0]%float
      {| label := [1; 0]%float; get_group := [2];
         calculator := {| query_boundaries := [0; 2];
                          discounts := [1; 0.5; 0x1.5555555555555p-2]%float;
                          inverse_max_dcgs := [1]%float;
                          sigmoids := [0.5]%float;
                          sigmoid_idx_factor := 0.5%float |} |} = Ok (grad, hess) /\
    length grad = 2%nat /\ length hess = 2%nat.
Proof.
  apply (lambdamart_objective_outcome (D := float)). cbn.
  repeat (split; [discriminate|]). split.
  - unfold kernel_input_ok, len. cbn. repeat (split; [lia|]).
    intros j Hj. assert (j = 0) as -> by lia.
    exists 0, 2. unfold INT_MAX. cbn. repeat split; try reflexivity; lia.
  - intros j s e Hj Hs He k k' gain_high gain_low score_high score_low
      Hk Hk' _ _ Hsh Hsl _.
    unfold len in Hj. cbn in Hj. assert (j = 0) as -> by lia.
    injection Hs as <-. injection He as <-.
    assert (Hscore : forall i x, 0 <= i < 2 -> rd [0; 0]%float i = Ok x -> x = 0%float).
    { intros i x Hi Hx. assert (i = 0 \/ i = 1) as [-> | ->] by lia;
        injection Hx as <-; reflexivity. }
    rewrite (Hscore k score_high Hk Hsh), (Hscore k' score_low Hk' Hsl).
    exists 0.5%float. vm_compute. reflexivity.
Defined.

(** ** The sort is a stable descending sort *)

(** C4.  On an array of [n] scores and a result array of [n] cells, [argsort]
    returns a permutation of the indices [0 .. n-1]; the scores taken in its
    order do not increase, and of two equal scores the one with the smaller
    index comes first.  An input that does not increase is sent to the
    identity, and [3, 1, 3] to [0, 2, 1]. *)
Theorem argsort_stable_descending (data : list Q) (indices : list Z) (n : Z) :
  Z.of_nat (length data) = n -> Z.of_nat (length indices) = n ->
  exists idx,
    argsort data indices n = Ok idx /\
    idx ≡ₚ seqZ 0 n /\
    (forall p q x y, 0 <= p < q -> rd idx p = Ok x -> rd idx q = Ok y ->
       exists vx vy, rd data x = Ok vx /\ rd data y = Ok vy /\
                     (vy <= vx)%Q /\ ((vx == vy)%Q -> x < y)) /\
    ((forall p q vp vq, 0 <= p < q -> rd data p = Ok vp -> rd data q = Ok vq ->
        (vq <= vp)%Q) ->
     idx = seqZ 0 n) /\
    argsort [3; 1; 3]%Q [0; 0; 0] 3 = Ok [0; 2; 1].
Proof.
  intros Hdata Hind.
  set (sorted := stable_sort cmp (indexed data)).
  assert (Hrun : argsort data indices n = Ok (index <$> sorted)).
  { apply argsort_Ok. repeat split; try lia.
    rewrite take_ge, drop_ge, app_nil_r by lia. reflexivity. }
  exists (index <$> sorted). split; [exact Hrun|].
  split; [|split; [|split; [|vm_compute; reflexivity]]].
  - unfold sorted. rewrite stable_sort_Permutation, indexed_index, Hdata. reflexivity.
  - intros p q x y Hpq [_ Hx]%rd_Ok [_ Hy]%rd_Ok.
    apply list_lookup_fmap_Some in Hx as (ex & -> & Hex).
    apply list_lookup_fmap_Some in Hy as (ey & -> & Hey).
    assert (Hb : before ex ey).
    { pose proof (stable_sort_sorted _ (indexed_increasing data)) as Hs.
      rewrite StronglySorted_lookup in Hs.
      apply (Hs (Z.to_nat p) (Z.to_nat q)); [lia | exact Hex | exact Hey]. }
    destruct (sorted_elem_value data ex) as [Hx0 Hvx];
      [apply list_elem_of_lookup; eauto|].
    destruct (sorted_elem_value data ey) as [Hy0 Hvy];
      [apply list_elem_of_lookup; eauto|].
    exists (value ex), (value ey).
    split; [apply rd_Ok; auto|]. split; [apply rd_Ok; auto|].
    destruct Hb as [Hlt|[Heq Hlt]].
    + split; [lra | intros Heq; lra].
    + split; [lra | intros _; exact Hlt].
  - intros Hdesc. unfold sorted. rewrite stable_sort_descending.
    + rewrite indexed_index, Hdata. reflexivity.
    + intros p q vp vq Hpq Hp Hq.
      apply (Hdesc (Z.of_nat p) (Z.of_nat q)); [lia | |];
        apply rd_Ok; rewrite Nat2Z.id; split; (lia || assumption).
Qed.

(** The three scores [3, 1, 3]. *)
Lemma argsort_stable_descending_witness :
  exists idx, argsort [3; 1; 3]%Q [0; 0; 0] 3 = Ok idx /\ idx ≡ₚ seqZ 0 3.
Proof.
  destruct (argsort_stable_descending [3; 1; 3]%Q [0; 0; 0] 3 eq_refl eq_refl)
    as (idx & Hrun & Hperm & _).
  exists idx. split; assumption.
Defined.

(** ** The sort on no scores *)

(** C5, as the code has it.  For [n = 0] the sort writes nothing and
    returns; for [n < 0] it fails when it allocates its scratch array; for
    every [n >= 0] with [n] scores to read and [n] cells to write it
    returns. *)
Theorem argsort_total_from_zero `{Double D} (data : list D) (indices : list Z) (n : Z) :
  (n = 0 -> argsort data indices n = Ok indices) /\
  (n < 0 -> argsort data indices n = Fail BadArrayNewLength) /\
  (0 <= n -> n <= Z.of_nat (length data) -> n <= Z.of_nat (length indices) ->
     exists idx, argsort data indices n = Ok idx /\ length idx = length indices).
Proof.
  split; [|split].
  - intros ->. apply argsort_Ok. cbn. rewrite drop_0.
    split; [lia | split; [lia | reflexivity]].
  - intros Hn. unfold argsort, new_array.
    destruct (decide (n < 0)) as [_|Hge]; [reflexivity | lia].
  - intros Hn Hdata Hind.
    exists ((index <$> stable_sort cmp (indexed (take (Z.to_nat n) data)))
              ++ drop (Z.to_nat n) indices).
    assert (Hrun : argsort data indices n
                   = Ok ((index <$> stable_sort cmp (indexed (take (Z.to_nat n) data)))
                           ++ drop (Z.to_nat n) indices))
      by (apply argsort_Ok; repeat split; lia).
    split; [exact Hrun|].
    apply (argsort_Permutation _ _ _ _ Hrun).
Qed.

(** C5 as the specification states it fails: for a negative [n] the sort
    yields no result. *)
Lemma argsort_negative_fails :
  argsort (D := Q) [] [] (-1) = Fail BadArrayNewLength.
Proof. reflexivity. Qed.

(** Three scores to read and three cells to write. *)
Lemma argsort_total_from_zero_witness :
  exists idx, argsort [3; 1; 3]%Q [0; 0; 0] 3 = Ok idx /\ length idx = 3%nat.
Proof.
  destruct (argsort_total_from_zero [3; 1; 3]%Q [0; 0; 0] 3) as (_ & _ & Hrun).
  apply Hrun; cbn; lia.
Defined.

(** ** A query writes its own slice *)

(** C6.  The computation for one query, called on the range [start, end_)
    of a QueryBoundary table that does not decrease, returns the gradient
    and Hessian arrays with their lengths and with every cell outside
    [start, end_) as it was.  (The other arrays are read only: the function
    has no write to them, and the embedding returns none of them.) *)
Theorem one_query_writes_only_its_slice `{Double D}
    (gains preds : list D) (start end_ : Z) (discounts : list D)
    (inverse_max_dcg : D) (sigmoid_table : list D) (n_sigmoid_bins : Z)
    (min_sigmoid_arg max_sigmoid_arg sigmoid_idx_factor : D)
    (grad hess grad' hess' : list D) :
  start <= end_ ->
  get_gradients_for_one_query gains preds start end_ discounts inverse_max_dcg
    sigmoid_table n_sigmoid_bins min_sigmoid_arg max_sigmoid_arg
    sigmoid_idx_factor grad hess = Ok (grad', hess') ->
  same_outside start end_ grad grad' /\ same_outside start end_ hess hess'.
Proof.
  intros Hse Hrun.
  destruct (one_query_frame_cnt _ _ _ _ _ _ _ _ _ _ _ _ _ _ _ Hrun) as [Hg Hh].
  pose proof (cast_int_le (end_ - start) ltac:(lia)) as Hcnt.
  split; apply (same_outside_weaken start (start + cast_int (end_ - start)));
    [lia | lia | exact Hg | lia | lia | exact Hh].
Qed.

(** A query on the cells 1 and 2 of arrays of four cells. *)
Lemma one_query_writes_only_its_slice_witness :
  exists grad' hess',
    get_gradients_for_one_query (D := Q) [5; 1; 0; 7]%Q [9; 0; 0; 9]%Q 1 3
      [1; 1 # 2; 1 # 3]%Q 1%Q [1 # 2]%Q 1 (-1)%Q 1%Q (1 # 2)%Q
      [10; 0; 0; 20]%Q [30; 0; 0; 40]%Q = Ok (grad', hess') /\
    same_outside 1 3 [10; 0; 0; 20]%Q grad' /\
    same_outside 1 3 [30; 0; 0; 40]%Q hess'.
Proof.
  assert (Hrun : get_gradients_for_one_query (D := Q) [5; 1; 0; 7]%Q [9; 0; 0; 9]%Q 1 3
                   [1; 1 # 2; 1 # 3]%Q 1%Q [1 # 2]%Q 1 (-1)%Q 1%Q (1 # 2)%Q
                   [10; 0; 0; 20]%Q [30; 0; 0; 40]%Q
                 = Ok ([10; -1 # 12; 1 # 12; 20]%Q, [30; 6 # 24; 6 # 24; 40]%Q))
    by (vm_compute; reflexivity).
  assert (Hse : 1 <= 3) by lia.
  eexists _, _. split; [exact Hrun|].
  exact (one_query_writes_only_its_slice (D := Q) _ _ _ _ _ _ _ _ _ _ _ _ _ _ _
           Hse Hrun).
Defined.

(** ** The combined objective *)

(** C7.  When the two single-objective computations on the same predictions
    return [(grad_1, hess_1)] and [(grad_2, hess_2)], the combined objective
    returns two arrays of the length of the predictions whose entries are
    [alpha * grad_1[k] + (1 - alpha) * grad_2[k]] and
    [alpha * hess_1[k] + (1 - alpha) * hess_2[k]]. *)
Theorem combined_objective_blend `{Double D} (MIN_SIGMOID_ARG MAX_SIGMOID_ARG : D)
    (preds : list D) (dataset : DatasetWithTwoLabels)
    (grad_1 hess_1 grad_2 hess_2 : list D) :
  get_grad_hess MIN_SIGMOID_ARG MAX_SIGMOID_ARG (label_1 dataset) preds
    (get_group2 dataset) (calculator_1 dataset) = Ok (grad_1, hess_1) ->
  get_grad_hess MIN_SIGMOID_ARG MAX_SIGMOID_ARG (label_2 dataset) preds
    (get_group2 dataset) (calculator_2 dataset) = Ok (grad_2, hess_2) ->
  exists grad hess,
    combined_objective MIN_SIGMOID_ARG MAX_SIGMOID_ARG preds dataset = Ok (grad, hess) /\
    length grad = length preds /\ length hess = length preds /\
    forall k : nat, (k < length preds)%nat ->
      exists g1 g2 h1 h2,
        grad_1 !! k = Some g1 /\ grad_2 !! k = Some g2 /\
        hess_1 !! k = Some h1 /\ hess_2 !! k = Some h2 /\
        grad !! k = Some (alpha dataset * g1 + (lit_1 - alpha dataset) * g2)%D /\
        hess !! k = Some (alpha dataset * h1 + (lit_1 - alpha dataset) * h2)%D.
Proof.
  intros H1 H2. unfold combined_objective.
  pose proof (get_grad_hess_Ok _ _ _ _ _ _ _ _ H1) as (Hgroups & Hg1 & Hh1).
  pose proof (get_grad_hess_Ok _ _ _ _ _ _ _ _ H2) as (_ & Hg2 & Hh2).
  destruct (decide (len (get_group2 dataset) = 0)) as [Hz|_];
    [apply len_nil in Hz; contradiction|].
  rewrite H1, H2. cbn.
  eexists _, _. split; [reflexivity|].
  unfold np_add, np_scale.
  split; [rewrite length_zip_with, !length_fmap; lia|].
  split; [rewrite length_zip_with, !length_fmap; lia|].
  intros k Hk.
  destruct (lookup_lt_is_Some_2 grad_1 k ltac:(lia)) as [g1 Hk1].
  destruct (lookup_lt_is_Some_2 grad_2 k ltac:(lia)) as [g2 Hk2].
  destruct (lookup_lt_is_Some_2 hess_1 k ltac:(lia)) as [h1 Hk3].
  destruct (lookup_lt_is_Some_2 hess_2 k ltac:(lia)) as [h2 Hk4].
  exists g1, g2, h1, h2. repeat (split; [assumption|]).
  rewrite !lookup_zip_with, !list_lookup_fmap, Hk1, Hk2, Hk3, Hk4. cbn. auto.
Qed.

(** One query of two documents whose two label sets are [1, 0] and [0, 1],
    blended with [alpha = 1/4]. *)
Lemma combined_objective_blend_witness :
  let c := {| query_boundaries := [0; 2];
              discounts := [1; 1 # 2; 1 # 3]%Q;
              inverse_max_dcgs := [1]%Q;
              sigmoids := [1 # 2]%Q;
              sigmoid_idx_factor := (1 # 2)%Q |} in
  let dataset := {| label_1 := [1; 0]%Q; label_2 := [0; 1]%Q; get_group2 := [2];
                    calculator_1 := c; calculator_2 := c; alpha := (1 # 4)%Q |} in
  exists grad hess,
    combined_objective (D := Q) (-1)%Q 1%Q [0; 0]%Q dataset = Ok (grad, hess) /\
    grad !! 0%nat = Some ((1 # 4) * (-1 # 12) + (1 - (1 # 4)) * (1 # 12))%Q.
Proof.
  intros c dataset.
  assert (H1 : get_grad_hess (D := Q) (-1)%Q 1%Q (label_1 dataset) [0; 0]%Q
                 (get_group2 dataset) (calculator_1 dataset)
               = Ok ([-1 # 12; 1 # 12]%Q, [6 # 24; 6 # 24]%Q))
    by (vm_compute; reflexivity).
  assert (H2 : get_grad_hess (D := Q) (-1)%Q 1%Q (label_2 dataset) [0; 0]%Q
                 (get_group2 dataset) (calculator_2 dataset)
               = Ok ([1 # 12; -1 # 12]%Q, [6 # 24; 6 # 24]%Q))
    by (vm_compute; reflexivity).
  destruct (combined_objective_blend (D := Q) (-1)%Q 1%Q [0; 0]%Q dataset _ _ _ _ H1 H2)
    as (grad & hess & Hrun & _ & _ & Hk).
  exists grad, hess. split; [exact Hrun|].
  destruct (Hk 0%nat ltac:(cbn; lia)) as (g1 & g2 & h1 & h2 & Hg1 & Hg2 & _ & _ & Hg & _).
  injection Hg1 as <-. injection Hg2 as <-. exact Hg.
Defined.

(** ** A query with one label *)

(** C8.  After a call of the kernel that returns, a query all of whose
    documents have the same label has the gradient and the Hessian zero on
    its whole slice.  The QueryBoundary table does not decrease, and the
    slice lies in the [n_preds] cells that the call zeroes; the comparison
    of a label with itself is false, as it is for every double. *)
Theorem same_label_query_is_zero `{Double D}
    (gains preds : list D) (n_preds : Z)
    (groups query_boundaries : list Z) (n_queries : Z)
    (discounts inverse_max_dcgs sigmoid_table : list D) (n_sigmoid_bins : Z)
    (min_sigmoid_arg max_sigmoid_arg sigmoid_idx_factor : D)
    (grad hess grad' hess' : list D) (i s e : Z) :
  (forall x, d_ltb x x = false) ->
  boundaries_sorted query_boundaries n_queries ->
  0 <= i < n_queries ->
  rd query_boundaries i = Ok s ->
  rd query_boundaries (i + 1) = Ok e ->
  0 <= s -> e <= n_preds ->
  (forall k k', s <= k < e -> s <= k' < e -> rd gains k = rd gains k') ->
  get_gradients gains preds n_preds groups query_boundaries n_queries discounts
    inverse_max_dcgs sigmoid_table n_sigmoid_bins min_sigmoid_arg max_sigmoid_arg
    sigmoid_idx_factor grad hess = Ok (grad', hess') ->
  forall k, s <= k < e -> rd grad' k = Ok lit_0 /\ rd hess' k = Ok lit_0.
Proof.
  intros Hirr Hsorted Hi Hs He Hs0 Hen Hsame [_ Hrun]%get_gradients_Ok.
  pose (P := fun gh : list D * list D =>
    forall k, s <= k < e -> rd gh.1 k = Ok lit_0 /\ rd gh.2 k = Ok lit_0).
  change (P (grad', hess')).
  apply (_get_gradients_inv P _ _ _ _ _ _ _ _ _ _ _ _ _ _ _ _ Hrun); unfold P; cbn.
  - intros g0 h0 (_ & _ & Hg0 & _)%memset_zero_Ok (_ & _ & Hh0 & _)%memset_zero_Ok k Hk.
    split; [apply Hg0 | apply Hh0]; lia.
  - intros j sj ej inv g h g' h' Hj Hsj Hej _ HP Hone k Hk.
    assert (Hle : sj <= ej) by (apply (Hsorted j (j + 1) sj ej); auto; lia).
    destruct (decide (j = i)) as [->|Hne].
    + assert (sj = s) as -> by congruence. assert (ej = e) as -> by congruence.
      destruct (one_query_no_pair _ _ _ _ _ _ _ _ _ _ _ _ _ _ _ Hirr Hle Hsame Hone)
        as [-> ->].
      apply HP. exact Hk.
    + destruct (one_query_frame _ _ _ _ _ _ _ _ _ _ _ _ _ _ _ Hle Hone)
        as [[_ Hg] [_ Hh]].
      assert (Hout : ~ (sj <= k < ej)).
      { destruct (Z.lt_ge_cases j i) as [Hlt|Hgt].
        - assert (ej <= s) by (apply (Hsorted (j + 1) i ej s); auto; lia). lia.
        - assert (e <= sj) by (apply (Hsorted (i + 1) j e sj); auto; lia). lia. }
      rewrite (Hg k Hout), (Hh k Hout). apply HP. exact Hk.
Qed.

(** Two queries of two documents; those of the second have one label. *)
Lemma same_label_query_is_zero_witness :
  exists grad' hess',
    get_gradients (D := Q) [1; 0; 1; 1]%Q [0; 0; 3; 4]%Q 4 [2; 2] [0; 2; 4] 2
      [1; 1 # 2; 1 # 3]%Q [1; 1]%Q [1 # 2]%Q 1 (-1)%Q 1%Q (1 # 2)%Q
      [7; 7; 7; 7]%Q [7; 7; 7; 7]%Q = Ok (grad', hess') /\
    forall k, 2 <= k < 4 -> rd grad' k = Ok 0%Q /\ rd hess' k = Ok 0%Q.
Proof.
  assert (Hrun : get_gradients (D := Q) [1; 0; 1; 1]%Q [0; 0; 3; 4]%Q 4 [2; 2]
                   [0; 2; 4] 2 [1; 1 # 2; 1 # 3]%Q [1; 1]%Q [1 # 2]%Q 1 (-1)%Q 1%Q
                   (1 # 2)%Q [7; 7; 7; 7]%Q [7; 7; 7; 7]%Q
                 = Ok ([-1 # 12; 1 # 12; 0; 0]%Q, [6 # 24; 6 # 24; 0; 0]%Q))
    by (vm_compute; reflexivity).
  assert (Hsorted : boundaries_sorted [0; 2; 4] 2)
    by (apply boundaries_sorted_of_sorted; repeat constructor; lia).
  assert (Hsame : forall k k', 2 <= k < 4 -> 2 <= k' < 4 ->
                    rd [1; 0; 1; 1]%Q k = rd [1; 0; 1; 1]%Q k').
  { intros k k' Hk Hk'.
    assert (k = 2 \/ k = 3) as [-> | ->] by lia;
      assert (k' = 2 \/ k' = 3) as [-> | ->] by lia; reflexivity. }
  exists [-1 # 12; 1 # 12; 0; 0]%Q, [6 # 24; 6 # 24; 0; 0]%Q.
  split; [exact Hrun|].
  assert (Hi : 0 <= 1 < 2) by lia.
  assert (Hs : 0 <= 2) by lia.
  assert (He : 4 <= 4) by lia.
  exact (same_label_query_is_zero (D := Q) _ _ _ _ _ _ _ _ _ _ _ _ _ _ _ _ _ 1 2 4
           Q_ltb_irrefl Hsorted Hi eq_refl eq_refl Hs He Hsame Hrun).
Defined.

(** ** The gradients of a query sum to zero *)

(** C9, in exact arithmetic.  After a call of the kernel that returns, on a
    QueryBoundary table that does not decrease, starts at or after 0 and ends
    at or before [n_preds], the gradient entries of every query's slice sum
    to zero; when the table starts at 0 and ends at [n_preds], the length of
    the gradient array, the whole array sums to zero. *)
Theorem gradient_sums_to_zero
    (gains preds : list Q) (n_preds : Z)
    (groups query_boundaries : list Z) (n_queries : Z)
    (discounts inverse_max_dcgs sigmoid_table : list Q) (n_sigmoid_bins : Z)
    (min_sigmoid_arg max_sigmoid_arg sigmoid_idx_factor : Q)
    (grad hess grad' hess' : list Q) (first last : Z) :
  boundaries_sorted query_boundaries n_queries ->
  rd query_boundaries 0 = Ok first -> 0 <= first ->
  rd query_boundaries n_queries = Ok last -> last <= n_preds ->
  get_gradients gains preds n_preds groups query_boundaries n_queries discounts
    inverse_max_dcgs sigmoid_table n_sigmoid_bins min_sigmoid_arg max_sigmoid_arg
    sigmoid_idx_factor grad hess = Ok (grad', hess') ->
  (forall i s e, 0 <= i < n_queries ->
     rd query_boundaries i = Ok s -> rd query_boundaries (i + 1) = Ok e ->
     (sum_Q (slice s e grad') == 0)%Q) /\
  (first = 0 -> last = n_preds -> Z.of_nat (length grad) = n_preds ->
     (sum_Q grad' == 0)%Q).
Proof.
  intros Hsorted Hfirst Hfirst0 Hlast Hlastn [_ Hrun]%get_gradients_Ok.
  pose proof (rd_range _ _ _ Hlast) as Hqn.
  assert (Hbounds : forall i s e, 0 <= i < n_queries ->
            rd query_boundaries i = Ok s -> rd query_boundaries (i + 1) = Ok e ->
            0 <= s <= e /\ e <= n_preds).
  { intros i s e Hi Hs He.
    pose proof (Hsorted 0 i first s ltac:(lia) ltac:(lia) Hfirst Hs).
    pose proof (Hsorted i (i + 1) s e ltac:(lia) ltac:(lia) Hs He).
    pose proof (Hsorted (i + 1) n_queries e last ltac:(lia) ltac:(lia) He Hlast).
    lia. }
  pose (P := fun gh : list Q * list Q =>
    length gh.1 = length grad /\
    forall i s e, 0 <= i < n_queries ->
      rd query_boundaries i = Ok s -> rd query_boundaries (i + 1) = Ok e ->
      (sum_Q (slice s e gh.1) == 0)%Q).
  assert (HP : P (grad', hess')).
  { apply (_get_gradients_inv P _ _ _ _ _ _ _ _ _ _ _ _ _ _ _ _ Hrun); unfold P; cbn.
    - intros g0 h0 (Hlen & _ & Hg0 & _)%memset_zero_Ok _. split; [exact Hlen|].
      intros i s e Hi Hs He. destruct (Hbounds i s e Hi Hs He) as [Hse Hen].
      apply sum_Q_zeros, Forall_lookup. intros k x Hx.
      assert (Hk : Z.of_nat k < e - s).
      { apply lookup_lt_Some in Hx. unfold slice in Hx.
        rewrite length_take in Hx. lia. }
      rewrite slice_lookup in Hx by lia.
      specialize (Hg0 (s + Z.of_nat k) ltac:(lia)). apply rd_Ok in Hg0 as [_ Hg0].
      replace (Z.to_nat (s + Z.of_nat k)) with (Z.to_nat s + k)%nat in Hg0 by lia.
      rewrite Hg0 in Hx. injection Hx as <-. reflexivity.
    - intros j sj ej inv g h g' h' Hj Hsj Hej _ [Hlen HP] Hone.
      destruct (Hbounds j sj ej Hj Hsj Hej) as [Hle Hen].
      assert (Hle' : sj <= ej) by lia.
      destruct (one_query_frame _ _ _ _ _ _ _ _ _ _ _ _ _ _ _ Hle' Hone)
        as [Hg _].
      split; [destruct Hg as [-> _]; exact Hlen|].
      intros i s e Hi Hs He. destruct (Hbounds i s e Hi Hs He) as [Hse Hsn].
      destruct (decide (i = j)) as [->|Hne].
      + assert (s = sj) as -> by congruence. assert (e = ej) as -> by congruence.
        rewrite (one_query_sum _ _ _ _ _ _ _ _ _ _ _ _ _ _ _ Hle Hone).
        apply (HP j sj ej Hj Hsj Hej).
      + assert (Hs0 : 0 <= s) by lia.
        rewrite (same_outside_slice sj ej s e g g' Hg Hs0).
        * apply (HP i s e Hi Hs He).
        * destruct (Z.lt_ge_cases i j) as [Hlt|Hgt].
          -- left. apply (Hsorted (i + 1) j e sj); auto; lia.
          -- right. apply (Hsorted (j + 1) i ej s); auto; lia. }
  destruct HP as [Hlen HP]. cbn in Hlen. split; [exact HP|].
  intros -> -> Hgrad.
  assert (Hprefix : forall j, 0 <= j -> j <= n_queries ->
            forall b, rd query_boundaries j = Ok b -> (sum_Q (slice 0 b grad') == 0)%Q).
  { intros j Hj. pattern j. apply natlike_ind; [ | | exact Hj]; clear j Hj.
    - intros _ b Hb. assert (b = 0) as -> by congruence. reflexivity.
    - intros j Hj IH Hjn b Hb.
      destruct (rd_in_range query_boundaries j ltac:(lia)) as [a Ha].
      replace (Z.succ j) with (j + 1) in Hb by lia.
      destruct (Hbounds j a b ltac:(lia) Ha Hb) as [Hab _].
      rewrite (slice_app 0 a b) by lia. rewrite sum_Q_app.
      rewrite (IH ltac:(lia) a Ha), (HP j a b ltac:(lia) Ha Hb). lra. }
  specialize (Hprefix n_queries ltac:(lia) ltac:(lia) n_preds Hlast).
  unfold slice in Hprefix. rewrite drop_0, take_ge in Hprefix by lia.
  exact Hprefix.
Qed.

(** C9 as it is stated fails on doubles.  One query of three documents has
    the gains [1, 0, 1] and the scores [1, 2, 4], so the ranks 2, 1, 0; the
    discount table is [0, 1, 0.625, 0.5], the normalizer 1 and the sigmoid
    0.5.  Two pairs qualify, both with the document 1 as [low]: with the
    document 2, [lambda = -0.5 * (0.375 / 2.01)], and with the document 0,
    [lambda = -0.5 * (0.125 / 1.01)].  The kernel leaves the gradients
    [-0.061881188118811881], [0.15516477020836411] and
    [-0.093283582089552244], whose sum in binary64, from left to right, is
    not zero (it is about [-1.4e-17]). *)
Lemma gradient_sum_not_zero_in_binary64 :
  exists g0 g1 g2 hess',
    get_gradients (D := float) [1; 0; 1]%float [1; 2; 4]%float 3 [3] [0; 3] 1
      [0; 1; 0.625; 0.5]%float [1]%float [0.5]%float 1 (-1)%float 1%float 0.5%float
      [0; 0; 0]%float [0; 0; 0]%float = Ok ([g0; g1; g2], hess') /\
    PrimFloat.eqb (g0 + g1 + g2)%float 0%float = false.
Proof.
  do 4 eexists. split; [vm_compute; reflexivity | vm_compute; reflexivity].
Qed.

(** One query of three documents with three labels and three scores. *)
Lemma gradient_sums_to_zero_witness :
  exists grad' hess',
    get_gradients (D := Q) [2; 1; 0]%Q [1; 2; 4]%Q 3 [3] [0; 3] 1
      [1; 1; 5 # 8; 1 # 2]%Q [1]%Q [1 # 2]%Q 1 (-1)%Q 1%Q (1 # 2)%Q
      [7; 7; 7]%Q [7; 7; 7]%Q = Ok (grad', hess') /\
    (sum_Q grad' == 0)%Q.
Proof.
  assert (Hrun : get_gradients (D := Q) [2; 1; 0]%Q [1; 2; 4]%Q 3 [3] [0; 3] 1
                   [1; 1; 5 # 8; 1 # 2]%Q [1]%Q [1 # 2]%Q 1 (-1)%Q 1%Q (1 # 2)%Q
                   [7; 7; 7]%Q [7; 7; 7]%Q
                 = Ok ([-887200 # 3891328; -326400 # 10394112; 1004400 # 3872064]%Q,
                       [10646400 # 15565312; 19353600 # 41576448;
                        12052800 # 15488256]%Q))
    by (vm_compute; reflexivity).
  assert (Hsorted : boundaries_sorted [0; 3] 1)
    by (apply boundaries_sorted_of_sorted; repeat constructor; lia).
  assert (Hfirst : 0 <= 0) by lia.
  assert (Hlast : 3 <= 3) by lia.
  eexists _, _. split; [exact Hrun|].
  apply (proj2 (gradient_sums_to_zero _ _ _ _ _ _ _ _ _ _ _ _ _ _ _ _ _ 0 3
                  Hsorted eq_refl Hfirst eq_refl Hlast Hrun));
    reflexivity.
Defined.

(** ** The sigmoid index is in bounds *)

(** C10, in exact arithmetic.  With [MIN_SIGMOID_ARG < MAX_SIGMOID_ARG], a number of bins
    [n_sigmoid_bins >= 1] (an [int]) and the scale factor
    [n_sigmoid_bins / (MAX_SIGMOID_ARG - MIN_SIGMOID_ARG)] in exact
    arithmetic, the lookup of any score reads the table at one index [k]
    with [0 <= k <= n_sigmoid_bins - 1], whatever the table: on a table of
    [n_sigmoid_bins] entries it reads no cell outside the table. *)
Theorem sigmoid_index_in_bounds (score : Q) (n_sigmoid_bins : Z)
    (min_sigmoid_arg max_sigmoid_arg sigmoid_idx_factor : Q) :
  (min_sigmoid_arg < max_sigmoid_arg)%Q ->
  1 <= n_sigmoid_bins <= INT_MAX ->
  (sigmoid_idx_factor == inject_Z n_sigmoid_bins / (max_sigmoid_arg - min_sigmoid_arg))%Q ->
  exists k, 0 <= k <= n_sigmoid_bins - 1 /\
    forall sigmoid_table : list Q,
      get_sigmoid score sigmoid_table n_sigmoid_bins
        min_sigmoid_arg max_sigmoid_arg sigmoid_idx_factor = rd sigmoid_table k.
Proof.
  intros Hlohi Hn Hfactor.
  destruct (Qlt_le_dec min_sigmoid_arg score) as [Hl|Hl];
    [destruct (Qlt_le_dec score max_sigmoid_arg) as [Hh|Hh]|].
  - destruct (middle_index_bounds score min_sigmoid_arg max_sigmoid_arg
                sigmoid_idx_factor n_sigmoid_bins Hl Hh ltac:(lia) Hfactor)
      as [Hf0 Hk].
    exists (Qfloor ((score - min_sigmoid_arg) * sigmoid_idx_factor)).
    split; [lia|]. intros table.
    apply get_sigmoid_middle; [exact Hl | exact Hh | exact Hf0 | lia].
  - exists (n_sigmoid_bins - 1). split; [lia|]. intros table.
    apply get_sigmoid_high; assumption.
  - exists 0. split; [lia|]. intros table.
    apply get_sigmoid_low; assumption.
Qed.

(** C10 fails in the arithmetic of the code.  Three bins over [-1, 1]: the
    preconditions hold, the scale factor [3 / (1 - -1)] is the double 1.5
    without rounding, and the score [1 - 2^-53], the double below 1, lies
    between the bounds; the product [(score + 1) * 1.5] is rounded to 3, so
    that the index is [n_sigmoid_bins] and the lookup reads past a table of
    three entries, whatever they are. *)
Lemma sigmoid_index_past_the_table_in_binary64 :
  let score := 0x1.fffffffffffffp-1%float in
  Prim2SF score = S754_finite false 9007199254740991 (-53) /\
  d_ltb (-1)%float 1%float = true /\
  d_eqb (3 / (1 - -1))%float 1.5%float = true /\
  d_leb score (-1)%float = false /\ d_leb 1%float score = false /\
  double_to_int ((score - -1) * 1.5)%float = Ok 3 /\
  forall t_0 t_1 t_2 : float,
    get_sigmoid score [t_0; t_1; t_2] 3 (-1)%float 1%float 1.5%float
      = Fail OutOfBounds.
Proof. cbv zeta. repeat split; vm_compute; reflexivity. Qed.

(** Three bins over [-1, 1], the scale factor 3/2, the score 0. *)
Lemma sigmoid_index_in_bounds_witness :
  exists k, 0 <= k <= 3 - 1 /\
    forall sigmoid_table : list Q,
      get_sigmoid 0%Q sigmoid_table 3 (-1)%Q 1%Q (3 # 2)%Q = rd sigmoid_table k.
Proof.
  apply (sigmoid_index_in_bounds 0%Q 3 (-1)%Q 1%Q (3 # 2)%Q);
    [reflexivity | unfold INT_MAX; lia | reflexivity].
Defined.

(** * Further properties of the kernel *)

(** Two queries on ranges that do not meet, run one after the other, leave
    the same two arrays in either order: the second order runs to its end
    whenever the first does. *)
Theorem queries_exchange `{Double D}
    (gains preds discounts sigmoid_table : list D) (n_sigmoid_bins : Z)
    (min_sigmoid_arg max_sigmoid_arg sigmoid_idx_factor : D)
    (s1 e1 s2 e2 : Z) (inv1 inv2 : D) (g h g1 h1 g2 h2 : list D) :
  let query := fun (s e : Z) (inv : D) =>
    get_gradients_for_one_query gains preds s e discounts inv sigmoid_table
      n_sigmoid_bins min_sigmoid_arg max_sigmoid_arg sigmoid_idx_factor in
  s1 <= e1 -> s2 <= e2 -> e1 <= s2 \/ e2 <= s1 ->
  query s1 e1 inv1 g h = Ok (g1, h1) ->
  query s2 e2 inv2 g1 h1 = Ok (g2, h2) ->
  exists g1' h1',
    query s2 e2 inv2 g h = Ok (g1', h1') /\
    query s1 e1 inv1 g1' h1' = Ok (g2, h2).
Proof.
  intros query H1 H2 Hdisj Hrun1 Hrun2. subst query. cbv beta in *.
  pose proof (cast_int_le (e1 - s1) ltac:(lia)) as Hc1.
  pose proof (cast_int_le (e2 - s2) ltac:(lia)) as Hc2.
  destruct (one_query_frame_cnt _ _ _ _ _ _ _ _ _ _ _ _ _ _ _ Hrun1)
    as [[Hlg1 Hfg1] [Hlh1 Hfh1]].
  destruct (one_query_frame_cnt _ _ _ _ _ _ _ _ _ _ _ _ _ _ _ Hrun2)
    as [[Hlg2 Hfg2] [Hlh2 Hfh2]].
  (* the second query, run first *)
  destruct (one_query_sim gains preds s2 e2 discounts inv2 sigmoid_table n_sigmoid_bins
              min_sigmoid_arg max_sigmoid_arg sigmoid_idx_factor
              (g1, h1) (g2, h2) (g, h) Hrun2) as ([g1' h1'] & Hrun2' & [Hag Hah]).
  { split; (split; [assumption|]); intros k Hk; [apply Hfg1 | apply Hfh1]; lia. }
  cbn in Hrun2', Hag, Hah.
  destruct (one_query_frame_cnt _ _ _ _ _ _ _ _ _ _ _ _ _ _ _ Hrun2')
    as [[Hlg1' Hfg1'] [Hlh1' Hfh1']].
  (* the first query, run second *)
  destruct (one_query_sim gains preds s1 e1 discounts inv1 sigmoid_table n_sigmoid_bins
              min_sigmoid_arg max_sigmoid_arg sigmoid_idx_factor
              (g, h) (g1, h1) (g1', h1') Hrun1) as ([g2' h2'] & Hrun1' & [Hbg Hbh]).
  { split; (split; [cbn; congruence|]); intros k Hk; cbn;
      symmetry; [apply Hfg1' | apply Hfh1']; lia. }
  cbn in Hrun1', Hbg, Hbh.
  destruct (one_query_frame_cnt _ _ _ _ _ _ _ _ _ _ _ _ _ _ _ Hrun1')
    as [[Hlg2' Hfg2'] [Hlh2' Hfh2']].
  exists g1', h1'. split; [exact Hrun2'|]. rewrite Hrun1'.
  destruct Hag as [_ Hag], Hah as [_ Hah], Hbg as [_ Hbg], Hbh as [_ Hbh].
  do 2 f_equal; apply list_eq_rd; try congruence; intros k Hk.
  - destruct (decide (s1 <= k < s1 + cast_int (e1 - s1))) as [Hin1|Hout1];
      [|destruct (decide (s2 <= k < s2 + cast_int (e2 - s2))) as [Hin2|Hout2]].
    + rewrite <- (Hbg k Hin1). symmetry. apply Hfg2. lia.
    + rewrite (Hfg2' k Hout1). symmetry. apply (Hag k Hin2).
    + rewrite (Hfg2' k Hout1), (Hfg1' k Hout2), (Hfg2 k Hout2), (Hfg1 k Hout1).
      reflexivity.
  - destruct (decide (s1 <= k < s1 + cast_int (e1 - s1))) as [Hin1|Hout1];
      [|destruct (decide (s2 <= k < s2 + cast_int (e2 - s2))) as [Hin2|Hout2]].
    + rewrite <- (Hbh k Hin1). symmetry. apply Hfh2. lia.
    + rewrite (Hfh2' k Hout1). symmetry. apply (Hah k Hin2).
    + rewrite (Hfh2' k Hout1), (Hfh1' k Hout2), (Hfh2 k Hout2), (Hfh1 k Hout1).
      reflexivity.
Qed.

(** Two queries of two documents each, on the cells 0, 1 and 2, 3. *)
Lemma queries_exchange_witness :
  let query := fun (s e : Z) (inv : Q) =>
    get_gradients_for_one_query (D := Q) [1; 0; 0; 1]%Q [0; 0; 1; 2]%Q s e
      [1; 1 # 2; 1 # 3]%Q inv [1 # 2]%Q 1 (-1)%Q 1%Q (1 # 2)%Q in
  exists g1' h1',
    query 2 4 2%Q [0; 0; 0; 0]%Q [0; 0; 0; 0]%Q = Ok (g1', h1') /\
    query 0 2 1%Q g1' h1'
      = Ok ([-1 # 12; 1 # 12; 200 # 1212; -200 # 1212]%Q,
            [6 # 24; 6 # 24; 1200 # 2424; 1200 # 2424]%Q).
Proof.
  intros query.
  assert (Hrun1 : query 0 2 1%Q [0; 0; 0; 0]%Q [0; 0; 0; 0]%Q
                  = Ok ([-1 # 12; 1 # 12; 0; 0]%Q, [6 # 24; 6 # 24; 0; 0]%Q))
    by (vm_compute; reflexivity).
  assert (Hrun2 : query 2 4 2%Q [-1 # 12; 1 # 12; 0; 0]%Q [6 # 24; 6 # 24; 0; 0]%Q
                  = Ok ([-1 # 12; 1 # 12; 200 # 1212; -200 # 1212]%Q,
                        [6 # 24; 6 # 24; 1200 # 2424; 1200 # 2424]%Q))
    by (vm_compute; reflexivity).
  assert (H1 : 0 <= 2) by lia. assert (H2 : 2 <= 4) by lia.
  assert (Hdisj : 2 <= 2 \/ 4 <= 0) by lia.
  exact (queries_exchange (D := Q) _ _ _ _ _ _ _ _ 0 2 2 4 1%Q 2%Q _ _ _ _ _ _
           H1 H2 Hdisj Hrun1 Hrun2).
Defined.

(** A query without documents has no defined result: the code reads the
    first cell of the empty array it has allocated for the sorted indices. *)
Theorem empty_query_is_undefined `{Double D}
    (gains preds : list D) (start : Z) (discounts : list D) (inverse_max_dcg : D)
    (sigmoid_table : list D) (n_sigmoid_bins : Z)
    (min_sigmoid_arg max_sigmoid_arg sigmoid_idx_factor : D) (grad hess : list D) :
  get_gradients_for_one_query gains preds start start discounts inverse_max_dcg
    sigmoid_table n_sigmoid_bins min_sigmoid_arg max_sigmoid_arg
    sigmoid_idx_factor grad hess = Fail OutOfBounds.
Proof.
  unfold get_gradients_for_one_query.
  replace (start - start) with 0 by lia.
  change (cast_int 0) with 0.
  unfold offset. destruct (decide _) as [Hin|Hout]; [|reflexivity]. cbn.
  assert (Hsort : argsort (drop (Z.to_nat start) preds) (malloc_int 0) 0 = Ok []).
  { apply argsort_Ok. cbn. repeat split; try lia. }
  rewrite Hsort. reflexivity.
Qed.

(** In exact arithmetic, with the sigmoid table and the scale factor of the
    data model, the kernel returns on arrays that fit together, and the
    arrays it returns have the lengths of those it was given. *)
Theorem get_gradients_returns
    (gains preds : list Q) (n_preds : Z)
    (groups query_boundaries : list Z) (n_queries : Z)
    (discounts inverse_max_dcgs sigmoid_table : list Q) (n_sigmoid_bins : Z)
    (min_sigmoid_arg max_sigmoid_arg sigmoid_idx_factor : Q)
    (grad hess : list Q) :
  gains <> [] -> preds <> [] -> groups <> [] -> query_boundaries <> [] ->
  discounts <> [] -> inverse_max_dcgs <> [] -> grad <> [] -> hess <> [] ->
  kernel_input_ok gains preds n_preds query_boundaries n_queries discounts
    inverse_max_dcgs grad hess ->
  (min_sigmoid_arg < max_sigmoid_arg)%Q ->
  1 <= n_sigmoid_bins <= INT_MAX ->
  Z.of_nat (length sigmoid_table) = n_sigmoid_bins ->
  (sigmoid_idx_factor
     == inject_Z n_sigmoid_bins / (max_sigmoid_arg - min_sigmoid_arg))%Q ->
  exists grad' hess',
    get_gradients gains preds n_preds groups query_boundaries n_queries discounts
      inverse_max_dcgs sigmoid_table n_sigmoid_bins min_sigmoid_arg max_sigmoid_arg
      sigmoid_idx_factor grad hess = Ok (grad', hess') /\
    length grad' = length grad /\ length hess' = length hess.
Proof.
  intros Hgains Hpreds Hgroups Hqb Hdisc Hinv Hgrad Hhess Hok Hlohi Hn Hlen Hfactor.
  assert (Htable : sigmoid_table <> []).
  { intros ->. cbn in Hlen. lia. }
  destruct (_get_gradients_total gains preds n_preds groups query_boundaries
              n_queries discounts inverse_max_dcgs sigmoid_table n_sigmoid_bins
              min_sigmoid_arg max_sigmoid_arg sigmoid_idx_factor grad hess Hok)
    as (grad' & hess' & Hrun & Hlg & Hlh).
  - intros j s e _ _ _ k k' gain_high gain_low score_high score_low _ _ _ _ _ _ _.
    rewrite cast_int_id by (unfold INT_MIN, INT_MAX in *; lia).
    apply get_sigmoid_total; assumption.
  - exists grad', hess'. split; [|auto].
    apply get_gradients_Ok. split; [|exact Hrun]. repeat split; assumption.
Qed.

(** One query of two documents, with one sigmoid bin over [-1, 1]. *)
Lemma get_gradients_returns_witness :
  exists grad' hess',
    get_gradients (D := Q) [1; 0]%Q [0; 0]%Q 2 [2] [0; 2] 1 [1; 1 # 2; 1 # 3]%Q
      [1]%Q [1 # 2]%Q 1 (-1)%Q 1%Q (1 # 2)%Q [7; 7]%Q [7; 7]%Q = Ok (grad', hess') /\
    length grad' = 2%nat /\ length hess' = 2%nat.
Proof.
  assert (Hok : kernel_input_ok [1; 0]%Q [0; 0]%Q 2 [0; 2] 1 [1; 1 # 2; 1 # 3]%Q
                  [1]%Q [7; 7]%Q [7; 7]%Q).
  { unfold kernel_input_ok. cbn. repeat (split; [lia|]).
    intros j Hj. assert (j = 0) as -> by lia.
    exists 0, 2. unfold INT_MAX. cbn. repeat split; try reflexivity; lia. }
  assert (Hn : 1 <= 1 <= INT_MAX) by (unfold INT_MAX; lia).
  apply (get_gradients_returns [1; 0]%Q [0; 0]%Q 2 [2] [0; 2] 1 [1; 1 # 2; 1 # 3]%Q
           [1]%Q [1 # 2]%Q 1 (-1)%Q 1%Q (1 # 2)%Q [7; 7]%Q [7; 7]%Q);
    try discriminate; try reflexivity; assumption.
Defined.

(** ** The signs of the Hessian and of the gradient

    In exact arithmetic, with a sigmoid table whose entries lie in [0, 2]
    and normalizers that are not negative, what a pair adds to the two
    Hessians is not negative, and its [lambda] is not positive. *)

Lemma rd_insert_ne {A} (a : list A) (i k : Z) (v : A) :
  0 <= i -> i <> k -> rd (<[Z.to_nat i := v]> a) k = rd a k.
Proof.
  intros Hi Hne. destruct (decide (0 <= k)) as [Hk|Hk].
  - apply rd_wr_other; assumption.
  - unfold rd. rewrite !decide_False by exact Hk. reflexivity.
Qed.

(** The lookup returns an entry of the table. *)
Lemma get_sigmoid_elem `{Double D} (score : D) (table : list D) (n : Z) (lo hi f p : D) :
  get_sigmoid score table n lo hi f = Ok p -> p ∈ table.
Proof.
  unfold get_sigmoid. intros Hrun.
  assert (Hrd : forall k, rd table k = Ok p -> p ∈ table).
  { intros k [_ Hk]%rd_Ok. apply list_elem_of_lookup. eauto. }
  destruct (d_leb score lo); [exact (Hrd _ Hrun)|].
  destruct (d_leb hi score); [exact (Hrd _ Hrun)|].
  apply bind_Ok in Hrun as (k & _ & Hk). exact (Hrd _ Hk).
Qed.

(** The queries of a table that does not decrease lie one after the
    other. *)
Lemma boundaries_sorted_disjoint (query_boundaries : list Z) (n : Z)
    (i j s e sj ej k : Z) :
  boundaries_sorted query_boundaries n ->
  0 <= i < n -> 0 <= j < n -> i <> j ->
  rd query_boundaries i = Ok s -> rd query_boundaries (i + 1) = Ok e ->
  rd query_boundaries j = Ok sj -> rd query_boundaries (j + 1) = Ok ej ->
  s <= k < e -> ~ (sj <= k < ej).
Proof.
  intros Hsorted Hi Hj Hne Hs He Hsj Hej Hk.
  destruct (Z.lt_ge_cases j i) as [Hlt|Hgt].
  - assert (ej <= s) by (apply (Hsorted (j + 1) i ej s); auto; lia). lia.
  - assert (e <= sj) by (apply (Hsorted (i + 1) j e sj); auto; lia). lia.
Qed.

Section SignQ.
Local Open Scope Q_scope.

Lemma delta_ndcg_nonneg (should_adjust : bool) (gain_high gain_low score_high score_low
    d_i d_j inv : Q) :
  gain_low < gain_high -> 0 <= inv ->
  0 <= delta_ndcg should_adjust gain_high gain_low score_high score_low d_i d_j inv.
Proof.
  intros Hg Hinv. unfold delta_ndcg.
  change d_sub with Qminus. change d_mul with Qmult. change d_div with Qdiv.
  change d_add with Qplus. change fabs with Qabs. change lit_0_01 with (1 # 100).
  assert (H0 : 0 <= (gain_high - gain_low) * Qabs (d_j - d_i) * inv).
  { apply Qmult_le_0_compat; [|exact Hinv].
    apply Qmult_le_0_compat; [lra | apply Qabs_nonneg]. }
  destruct should_adjust; [|exact H0].
  unfold Qdiv. apply Qmult_le_0_compat; [exact H0|].
  apply Qinv_le_0_compat.
  pose proof (Qabs_nonneg (score_high - score_low)). lra.
Qed.

Lemma lambda_of_nonpos (p delta : Q) : 0 <= p -> 0 <= delta -> lambda_of p delta <= 0.
Proof.
  intros Hp Hd. unfold lambda_of. change d_mul with Qmult. change d_neg with Qopp. nra.
Qed.

Lemma hess_term_of_nonneg (p delta : Q) :
  0 <= p <= 2 -> 0 <= delta -> 0 <= hess_term_of p delta.
Proof.
  intros Hp Hd. unfold hess_term_of.
  change d_mul with Qmult. change d_sub with Qminus. change lit_2 with 2.
  apply Qmult_le_0_compat; nra.
Qed.

Lemma add_at_nonneg_below (n : Z) (a a' : list Q) (i : Z) (v : Q) :
  nonneg_below n a -> 0 <= v -> add_at a i v = Ok a' -> nonneg_below n a'.
Proof.
  intros Ha Hv (x & Hx & ->)%add_at_Ok k y Hk Hy.
  pose proof (rd_range _ _ _ Hx) as Hi.
  destruct (decide (i = k)) as [->|Hne].
  - rewrite rd_wr_same in Hy by exact Hi. injection Hy as <-.
    pose proof (Ha k x Hk Hx). change d_add with Qplus. lra.
  - rewrite rd_insert_ne in Hy by lia. exact (Ha k y Hk Hy).
Qed.

Section OneQuerySign.
Variables (gains preds : list Q) (start end_ : Z)
          (discounts : list Q) (inverse_max_dcg : Q)
          (sigmoid_table : list Q) (n_sigmoid_bins : Z)
          (min_sigmoid_arg max_sigmoid_arg sigmoid_idx_factor : Q).
Hypothesis Hinv : 0 <= inverse_max_dcg.

Local Abbreviation one_query' := (get_gradients_for_one_query gains preds start end_
  discounts inverse_max_dcg sigmoid_table n_sigmoid_bins min_sigmoid_arg
  max_sigmoid_arg sigmoid_idx_factor).

(** Every pair adds to the two Hessians a quantity that is not negative. *)
Lemma one_query_hess_nonneg (n : Z) (grad hess grad' hess' : list Q) :
  Forall (fun p => 0 <= p <= 2) sigmoid_table ->
  nonneg_below n hess ->
  one_query' grad hess = Ok (grad', hess') ->
  nonneg_below n hess'.
Proof.
  intros Htable Hhess. unfold get_gradients_for_one_query. intros Hrun.
  apply bind_Ok in Hrun as (data & _ & Hrun).
  apply bind_Ok in Hrun as (sorted_idx & _ & Hrun).
  apply bind_Ok in Hrun as (i_best & _ & Hrun).
  apply bind_Ok in Hrun as (best_score & _ & Hrun).
  apply bind_Ok in Hrun as (i_worst & _ & Hrun).
  apply bind_Ok in Hrun as (worst_score & _ & Hrun).
  pose (P := fun gh : list Q * list Q => nonneg_below n gh.2).
  change (P (grad', hess')).
  eapply (for_range_preserves P); [ | | exact Hrun]; [exact Hhess|].
  clear Hrun. intros i [g h] [g' h'] _ HP Hrank. unfold rank_step in Hrank.
  apply bind_Ok in Hrank as (high & _ & Hrank).
  apply bind_Ok in Hrank as (gain_high & _ & Hrank).
  apply bind_Ok in Hrank as (score_high & _ & Hrank).
  eapply (for_range_preserves P); [ | | exact Hrank]; [exact HP|].
  intros j [g1 h1] [g2 h2] _ HP1 Hpair. unfold P in HP1 |- *. cbn in HP1 |- *.
  apply pair_step_Ok in Hpair as (low & gain_low & score_low & _ & _ & _ & Hrest).
  destruct (d_ltb gain_low gain_high) eqn:Hcmp.
  - destruct Hrest as (p & d_j & d_i & g3 & h3 & Hp & _ & _ & _ & Hh3 & _ & Hh2).
    apply Q_ltb_true in Hcmp.
    apply get_sigmoid_elem in Hp. rewrite Forall_forall in Htable.
    pose proof (Htable p Hp) as Hp2.
    assert (Hterm : forall b, 0 <= hess_term_of p
              (delta_ndcg b gain_high gain_low score_high score_low d_i d_j
                 inverse_max_dcg)).
    { intros b. apply hess_term_of_nonneg; [exact Hp2|].
      apply delta_ndcg_nonneg; assumption. }
    eapply add_at_nonneg_below; [ | apply Hterm | exact Hh2].
    eapply add_at_nonneg_below; [exact HP1 | apply Hterm | exact Hh3].
  - destruct Hrest as [_ ->]. exact HP1.
Qed.

(** A document whose label no document of the query exceeds is the [low] of
    no pair, and one whose label is below no other is the [high] of none. *)
Lemma one_query_grad_sign (k : Z) (gain_k : Q) (grad hess grad' hess' : list Q) :
  Forall (fun p => 0 <= p) sigmoid_table ->
  (start <= end_)%Z -> (start <= k < end_)%Z ->
  rd gains k = Ok gain_k ->
  one_query' grad hess = Ok (grad', hess') ->
  ((forall k' g, (start <= k' < end_)%Z -> rd gains k' = Ok g -> g <= gain_k) ->
   nonpos_at k grad -> nonpos_at k grad') /\
  ((forall k' g, (start <= k' < end_)%Z -> rd gains k' = Ok g -> gain_k <= g) ->
   nonneg_at k grad -> nonneg_at k grad').
Proof.
  intros Htable Hse Hk Hgk. unfold get_gradients_for_one_query.
  pose proof (cast_int_le (end_ - start) ltac:(lia)) as Hcnt.
  set (cnt := cast_int (end_ - start)) in *. intros Hrun.
  apply bind_Ok in Hrun as (data & _ & Hrun).
  apply bind_Ok in Hrun as (sorted_idx & Hsort & Hrun).
  apply bind_Ok in Hrun as (i_best & _ & Hrun).
  apply bind_Ok in Hrun as (best_score & _ & Hrun).
  apply bind_Ok in Hrun as (i_worst & _ & Hrun).
  apply bind_Ok in Hrun as (worst_score & _ & Hrun).
  rewrite Forall_forall in Htable.
  (* what one pair does to the cell [k] *)
  assert (Hpair : forall i j sa high gain_high score_high g1 h1 g2 h2,
    (0 <= i < cnt)%Z -> (0 <= j < cnt)%Z ->
    rd sorted_idx i = Ok high -> rd gains (start + high)%Z = Ok gain_high ->
    pair_step gains preds start discounts inverse_max_dcg sigmoid_table
      n_sigmoid_bins min_sigmoid_arg max_sigmoid_arg sigmoid_idx_factor
      sorted_idx sa i high gain_high score_high j (g1, h1) = Ok (g2, h2) ->
    ((forall k' g, (start <= k' < end_)%Z -> rd gains k' = Ok g -> g <= gain_k) ->
     nonpos_at k g1 -> nonpos_at k g2) /\
    ((forall k' g, (start <= k' < end_)%Z -> rd gains k' = Ok g -> gain_k <= g) ->
     nonneg_at k g1 -> nonneg_at k g2)).
  { intros i j sa high gain_high score_high g1 h1 g2 h2 Hi Hj Hhigh Hgh Hstep.
    apply pair_step_Ok in Hstep
      as (low & gain_low & score_low & Hlow & Hgl & _ & Hrest).
    assert (Hhr : (0 <= high < cnt)%Z)
      by (apply (argsort_range _ _ _ _ i _ Hsort); [lia | exact Hhigh]).
    assert (Hlr : (0 <= low < cnt)%Z)
      by (apply (argsort_range _ _ _ _ j _ Hsort); [lia | exact Hlow]).
    destruct (d_ltb gain_low gain_high) eqn:Hcmp;
      [|destruct Hrest as [-> _]; split; auto].
    destruct Hrest as (p & d_j & d_i & g3 & h3 & Hp & _ & _ & Hg3 & _ & Hg2 & _).
    apply Q_ltb_true in Hcmp.
    pose proof (Htable p (get_sigmoid_elem _ _ _ _ _ _ _ Hp)) as Hp0.
    set (delta := delta_ndcg sa gain_high gain_low score_high score_low d_i d_j
                    inverse_max_dcg) in *.
    assert (Hlam : lambda_of p delta <= 0).
    { apply lambda_of_nonpos; [exact Hp0|]. apply delta_ndcg_nonneg; assumption. }
    clearbody delta. set (lam := lambda_of p delta) in *. clearbody lam.
    apply add_at_Ok in Hg3 as (x3 & Hx3 & ->).
    apply sub_at_Ok in Hg2 as (x2 & Hx2 & ->).
    pose proof (rd_range _ _ _ Hx3) as Hr3. pose proof (rd_range _ _ _ Hx2) as Hr2.
    rewrite length_insert in Hr2.
    split; intros Hext Hat x Hx.
    - (* the label of [k] is the greatest: [k] is not [low] *)
      assert (Hne : (start + low)%Z <> k).
      { intros <-. assert (gain_k = gain_low) as -> by congruence.
        assert (Hin : (start <= start + high < end_)%Z) by lia.
        pose proof (Hext (start + high)%Z gain_high Hin Hgh). lra. }
      rewrite rd_insert_ne in Hx by lia.
      destruct (decide ((start + high)%Z = k)) as [<-|Hne'].
      + rewrite rd_wr_same in Hx by exact Hr3. injection Hx as <-.
        pose proof (Hat x3 Hx3). change d_add with Qplus. lra.
      + rewrite rd_insert_ne in Hx by lia. exact (Hat x Hx).
    - (* the label of [k] is the least: [k] is not [high] *)
      assert (Hne : (start + high)%Z <> k).
      { intros <-. assert (gain_k = gain_high) as -> by congruence.
        assert (Hin : (start <= start + low < end_)%Z) by lia.
        pose proof (Hext (start + low)%Z gain_low Hin Hgl). lra. }
      destruct (decide ((start + low)%Z = k)) as [<-|Hne'].
      + rewrite rd_wr_same in Hx by (rewrite length_insert; exact Hr2).
        injection Hx as <-.
        rewrite rd_insert_ne in Hx2 by lia.
        pose proof (Hat x2 Hx2). change d_sub with Qminus. lra.
      + rewrite !rd_insert_ne in Hx by lia. exact (Hat x Hx). }
  split; intros Hext Hat.
  - pose (P := fun gh : list Q * list Q => nonpos_at k gh.1).
    change (P (grad', hess')).
    eapply (for_range_preserves P); [ | | exact Hrun]; [exact Hat|].
    clear Hrun. intros i [g h] [g' h'] Hi HP Hrank. unfold rank_step in Hrank.
    apply bind_Ok in Hrank as (high & Hhigh & Hrank).
    apply bind_Ok in Hrank as (gain_high & Hgh & Hrank).
    apply bind_Ok in Hrank as (score_high & _ & Hrank).
    eapply (for_range_preserves P); [ | | exact Hrank]; [exact HP|].
    intros j [g1 h1] [g2 h2] Hj HP1 Hstep.
    exact (proj1 (Hpair _ _ _ _ _ _ _ _ _ _ Hi Hj Hhigh Hgh Hstep) Hext HP1).
  - pose (P := fun gh : list Q * list Q => nonneg_at k gh.1).
    change (P (grad', hess')).
    eapply (for_range_preserves P); [ | | exact Hrun]; [exact Hat|].
    clear Hrun. intros i [g h] [g' h'] Hi HP Hrank. unfold rank_step in Hrank.
    apply bind_Ok in Hrank as (high & Hhigh & Hrank).
    apply bind_Ok in Hrank as (gain_high & Hgh & Hrank).
    apply bind_Ok in Hrank as (score_high & _ & Hrank).
    eapply (for_range_preserves P); [ | | exact Hrank]; [exact HP|].
    intros j [g1 h1] [g2 h2] Hj HP1 Hstep.
    exact (proj2 (Hpair _ _ _ _ _ _ _ _ _ _ Hi Hj Hhigh Hgh Hstep) Hext HP1).
Qed.

End OneQuerySign.
End SignQ.

(** In exact arithmetic, with a sigmoid table whose entries lie in [0, 2]
    and normalizers that are not negative, after a call of the kernel that
    returns no entry of the Hessian among the [n_preds] entries that the
    call zeroes is negative. *)
Theorem hessian_is_not_negative
    (gains preds : list Q) (n_preds : Z)
    (groups query_boundaries : list Z) (n_queries : Z)
    (discounts inverse_max_dcgs sigmoid_table : list Q) (n_sigmoid_bins : Z)
    (min_sigmoid_arg max_sigmoid_arg sigmoid_idx_factor : Q)
    (grad hess grad' hess' : list Q) :
  Forall (fun p => 0 <= p <= 2)%Q sigmoid_table ->
  Forall (fun v => 0 <= v)%Q inverse_max_dcgs ->
  get_gradients gains preds n_preds groups query_boundaries n_queries discounts
    inverse_max_dcgs sigmoid_table n_sigmoid_bins min_sigmoid_arg max_sigmoid_arg
    sigmoid_idx_factor grad hess = Ok (grad', hess') ->
  forall k x, 0 <= k < n_preds -> rd hess' k = Ok x -> (0 <= x)%Q.
Proof.
  intros Htable Hinv [_ Hrun]%get_gradients_Ok.
  change (nonneg_below n_preds (grad', hess').2).
  apply (_get_gradients_inv (fun gh => nonneg_below n_preds gh.2)
           _ _ _ _ _ _ _ _ _ _ _ _ _ _ _ _ Hrun); cbn.
  - intros g0 h0 _ (_ & _ & Hh0 & _)%memset_zero_Ok k x Hk Hx.
    rewrite (Hh0 k Hk) in Hx. injection Hx as <-. apply Qle_refl.
  - intros j s e inv g h g' h' _ _ _ [_ Hj]%rd_Ok HP Hone.
    rewrite Forall_forall in Hinv.
    assert (Hinv0 : (0 <= inv)%Q) by (apply Hinv, list_elem_of_lookup; eauto).
    exact (one_query_hess_nonneg _ _ _ _ _ _ _ _ _ _ _ Hinv0 _ _ _ _ _ Htable HP Hone).
Qed.

(** One query of three documents with three labels, on a Hessian array
    that held negative numbers. *)
Lemma hessian_is_not_negative_witness :
  exists grad' hess',
    get_gradients (D := Q) [2; 1; 0]%Q [1; 2; 4]%Q 3 [3] [0; 3] 1
      [1; 1; 5 # 8; 1 # 2]%Q [1]%Q [1 # 2]%Q 1 (-1)%Q 1%Q (1 # 2)%Q
      [7; 7; 7]%Q [-7; -7; -7]%Q = Ok (grad', hess') /\
    forall k x, 0 <= k < 3 -> rd hess' k = Ok x -> (0 <= x)%Q.
Proof.
  assert (Hrun : get_gradients (D := Q) [2; 1; 0]%Q [1; 2; 4]%Q 3 [3] [0; 3] 1
                   [1; 1; 5 # 8; 1 # 2]%Q [1]%Q [1 # 2]%Q 1 (-1)%Q 1%Q (1 # 2)%Q
                   [7; 7; 7]%Q [-7; -7; -7]%Q
                 = Ok ([-887200 # 3891328; -326400 # 10394112; 1004400 # 3872064]%Q,
                       [10646400 # 15565312; 19353600 # 41576448;
                        12052800 # 15488256]%Q))
    by (vm_compute; reflexivity).
  assert (Htable : Forall (fun p => 0 <= p <= 2)%Q [1 # 2]%Q)
    by (repeat constructor; discriminate).
  assert (Hinv : Forall (fun v => 0 <= v)%Q [1]%Q)
    by (repeat constructor; discriminate).
  eexists _, _. split; [exact Hrun|].
  exact (hessian_is_not_negative _ _ _ _ _ _ _ _ _ _ _ _ _ _ _ _ _ Htable Hinv Hrun).
Defined.

(** In exact arithmetic, with a sigmoid table whose entries are not
    negative, normalizers that are not negative and a QueryBoundary table that
    does not decrease, after a call of the kernel that returns a document
    whose label no document of its query exceeds has a gradient that is not
    positive, and a document whose label is below none of its query has a
    gradient that is not negative. *)
Theorem extreme_label_fixes_the_sign
    (gains preds : list Q) (n_preds : Z)
    (groups query_boundaries : list Z) (n_queries : Z)
    (discounts inverse_max_dcgs sigmoid_table : list Q) (n_sigmoid_bins : Z)
    (min_sigmoid_arg max_sigmoid_arg sigmoid_idx_factor : Q)
    (grad hess grad' hess' : list Q) (i s e k : Z) (gain_k : Q) :
  Forall (fun p => 0 <= p)%Q sigmoid_table ->
  Forall (fun v => 0 <= v)%Q inverse_max_dcgs ->
  boundaries_sorted query_boundaries n_queries ->
  0 <= i < n_queries ->
  rd query_boundaries i = Ok s -> rd query_boundaries (i + 1) = Ok e ->
  0 <= s -> e <= n_preds -> s <= k < e ->
  rd gains k = Ok gain_k ->
  get_gradients gains preds n_preds groups query_boundaries n_queries discounts
    inverse_max_dcgs sigmoid_table n_sigmoid_bins min_sigmoid_arg max_sigmoid_arg
    sigmoid_idx_factor grad hess = Ok (grad', hess') ->
  exists x, rd grad' k = Ok x /\
    ((forall k' g, s <= k' < e -> rd gains k' = Ok g -> (g <= gain_k)%Q) -> (x <= 0)%Q) /\
    ((forall k' g, s <= k' < e -> rd gains k' = Ok g -> (gain_k <= g)%Q) -> (0 <= x)%Q).
Proof.
  intros Htable Hinv Hsorted Hi Hs He Hs0 Hen Hk Hgk [_ Hrun]%get_gradients_Ok.
  assert (Hse : s <= e) by lia.
  rewrite Forall_forall in Hinv.
  assert (Hx : exists x, rd grad' k = Ok x).
  { apply rd_in_range.
    destruct (_get_gradients_length _ _ _ _ _ _ _ _ _ _ _ _ _ _ _ _ _ Hrun) as [-> _].
    unfold _get_gradients in Hrun. apply bind_Ok in Hrun as (g0 & Hg0 & _).
    apply memset_zero_Ok in Hg0 as (_ & Hn & _). lia. }
  destruct Hx as [x Hx]. exists x. split; [exact Hx|].
  (* the other queries leave the cell, this one keeps the sign *)
  assert (Hstep : forall j sj ej inv g h g' h',
    0 <= j < n_queries -> rd query_boundaries j = Ok sj ->
    rd query_boundaries (j + 1) = Ok ej -> rd inverse_max_dcgs j = Ok inv ->
    get_gradients_for_one_query gains preds sj ej discounts inv sigmoid_table
      n_sigmoid_bins min_sigmoid_arg max_sigmoid_arg sigmoid_idx_factor g h
      = Ok (g', h') ->
    ((forall k' g, s <= k' < e -> rd gains k' = Ok g -> (g <= gain_k)%Q) ->
     nonpos_at k g -> nonpos_at k g') /\
    ((forall k' g, s <= k' < e -> rd gains k' = Ok g -> (gain_k <= g)%Q) ->
     nonneg_at k g -> nonneg_at k g')).
  { intros j sj ej inv g h g' h' Hj Hsj Hej [_ Hinvj]%rd_Ok Hone.
    assert (Hinv0 : (0 <= inv)%Q) by (apply Hinv, list_elem_of_lookup; eauto).
    destruct (decide (j = i)) as [->|Hne].
    - assert (sj = s) as -> by congruence. assert (ej = e) as -> by congruence.
      exact (one_query_grad_sign _ _ _ _ _ _ _ _ _ _ _ Hinv0 k gain_k _ _ _ _
               Htable Hse Hk Hgk Hone).
    - assert (Hle : sj <= ej) by (apply (Hsorted j (j + 1) sj ej); auto; lia).
      destruct (one_query_frame _ _ _ _ _ _ _ _ _ _ _ _ _ _ _ Hle Hone)
        as [[_ Hg] _].
      assert (Hout : ~ (sj <= k < ej))
        by (apply (boundaries_sorted_disjoint query_boundaries n_queries i j s e);
            auto).
      split; intros _ Hat y Hy; rewrite (Hg k Hout) in Hy; exact (Hat y Hy). }
  assert (Hzero : forall g0, memset_zero grad n_preds = Ok g0 -> rd g0 k = Ok 0%Q).
  { intros g0 (_ & _ & Hg0 & _)%memset_zero_Ok. apply Hg0. lia. }
  split; intros Hext.
  - enough (HP : nonpos_at k (grad', hess').1) by exact (HP x Hx).
    apply (_get_gradients_inv (fun gh => nonpos_at k gh.1)
             _ _ _ _ _ _ _ _ _ _ _ _ _ _ _ _ Hrun); cbn.
    + intros g0 h0 Hg0 _ y Hy. rewrite (Hzero g0 Hg0) in Hy.
      injection Hy as <-. apply Qle_refl.
    + intros j sj ej inv g h g' h' Hj Hsj Hej Hinvj HP Hone.
      exact (proj1 (Hstep j sj ej inv g h g' h' Hj Hsj Hej Hinvj Hone) Hext HP).
  - enough (HP : nonneg_at k (grad', hess').1) by exact (HP x Hx).
    apply (_get_gradients_inv (fun gh => nonneg_at k gh.1)
             _ _ _ _ _ _ _ _ _ _ _ _ _ _ _ _ Hrun); cbn.
    + intros g0 h0 Hg0 _ y Hy. rewrite (Hzero g0 Hg0) in Hy.
      injection Hy as <-. apply Qle_refl.
    + intros j sj ej inv g h g' h' Hj Hsj Hej Hinvj HP Hone.
      exact (proj2 (Hstep j sj ej inv g h g' h' Hj Hsj Hej Hinvj Hone) Hext HP).
Qed.

(** One query of three documents with the labels 2, 1 and 0: the gradient
    of the first. *)
Lemma extreme_label_fixes_the_sign_witness :
  exists grad' hess' x,
    get_gradients (D := Q) [2; 1; 0]%Q [1; 2; 4]%Q 3 [3] [0; 3] 1
      [1; 1; 5 # 8; 1 # 2]%Q [1]%Q [1 # 2]%Q 1 (-1)%Q 1%Q (1 # 2)%Q
      [7; 7; 7]%Q [7; 7; 7]%Q = Ok (grad', hess') /\
    rd grad' 0 = Ok x /\ (x <= 0)%Q.
Proof.
  assert (Hrun : get_gradients (D := Q) [2; 1; 0]%Q [1; 2; 4]%Q 3 [3] [0; 3] 1
                   [1; 1; 5 # 8; 1 # 2]%Q [1]%Q [1 # 2]%Q 1 (-1)%Q 1%Q (1 # 2)%Q
                   [7; 7; 7]%Q [7; 7; 7]%Q
                 = Ok ([-887200 # 3891328; -326400 # 10394112; 1004400 # 3872064]%Q,
                       [10646400 # 15565312; 19353600 # 41576448;
                        12052800 # 15488256]%Q))
    by (vm_compute; reflexivity).
  assert (Htable : Forall (fun p => 0 <= p)%Q [1 # 2]%Q)
    by (repeat constructor; discriminate).
  assert (Hinv : Forall (fun v => 0 <= v)%Q [1]%Q)
    by (repeat constructor; discriminate).
  assert (Hsorted : boundaries_sorted [0; 3] 1)
    by (apply boundaries_sorted_of_sorted; repeat constructor; lia).
  assert (Hi : 0 <= 0 < 1) by lia.
  assert (Hs : 0 <= 0) by lia.
  assert (He : 3 <= 3) by lia.
  assert (Hk : 0 <= 0 < 3) by lia.
  assert (Hmax : forall k' g, 0 <= k' < 3 -> rd [2; 1; 0]%Q k' = Ok g -> (g <= 2)%Q).
  { intros k' g Hk' Hg.
    assert (k' = 0 \/ k' = 1 \/ k' = 2) as [-> | [-> | ->]] by lia;
      injection Hg as <-; discriminate. }
  assert (Hgk : rd [2; 1; 0]%Q 0 = Ok 2%Q) by reflexivity.
  destruct (extreme_label_fixes_the_sign _ _ _ _ _ _ _ _ _ _ _ _ _ _ _ _ _ 0 0 3 0 2%Q
              Htable Hinv Hsorted Hi eq_refl eq_refl Hs He Hk Hgk Hrun)
    as (x & Hx & Hneg & _).
  eexists _, _, x. split; [exact Hrun|]. split; [exact Hx | exact (Hneg Hmax)].
Defined.

(** ** What the whole call writes *)

(** A call of the kernel that returns, on a QueryBoundary table that does
    not decrease, leaves both arrays with their lengths; outside the cells of
    its queries, the cells [first .. last-1], it leaves zero in a cell among
    the [n_preds] that it zeroes and leaves every other cell as it was: a
    document of no query has the gradient and the Hessian zero. *)
Theorem call_writes_the_queries_only `{Double D}
    (gains preds : list D) (n_preds : Z)
    (groups query_boundaries : list Z) (n_queries : Z)
    (discounts inverse_max_dcgs sigmoid_table : list D) (n_sigmoid_bins : Z)
    (min_sigmoid_arg max_sigmoid_arg sigmoid_idx_factor : D)
    (grad hess grad' hess' : list D) (first last : Z) :
  boundaries_sorted query_boundaries n_queries ->
  rd query_boundaries 0 = Ok first ->
  rd query_boundaries n_queries = Ok last ->
  get_gradients gains preds n_preds groups query_boundaries n_queries discounts
    inverse_max_dcgs sigmoid_table n_sigmoid_bins min_sigmoid_arg max_sigmoid_arg
    sigmoid_idx_factor grad hess = Ok (grad', hess') ->
  length grad' = length grad /\ length hess' = length hess /\
  forall k, ~ (first <= k < last) ->
    (0 <= k < n_preds -> rd grad' k = Ok lit_0 /\ rd hess' k = Ok lit_0) /\
    (n_preds <= k -> rd grad' k = rd grad k /\ rd hess' k = rd hess k).
Proof.
  intros Hsorted Hfirst Hlast [_ Hrun]%get_gradients_Ok.
  pose proof (rd_range _ _ _ Hlast) as Hqn.
  destruct (_get_gradients_length _ _ _ _ _ _ _ _ _ _ _ _ _ _ _ _ _ Hrun) as [Hlg Hlh].
  split; [exact Hlg|]. split; [exact Hlh|].
  pose (P := fun gh : list D * list D =>
    forall k, ~ (first <= k < last) ->
      (0 <= k < n_preds -> rd gh.1 k = Ok lit_0 /\ rd gh.2 k = Ok lit_0) /\
      (n_preds <= k -> rd gh.1 k = rd grad k /\ rd gh.2 k = rd hess k)).
  change (P (grad', hess')).
  apply (_get_gradients_inv P _ _ _ _ _ _ _ _ _ _ _ _ _ _ _ _ Hrun); unfold P; cbn.
  - intros g0 h0 (_ & _ & Hg0 & Hg0')%memset_zero_Ok
      (_ & _ & Hh0 & Hh0')%memset_zero_Ok k _.
    split; intros Hk; split; auto.
  - intros j sj ej inv g h g' h' Hj Hsj Hej _ HP Hone k Hk.
    assert (Hle : sj <= ej) by (apply (Hsorted j (j + 1) sj ej); auto; lia).
    assert (Hlo : first <= sj) by (apply (Hsorted 0 j first sj); auto; lia).
    assert (Hhi : ej <= last) by (apply (Hsorted (j + 1) n_queries ej last); auto; lia).
    destruct (one_query_frame _ _ _ _ _ _ _ _ _ _ _ _ _ _ _ Hle Hone)
      as [[_ Hg] [_ Hh]].
    rewrite (Hg k), (Hh k) by lia. exact (HP k Hk).
Qed.

(** Four documents and [n_preds = 3], with one query on the cells 1 and 2:
    the cell 0 is zeroed and the cell 3 kept. *)
Lemma call_writes_the_queries_only_witness :
  exists grad' hess',
    get_gradients (D := Q) [5; 1; 0; 7]%Q [9; 0; 0; 9]%Q 3 [2] [1; 3] 1
      [1; 1 # 2; 1 # 3]%Q [1]%Q [1 # 2]%Q 1 (-1)%Q 1%Q (1 # 2)%Q
      [10; 11; 12; 20]%Q [30; 31; 32; 40]%Q = Ok (grad', hess') /\
    rd grad' 0 = Ok 0%Q /\ rd hess' 0 = Ok 0%Q /\
    rd grad' 3 = Ok 20%Q /\ rd hess' 3 = Ok 40%Q.
Proof.
  assert (Hrun : get_gradients (D := Q) [5; 1; 0; 7]%Q [9; 0; 0; 9]%Q 3 [2] [1; 3] 1
                   [1; 1 # 2; 1 # 3]%Q [1]%Q [1 # 2]%Q 1 (-1)%Q 1%Q (1 # 2)%Q
                   [10; 11; 12; 20]%Q [30; 31; 32; 40]%Q
                 = Ok ([0; -1 # 12; 1 # 12; 20]%Q, [0; 6 # 24; 6 # 24; 40]%Q))
    by (vm_compute; reflexivity).
  assert (Hsorted : boundaries_sorted [1; 3] 1)
    by (apply boundaries_sorted_of_sorted; repeat constructor; lia).
  destruct (call_writes_the_queries_only (D := Q) _ _ _ _ _ _ _ _ _ _ _ _ _ _ _ _ _ 1 3
              Hsorted eq_refl eq_refl Hrun) as (_ & _ & Hout).
  eexists _, _. split; [exact Hrun|].
  destruct (Hout 0 ltac:(lia)) as [H0 _]. destruct (H0 ltac:(lia)) as [Hg0 Hh0].
  destruct (Hout 3 ltac:(lia)) as [_ H3]. destruct (H3 ltac:(lia)) as [Hg3 Hh3].
  repeat split; assumption.
Defined.

(** ** When the call returns *)

(** Every iteration of a loop that ran to its end ran to its end. *)
Lemma for_range_Ok_each {S} (body : Z -> S -> result S) (n : Z) (s s' : S) :
  for_range n body s = Ok s' ->
  forall i, 0 <= i < n -> exists t t', body i t = Ok t'.
Proof.
  intros Hrun i Hi.
  assert (Hn : 0 <= n) by lia.
  apply (for_range_inv
           (fun m _ => forall i, 0 <= i < m -> exists t t', body i t = Ok t')
           body n s s' Hn); [intros; lia | | exact Hrun | exact Hi].
  intros m t t' Hm IH Hbody k Hk.
  destruct (decide (k = m)) as [->|Hne]; [eauto | apply IH; lia].
Qed.

(** What a per-query computation that ran to its end has found: at least
    one document, and the scores and the labels of all its documents. *)
Lemma one_query_Ok_only_if `{Double D} (gains preds : list D) (start end_ : Z)
    (discounts : list D) (inverse_max_dcg : D) (sigmoid_table : list D)
    (n_sigmoid_bins : Z) (min_sigmoid_arg max_sigmoid_arg sigmoid_idx_factor : D)
    (grad hess : list D) (r : list D * list D) :
  get_gradients_for_one_query gains preds start end_ discounts inverse_max_dcg
    sigmoid_table n_sigmoid_bins min_sigmoid_arg max_sigmoid_arg
    sigmoid_idx_factor grad hess = Ok r ->
  1 <= cast_int (end_ - start) /\ 0 <= start /\
  start + cast_int (end_ - start) <= Z.of_nat (length preds) /\
  start + cast_int (end_ - start) <= Z.of_nat (length gains).
Proof.
  unfold get_gradients_for_one_query.
  set (cnt := cast_int (end_ - start)). intros Hrun.
  apply bind_Ok in Hrun as (data & Hdata & Hrun).
  apply bind_Ok in Hrun as (sorted_idx & Hsort & Hrun).
  apply bind_Ok in Hrun as (i_best & Hbest & Hrun).
  apply bind_Ok in Hrun as (best_score & _ & Hrun).
  apply bind_Ok in Hrun as (i_worst & _ & Hrun).
  apply bind_Ok in Hrun as (worst_score & _ & Hrun).
  unfold offset in Hdata. destruct (decide _) as [Hstart|]; [|discriminate].
  injection Hdata as <-.
  pose proof (proj1 (argsort_Ok _ _ _ _) Hsort) as ([Hn0 Hn] & _ & _).
  rewrite length_drop in Hn.
  destruct (argsort_Permutation _ _ _ _ Hsort) as [Hperm Hlen].
  unfold malloc_int in Hlen. rewrite length_replicate in Hlen.
  pose proof (rd_range _ _ _ Hbest) as Hb.
  assert (Hcnt : 1 <= cnt) by lia.
  repeat split; try lia.
  (* the document [cnt - 1] is at some rank, where its label is read *)
  assert (Hin : cnt - 1 ∈ take (Z.to_nat cnt) sorted_idx).
  { rewrite Hperm. apply elem_of_seqZ. lia. }
  apply list_elem_of_lookup in Hin as [i Hi].
  pose proof (lookup_lt_Some _ _ _ Hi) as Hlt. rewrite length_take in Hlt.
  rewrite lookup_take_lt in Hi by lia.
  destruct (for_range_Ok_each _ _ _ _ Hrun (Z.of_nat i) ltac:(lia)) as (t & t' & Hrank).
  unfold rank_step in Hrank.
  apply bind_Ok in Hrank as (high & [_ Hhigh]%rd_Ok & Hrank).
  apply bind_Ok in Hrank as (gain_high & Hgh & _).
  rewrite Nat2Z.id, Hi in Hhigh. injection Hhigh as <-.
  apply rd_range in Hgh. lia.
Qed.

(** A call of the kernel returns only if the [n_preds] cells that it zeroes
    exist in both output arrays and every query has its two boundaries and
    its normalizer, at least one document (in the [int] that the code takes
    for their number), and the scores and the labels of all its documents. *)
Theorem kernel_returns_only_if `{Double D}
    (gains preds : list D) (n_preds : Z)
    (groups query_boundaries : list Z) (n_queries : Z)
    (discounts inverse_max_dcgs sigmoid_table : list D) (n_sigmoid_bins : Z)
    (min_sigmoid_arg max_sigmoid_arg sigmoid_idx_factor : D)
    (grad hess : list D) (r : list D * list D) :
  get_gradients gains preds n_preds groups query_boundaries n_queries discounts
    inverse_max_dcgs sigmoid_table n_sigmoid_bins min_sigmoid_arg max_sigmoid_arg
    sigmoid_idx_factor grad hess = Ok r ->
  0 <= n_preds <= Z.of_nat (length grad) /\ n_preds <= Z.of_nat (length hess) /\
  forall i, 0 <= i < n_queries ->
    exists s e inv,
      rd query_boundaries i = Ok s /\ rd query_boundaries (i + 1) = Ok e /\
      rd inverse_max_dcgs i = Ok inv /\
      1 <= cast_int (e - s) /\ 0 <= s /\
      s + cast_int (e - s) <= Z.of_nat (length preds) /\
      s + cast_int (e - s) <= Z.of_nat (length gains).
Proof.
  intros [_ Hrun]%get_gradients_Ok. unfold _get_gradients in Hrun.
  apply bind_Ok in Hrun as (g0 & (_ & Hg & _)%memset_zero_Ok & Hrun).
  apply bind_Ok in Hrun as (h0 & (_ & Hh & _)%memset_zero_Ok & Hrun).
  split; [lia|]. split; [lia|]. intros i Hi.
  destruct (for_range_Ok_each _ _ _ _ Hrun i Hi) as ([g h] & t' & Hbody).
  cbn in Hbody.
  apply bind_Ok in Hbody as (s & Hs & Hbody).
  apply bind_Ok in Hbody as (e & He & Hbody).
  apply bind_Ok in Hbody as (inv & Hinv & Hone).
  exists s, e, inv. repeat (split; [assumption|]).
  exact (one_query_Ok_only_if _ _ _ _ _ _ _ _ _ _ _ _ _ _ Hone).
Qed.

(** One query of two documents: its size and its scores. *)
Lemma kernel_returns_only_if_witness :
  1 <= cast_int (2 - 0) /\ 0 + cast_int (2 - 0) <= Z.of_nat (length [0; 0]%Q).
Proof.
  assert (Hrun : get_gradients (D := Q) [1; 0]%Q [0; 0]%Q 2 [2] [0; 2] 1
                   [1; 1 # 2; 1 # 3]%Q [1]%Q [1 # 2]%Q 1 (-1)%Q 1%Q (1 # 2)%Q
                   [7; 7]%Q [7; 7]%Q
                 = Ok ([-1 # 12; 1 # 12]%Q, [6 # 24; 6 # 24]%Q))
    by (vm_compute; reflexivity).
  destruct (kernel_returns_only_if (D := Q) _ _ _ _ _ _ _ _ _ _ _ _ _ _ _ _ Hrun)
    as (_ & _ & Hq).
  destruct (Hq 0 ltac:(lia)) as (s & e & inv & Hs & He & _ & Hcnt & _ & Hp & _).
  injection Hs as <-. injection He as <-. split; assumption.
Defined.

(** ** A query whose scores are all equal *)

(** In exact arithmetic, on a query of at least one document whose scores
    are all equal, as they are before the first tree is grown, the sort
    leaves the documents in their order, so that the rank of a document is its
    position in the query, and no pair has its [delta_ndcg] divided by
    [0.01 + |delta_score|]. *)
Theorem equal_scores_keep_the_order
    (gains preds : list Q) (start end_ : Z) (discounts : list Q) (inverse_max_dcg : Q)
    (sigmoid_table : list Q) (n_sigmoid_bins : Z)
    (min_sigmoid_arg max_sigmoid_arg sigmoid_idx_factor : Q) (grad hess : list Q) :
  0 <= start -> 1 <= end_ - start <= INT_MAX -> end_ <= Z.of_nat (length preds) ->
  (forall k k' x y, start <= k < end_ -> start <= k' < end_ ->
     rd preds k = Ok x -> rd preds k' = Ok y -> (x == y)%Q) ->
  get_gradients_for_one_query gains preds start end_ discounts inverse_max_dcg
    sigmoid_table n_sigmoid_bins min_sigmoid_arg max_sigmoid_arg
    sigmoid_idx_factor grad hess
  = for_range (end_ - start)
      (rank_step gains preds start discounts inverse_max_dcg sigmoid_table
         n_sigmoid_bins min_sigmoid_arg max_sigmoid_arg sigmoid_idx_factor
         (seqZ 0 (end_ - start)) false (end_ - start))
      (grad, hess).
Proof.
  intros Hstart Hcnt Hend Heq. unfold get_gradients_for_one_query.
  rewrite cast_int_id by (unfold INT_MIN, INT_MAX in *; lia).
  set (cnt := end_ - start) in *.
  unfold offset. rewrite decide_True by lia. cbn.
  set (data := drop (Z.to_nat start) preds).
  assert (Hlen : length (take (Z.to_nat cnt) data) = Z.to_nat cnt).
  { unfold data. rewrite length_take, length_drop. lia. }
  assert (Hsort : argsort data (malloc_int cnt) cnt = Ok (seqZ 0 cnt)).
  { apply argsort_Ok. unfold data, malloc_int.
    rewrite length_drop, length_replicate. repeat split; try lia.
    rewrite (drop_ge (replicate _ _)) by (rewrite length_replicate; lia).
    rewrite app_nil_r.
    fold data. rewrite stable_sort_descending.
    - rewrite indexed_index, Hlen. f_equal. lia.
    - intros p q vp vq Hpq Hp Hq.
      pose proof (lookup_lt_Some _ _ _ Hq) as Hq'. rewrite Hlen in Hq'.
      rewrite lookup_take_lt in Hp, Hq by lia.
      unfold data in Hp, Hq. rewrite lookup_drop in Hp, Hq.
      apply Qle_lteq. right.
      apply (Heq (start + Z.of_nat q) (start + Z.of_nat p)); try lia;
        apply rd_Ok; (split; [lia|]).
      + replace (Z.to_nat (start + Z.of_nat q)) with (Z.to_nat start + q)%nat by lia.
        exact Hq.
      + replace (Z.to_nat (start + Z.of_nat p)) with (Z.to_nat start + p)%nat by lia.
        exact Hp. }
  rewrite Hsort. cbn [mbind result_bind].
  assert (Hrd : forall i, 0 <= i < cnt -> rd (seqZ 0 cnt) i = Ok i).
  { intros i Hi. apply rd_Ok. split; [lia|].
    rewrite lookup_seqZ. split; lia. }
  rewrite (Hrd 0) by lia. cbn [mbind result_bind].
  destruct (rd_in_range preds (start + 0) ltac:(lia)) as [best_score Hb].
  rewrite Hb. cbn [mbind result_bind].
  rewrite (Hrd (cnt - 1)) by lia. cbn [mbind result_bind].
  destruct (rd_in_range preds (start + (cnt - 1)) ltac:(lia)) as [worst_score Hw].
  rewrite Hw. cbn [mbind result_bind].
  assert (Hbw : Qeq_bool best_score worst_score = true).
  { apply Qeq_bool_iff. apply (Heq (start + 0) (start + (cnt - 1))); (lia || assumption). }
  rewrite Hbw. reflexivity.
Qed.

(** One query of two documents with the scores 3 and 3. *)
Lemma equal_scores_keep_the_order_witness :
  get_gradients_for_one_query (D := Q) [1; 0]%Q [3; 3]%Q 0 2 [1; 1 # 2; 1 # 3]%Q 1%Q
    [1 # 2]%Q 1 (-1)%Q 1%Q (1 # 2)%Q [0; 0]%Q [0; 0]%Q
  = for_range (2 - 0)
      (rank_step (D := Q) [1; 0]%Q [3; 3]%Q 0 [1; 1 # 2; 1 # 3]%Q 1%Q [1 # 2]%Q 1
         (-1)%Q 1%Q (1 # 2)%Q (seqZ 0 (2 - 0)) false (2 - 0))
      ([0; 0]%Q, [0; 0]%Q).
Proof.
  apply equal_scores_keep_the_order; [lia | unfold INT_MAX; lia | cbn; lia |].
  intros k k' x y Hk Hk' Hx Hy.
  assert (k = 0 \/ k = 1) as [-> | ->] by lia;
    assert (k' = 0 \/ k' = 1) as [-> | ->] by lia;
    injection Hx as <-; injection Hy as <-; reflexivity.
Defined.

(** * Further properties of the sigmoid lookup and of the sort *)

(** In exact arithmetic, with the scale factor of the data model, the bin
    that the lookup reads does not decrease with the score: of two scores the
    greater reads the same bin or a later one, whatever the table; so the
    lookup of a table that does not increase does not increase. *)
Theorem get_sigmoid_bin_does_not_decrease (score_1 score_2 : Q) (n_sigmoid_bins : Z)
    (min_sigmoid_arg max_sigmoid_arg sigmoid_idx_factor : Q) :
  (min_sigmoid_arg < max_sigmoid_arg)%Q ->
  1 <= n_sigmoid_bins <= INT_MAX ->
  (sigmoid_idx_factor == inject_Z n_sigmoid_bins / (max_sigmoid_arg - min_sigmoid_arg))%Q ->
  (score_1 <= score_2)%Q ->
  exists k_1 k_2, 0 <= k_1 <= k_2 /\ k_2 <= n_sigmoid_bins - 1 /\
    forall sigmoid_table : list Q,
      get_sigmoid score_1 sigmoid_table n_sigmoid_bins
        min_sigmoid_arg max_sigmoid_arg sigmoid_idx_factor = rd sigmoid_table k_1 /\
      get_sigmoid score_2 sigmoid_table n_sigmoid_bins
        min_sigmoid_arg max_sigmoid_arg sigmoid_idx_factor = rd sigmoid_table k_2.
Proof.
  intros Hlohi Hn Hfactor Hle.
  assert (Hmid : forall s, (min_sigmoid_arg < s)%Q -> (s < max_sigmoid_arg)%Q ->
            (0 <= sigmoid_idx_factor)%Q /\
            0 <= Qfloor ((s - min_sigmoid_arg) * sigmoid_idx_factor) < n_sigmoid_bins).
  { intros s Hl Hh. apply (middle_index_bounds s min_sigmoid_arg max_sigmoid_arg);
      [exact Hl | exact Hh | lia | exact Hfactor]. }
  destruct (Qlt_le_dec min_sigmoid_arg score_1) as [Hl1|Hl1].
  - assert (Hl2 : (min_sigmoid_arg < score_2)%Q) by lra.
    destruct (Qlt_le_dec score_1 max_sigmoid_arg) as [Hh1|Hh1].
    + destruct (Hmid score_1 Hl1 Hh1) as [Hf0 Hk1].
      destruct (Qlt_le_dec score_2 max_sigmoid_arg) as [Hh2|Hh2].
      * destruct (Hmid score_2 Hl2 Hh2) as [_ Hk2].
        exists (Qfloor ((score_1 - min_sigmoid_arg) * sigmoid_idx_factor)),
               (Qfloor ((score_2 - min_sigmoid_arg) * sigmoid_idx_factor)).
        split; [split; [lia|]|split; [lia|]].
        -- apply Qfloor_resp_le. nra.
        -- intros table. split; apply get_sigmoid_middle; (assumption || lia).
      * exists (Qfloor ((score_1 - min_sigmoid_arg) * sigmoid_idx_factor)),
               (n_sigmoid_bins - 1).
        split; [lia|]. split; [lia|]. intros table.
        split; [apply get_sigmoid_middle; (assumption || lia)
               | apply get_sigmoid_high; assumption].
    + assert (Hh2 : (max_sigmoid_arg <= score_2)%Q) by lra.
      exists (n_sigmoid_bins - 1), (n_sigmoid_bins - 1).
      split; [lia|]. split; [lia|]. intros table.
      split; apply get_sigmoid_high; assumption.
  - destruct (Qlt_le_dec min_sigmoid_arg score_2) as [Hl2|Hl2];
      [destruct (Qlt_le_dec score_2 max_sigmoid_arg) as [Hh2|Hh2]|].
    + destruct (Hmid score_2 Hl2 Hh2) as [Hf0 Hk2].
      exists 0, (Qfloor ((score_2 - min_sigmoid_arg) * sigmoid_idx_factor)).
      split; [lia|]. split; [lia|]. intros table.
      split; [apply get_sigmoid_low; assumption
             | apply get_sigmoid_middle; (assumption || lia)].
    + exists 0, (n_sigmoid_bins - 1).
      split; [lia|]. split; [lia|]. intros table.
      split; [apply get_sigmoid_low | apply get_sigmoid_high]; assumption.
    + exists 0, 0. split; [lia|]. split; [lia|]. intros table.
      split; apply get_sigmoid_low; assumption.
Qed.

(** Three bins over [-1, 1]: the scores -2 and 0. *)
Lemma get_sigmoid_bin_does_not_decrease_witness :
  exists k_1 k_2, 0 <= k_1 <= k_2 /\ k_2 <= 3 - 1 /\
    forall sigmoid_table : list Q,
      get_sigmoid (-2)%Q sigmoid_table 3 (-1)%Q 1%Q (3 # 2)%Q = rd sigmoid_table k_1 /\
      get_sigmoid 0%Q sigmoid_table 3 (-1)%Q 1%Q (3 # 2)%Q = rd sigmoid_table k_2.
Proof.
  apply (get_sigmoid_bin_does_not_decrease (-2)%Q 0%Q 3 (-1)%Q 1%Q (3 # 2)%Q);
    [reflexivity | unfold INT_MAX; lia | reflexivity | discriminate].
Defined.

(** The sort reads the first [n] scores and writes the first [n] cells of
    its result array, whatever they held: it leaves the cells from [n] on,
    and on two arrays of scores with the same first [n] scores, with any two
    result arrays, it writes the same [n] indices.  So the kernel may hand it
    the cells that [malloc] has left as they were. *)
Theorem argsort_reads_and_writes_n_cells `{Double D}
    (data data' : list D) (indices indices' : list Z) (n : Z) (idx : list Z) :
  take (Z.to_nat n) data' = take (Z.to_nat n) data ->
  n <= Z.of_nat (length indices') ->
  argsort data indices n = Ok idx ->
  drop (Z.to_nat n) idx = drop (Z.to_nat n) indices /\
  exists idx',
    argsort data' indices' n = Ok idx' /\
    take (Z.to_nat n) idx' = take (Z.to_nat n) idx /\
    drop (Z.to_nat n) idx' = drop (Z.to_nat n) indices'.
Proof.
  intros Hdata Hind ([Hn0 Hn] & Hn' & ->)%argsort_Ok.
  set (sorted := index <$> stable_sort cmp (indexed (take (Z.to_nat n) data))).
  assert (Hlen : Z.to_nat n = length sorted).
  { unfold sorted. rewrite length_fmap, stable_sort_length, indexed_length, length_take.
    lia. }
  split; [rewrite drop_app_length' by exact Hlen; reflexivity|].
  exists (sorted ++ drop (Z.to_nat n) indices'). split; [|split].
  - apply argsort_Ok. rewrite Hdata. fold sorted. split; [|auto].
    split; [lia|]. apply (f_equal length) in Hdata. rewrite !length_take in Hdata. lia.
  - rewrite !take_app_length' by exact Hlen. reflexivity.
  - rewrite drop_app_length' by exact Hlen. reflexivity.
Qed.

(** The scores [3, 1, 3], followed by a fourth, and result arrays of three
    and of four cells. *)
Lemma argsort_reads_and_writes_n_cells_witness :
  exists idx',
    argsort [3; 1; 3; 9]%Q [5; 5; 5; 5] 3 = Ok idx' /\
    take 3 idx' = take 3 [0; 2; 1] /\ drop 3 idx' = [5].
Proof.
  assert (Hrun : argsort [3; 1; 3]%Q [0; 0; 0] 3 = Ok [0; 2; 1])
    by (vm_compute; reflexivity).
  assert (Hind : 3 <= Z.of_nat (length [5; 5; 5; 5])) by (cbn; lia).
  exact (proj2 (argsort_reads_and_writes_n_cells (D := Q) [3; 1; 3]%Q [3; 1; 3; 9]%Q
                  [0; 0; 0] [5; 5; 5; 5] 3 [0; 2; 1] eq_refl Hind Hrun)).
Defined.

(** * Further properties of the objective callbacks *)

Section BlendQ.
Local Open Scope Q_scope.

Lemma blend_at_one (a : Q) (u v : list Q) :
  a == 1 -> length u = length v ->
  Forall2 Qeq (np_add (np_scale a u) (np_scale (lit_1 - a)%D v)) u.
Proof.
  intros Ha. revert v. induction u as [|x u IH]; intros [|y v] Hlen;
    try discriminate; cbn; constructor.
  - change (a * x + (1 - a) * y == x). rewrite Ha. ring.
  - apply IH. cbn in Hlen. lia.
Qed.

Lemma blend_at_zero (a : Q) (u v : list Q) :
  a == 0 -> length u = length v ->
  Forall2 Qeq (np_add (np_scale a u) (np_scale (lit_1 - a)%D v)) v.
Proof.
  intros Ha. revert v. induction u as [|x u IH]; intros [|y v] Hlen;
    try discriminate; cbn; constructor.
  - change (a * x + (1 - a) * y == y). rewrite Ha. ring.
  - apply IH. cbn in Hlen. lia.
Qed.

Lemma sum_Q_blend (a b : Q) (u v : list Q) :
  length u = length v ->
  sum_Q (np_add (np_scale a u) (np_scale b v)) == a * sum_Q u + b * sum_Q v.
Proof.
  revert v. induction u as [|x u IH]; intros [|y v] Hlen; try discriminate.
  - change (0 == a * 0 + b * 0). ring.
  - change (a * x + b * y + sum_Q (np_add (np_scale a u) (np_scale b v))
            == a * (x + sum_Q u) + b * (y + sum_Q v)).
    rewrite IH by (cbn in Hlen; lia). ring.
Qed.

(** The gradients that the loop over the queries leaves sum to zero when
    the queries cover the array. *)
Lemma _get_gradients_sum (gains preds : list Q) (n_preds : Z)
    (groups query_boundaries : list Z) (n_queries : Z)
    (discounts inverse_max_dcgs sigmoid_table : list Q) (n_sigmoid_bins : Z)
    (min_sigmoid_arg max_sigmoid_arg sigmoid_idx_factor : Q)
    (grad hess grad' hess' : list Q) :
  boundaries_sorted query_boundaries n_queries ->
  rd query_boundaries 0 = Ok 0%Z ->
  rd query_boundaries n_queries = Ok n_preds ->
  Z.of_nat (length grad) = n_preds ->
  _get_gradients gains preds n_preds groups query_boundaries n_queries discounts
    inverse_max_dcgs sigmoid_table n_sigmoid_bins min_sigmoid_arg max_sigmoid_arg
    sigmoid_idx_factor grad hess = Ok (grad', hess') ->
  sum_Q grad' == 0.
Proof.
  intros Hsorted Hfirst Hlast Hgrad Hrun.
  pose proof (rd_range _ _ _ Hlast) as Hqn.
  (* the cells before each boundary sum to zero *)
  pose (P := fun gh : list Q * list Q =>
    length gh.1 = length grad /\
    forall j b, (0 <= j <= n_queries)%Z -> rd query_boundaries j = Ok b ->
      sum_Q (slice 0 b gh.1) == 0).
  assert (HP : P (grad', hess')).
  { apply (_get_gradients_inv P _ _ _ _ _ _ _ _ _ _ _ _ _ _ _ _ Hrun); unfold P; cbn.
    - intros g0 h0 (Hlen & _ & Hg0 & _)%memset_zero_Ok _. split; [exact Hlen|].
      intros j b Hj Hb.
      pose proof (Hsorted 0 j 0 b ltac:(lia) ltac:(lia) Hfirst Hb)%Z.
      pose proof (Hsorted j n_queries b n_preds ltac:(lia) ltac:(lia) Hb Hlast)%Z.
      apply sum_Q_zeros, Forall_lookup. intros k x Hx.
      assert (Hk : (Z.of_nat k < b - 0)%Z).
      { apply lookup_lt_Some in Hx. unfold slice in Hx.
        rewrite length_take in Hx. lia. }
      rewrite slice_lookup in Hx by lia.
      specialize (Hg0 (Z.of_nat k) ltac:(lia)). apply rd_Ok in Hg0 as [_ Hg0].
      rewrite Nat2Z.id in Hg0. change (Z.to_nat 0 + k)%nat with k in Hx.
      rewrite Hg0 in Hx. injection Hx as <-.
      reflexivity.
    - intros i s e inv g h g' h' Hi Hs He _ [Hlen HP] Hone.
      pose proof (Hsorted 0 i 0 s ltac:(lia) ltac:(lia) Hfirst Hs)%Z as Hs0.
      pose proof (Hsorted i (i + 1) s e ltac:(lia) ltac:(lia) Hs He)%Z as Hse.
      destruct (one_query_frame _ _ _ _ _ _ _ _ _ _ _ _ _ _ _ Hse Hone) as [Hg _].
      split; [destruct Hg as [-> _]; exact Hlen|].
      intros j b Hj Hb.
      destruct (Z.le_gt_cases j i) as [Hle|Hgt].
      + (* a boundary at or before the query *)
        pose proof (Hsorted j i b s ltac:(lia) ltac:(lia) Hb Hs)%Z.
        pose proof (Hsorted 0 j 0 b ltac:(lia) ltac:(lia) Hfirst Hb)%Z.
        rewrite (same_outside_slice s e 0 b g g' Hg) by lia.
        exact (HP j b Hj Hb).
      + (* a boundary after it *)
        pose proof (Hsorted (i + 1) j e b ltac:(lia) ltac:(lia) He Hb)%Z.
        rewrite (slice_app 0 s b), (slice_app s e b) by lia.
        rewrite !sum_Q_app.
        rewrite (same_outside_slice s e 0 s g g' Hg) by lia.
        rewrite (same_outside_slice s e e b g g' Hg) by lia.
        assert (H0se : (0 <= s <= e)%Z) by lia.
        rewrite (one_query_sum _ _ _ _ _ _ _ _ _ _ _ _ _ _ _ H0se Hone).
        rewrite <- (HP j b Hj Hb).
        rewrite (slice_app 0 s b g), (slice_app s e b g) by lia.
        rewrite !sum_Q_app. reflexivity. }
  destruct HP as [Hlen HP]. cbn in Hlen.
  assert (Hnq : (0 <= n_queries <= n_queries)%Z) by lia.
  specialize (HP n_queries n_preds Hnq Hlast).
  cbn [fst] in HP. unfold slice in HP. rewrite drop_0, take_ge in HP by lia. exact HP.
Qed.

End BlendQ.

(** In exact arithmetic, after [set_alpha(1)] the combined objective returns
    what the objective of one metric returns on the first labels and the
    first calculator, entry for entry, and after [set_alpha(0)] what it
    returns on the second; the other computation has to return as well. *)
Theorem combined_objective_at_the_ends (MIN_SIGMOID_ARG MAX_SIGMOID_ARG : Q)
    (preds : list Q) (dataset : DatasetWithTwoLabels) (a : Q) (grad hess : list Q) :
  combined_objective MIN_SIGMOID_ARG MAX_SIGMOID_ARG preds (set_alpha dataset a)
    = Ok (grad, hess) ->
  ((a == 1)%Q ->
   exists grad_1 hess_1,
     lambdamart_objective MIN_SIGMOID_ARG MAX_SIGMOID_ARG preds
       {| label := label_1 dataset; get_group := get_group2 dataset;
          calculator := calculator_1 dataset |} = Ok (grad_1, hess_1) /\
     Forall2 Qeq grad grad_1 /\ Forall2 Qeq hess hess_1) /\
  ((a == 0)%Q ->
   exists grad_2 hess_2,
     lambdamart_objective MIN_SIGMOID_ARG MAX_SIGMOID_ARG preds
       {| label := label_2 dataset; get_group := get_group2 dataset;
          calculator := calculator_2 dataset |} = Ok (grad_2, hess_2) /\
     Forall2 Qeq grad grad_2 /\ Forall2 Qeq hess hess_2).
Proof.
  unfold combined_objective, lambdamart_objective, set_alpha.
  cbn [label get_group calculator label_1 label_2 get_group2 calculator_1
       calculator_2 alpha].
  destruct (decide (len (get_group2 dataset) = 0)) as [|_]; [discriminate|].
  intros Hrun.
  apply bind_Ok in Hrun as ([g1 h1] & H1 & Hrun).
  apply bind_Ok in Hrun as ([g2 h2] & H2 & Hrun).
  injection Hrun as <- <-.
  pose proof (get_grad_hess_Ok _ _ _ _ _ _ _ _ H1) as (_ & Hg1 & Hh1).
  pose proof (get_grad_hess_Ok _ _ _ _ _ _ _ _ H2) as (_ & Hg2 & Hh2).
  split; intros Ha.
  - exists g1, h1. split; [exact H1|].
    split; apply blend_at_one; (exact Ha || congruence).
  - exists g2, h2. split; [exact H2|].
    split; apply blend_at_zero; (exact Ha || congruence).
Qed.

(** One query of two documents whose two label sets are [1, 0] and [0, 1],
    in a dataset made with [alpha = 1/4] and then set to 1. *)
Lemma combined_objective_at_the_ends_witness :
  let c := {| query_boundaries := [0; 2];
              discounts := [1; 1 # 2; 1 # 3]%Q;
              inverse_max_dcgs := [1]%Q;
              sigmoids := [1 # 2]%Q;
              sigmoid_idx_factor := (1 # 2)%Q |} in
  let dataset := {| label_1 := [1; 0]%Q; label_2 := [0; 1]%Q; get_group2 := [2];
                    calculator_1 := c; calculator_2 := c; alpha := (1 # 4)%Q |} in
  exists grad hess grad_1 hess_1,
    combined_objective (D := Q) (-1)%Q 1%Q [0; 0]%Q (set_alpha dataset 1%Q)
      = Ok (grad, hess) /\
    lambdamart_objective (D := Q) (-1)%Q 1%Q [0; 0]%Q
      {| label := [1; 0]%Q; get_group := [2]; calculator := c |}
      = Ok (grad_1, hess_1) /\
    Forall2 Qeq grad grad_1.
Proof.
  intros c dataset.
  assert (Hrun : combined_objective (D := Q) (-1)%Q 1%Q [0; 0]%Q (set_alpha dataset 1%Q)
                 = Ok ([-12 # 144; 12 # 144]%Q, [144 # 576; 144 # 576]%Q))
    by (vm_compute; reflexivity).
  destruct (combined_objective_at_the_ends (-1)%Q 1%Q [0; 0]%Q dataset 1%Q _ _ Hrun)
    as [Hone _].
  destruct (Hone (Qeq_refl 1)) as (grad_1 & hess_1 & Hobj & Hg & _).
  exists [-12 # 144; 12 # 144]%Q, [144 # 576; 144 # 576]%Q, grad_1, hess_1.
  repeat split; assumption.
Defined.

(** In exact arithmetic, when the queries of both calculators cover the
    predictions, the gradients that the combined objective returns sum to
    zero, as those of each metric do. *)
Theorem combined_gradients_sum_to_zero (MIN_SIGMOID_ARG MAX_SIGMOID_ARG : Q)
    (preds : list Q) (dataset : DatasetWithTwoLabels) (grad hess : list Q) :
  queries_cover (calculator_1 dataset) (len preds) ->
  queries_cover (calculator_2 dataset) (len preds) ->
  combined_objective MIN_SIGMOID_ARG MAX_SIGMOID_ARG preds dataset = Ok (grad, hess) ->
  (sum_Q grad == 0)%Q.
Proof.
  intros (Hs1 & Hf1 & Hl1) (Hs2 & Hf2 & Hl2). unfold combined_objective.
  destruct (decide (len (get_group2 dataset) = 0)) as [|_]; [discriminate|].
  intros Hrun.
  apply bind_Ok in Hrun as ([g1 h1] & H1 & Hrun).
  apply bind_Ok in Hrun as ([g2 h2] & H2 & Hrun).
  injection Hrun as <- <-.
  pose proof (get_grad_hess_Ok _ _ _ _ _ _ _ _ H1) as (_ & Hg1 & _).
  pose proof (get_grad_hess_Ok _ _ _ _ _ _ _ _ H2) as (_ & Hg2 & _).
  unfold get_grad_hess in H1, H2.
  apply get_gradients_Ok in H1 as [_ H1]. apply get_gradients_Ok in H2 as [_ H2].
  assert (Hz : Z.of_nat (length (np_zeros (D := Q) (length preds))) = len preds)
    by (rewrite np_zeros_length; reflexivity).
  pose proof (_get_gradients_sum _ _ _ _ _ _ _ _ _ _ _ _ _ _ _ _ _ Hs1 Hf1 Hl1 Hz H1)
    as Hsum1.
  pose proof (_get_gradients_sum _ _ _ _ _ _ _ _ _ _ _ _ _ _ _ _ _ Hs2 Hf2 Hl2 Hz H2)
    as Hsum2.
  rewrite sum_Q_blend by congruence. rewrite Hsum1, Hsum2. ring.
Qed.

(** One query of two documents whose two label sets are [1, 0] and [0, 1],
    blended with [alpha = 1/4]. *)
Lemma combined_gradients_sum_to_zero_witness :
  let c := {| query_boundaries := [0; 2];
              discounts := [1; 1 # 2; 1 # 3]%Q;
              inverse_max_dcgs := [1]%Q;
              sigmoids := [1 # 2]%Q;
              sigmoid_idx_factor := (1 # 2)%Q |} in
  let dataset := {| label_1 := [1; 0]%Q; label_2 := [0; 1]%Q; get_group2 := [2];
                    calculator_1 := c; calculator_2 := c; alpha := (1 # 4)%Q |} in
  exists grad hess,
    combined_objective (D := Q) (-1)%Q 1%Q [0; 0]%Q dataset = Ok (grad, hess) /\
    (sum_Q grad == 0)%Q.
Proof.
  intros c dataset.
  assert (Hrun : combined_objective (D := Q) (-1)%Q 1%Q [0; 0]%Q dataset
                 = Ok ([96 # 2304; -96 # 2304]%Q, [2304 # 9216; 2304 # 9216]%Q))
    by (vm_compute; reflexivity).
  assert (Hcover : queries_cover c (len [0; 0]%Q)).
  { split; [|split; reflexivity].
    apply boundaries_sorted_of_sorted. repeat constructor; lia. }
  eexists _, _. split; [exact Hrun|].
  exact (combined_gradients_sum_to_zero (-1)%Q 1%Q [0; 0]%Q dataset _ _
           Hcover Hcover Hrun).
Defined.

(** * The data preparation *)

Lemma select_nil_r {A} (mask : list bool) : select mask (@nil A) = [].
Proof. destruct mask; reflexivity. Qed.

Lemma select_fmap {A B} (f : A -> B) (mask : list bool) (l : list A) :
  select mask (f <$> l) = f <$> select mask l.
Proof.
  revert l. induction mask as [|b mask IH]; intros [|x l]; cbn; try reflexivity.
  destruct b; cbn; rewrite IH; reflexivity.
Qed.

(** Selecting twice is selecting once, by the conjunction of the masks. *)
Lemma select_select {A} (m a : list bool) (l : list A) :
  select (select m a) (select m l) = select (zip_with andb m a) l.
Proof.
  revert a l. induction m as [|b m IH]; intros [|c a] [|x l]; cbn; try reflexivity;
    destruct b; try destruct c; cbn; rewrite ?IH, ?select_nil_r; reflexivity.
Qed.

(** A mask computed cell by cell selects as a filter does. *)
Lemma select_fmap_mask {A} (f : A -> bool) (l : list A) :
  select (f <$> l) l = filter (fun x => f x = true) l.
Proof.
  induction l as [|x l IH]; [reflexivity|].
  rewrite fmap_cons, filter_cons. cbn [select]. destruct (f x) eqn:Hf.
  - rewrite decide_True by reflexivity. rewrite IH. reflexivity.
  - rewrite decide_False by discriminate. exact IH.
Qed.

Lemma elem_of_select {A} (mask : list bool) (l : list A) (x : A) :
  x ∈ select mask l <-> exists k, mask !! k = Some true /\ l !! k = Some x.
Proof.
  revert l. induction mask as [|b mask IH]; intros [|y l]; cbn.
  - split; [intros Hx; inversion Hx | intros (k & Hk & _); discriminate].
  - split; [intros Hx; inversion Hx | intros (k & Hk & _); discriminate].
  - split; [intros Hx; inversion Hx | intros (k & _ & Hk); discriminate].
  - destruct b.
    + rewrite elem_of_cons, IH. split.
      * intros [->|(k & Hm & Hl)]; [exists 0%nat; auto | exists (S k); auto].
      * intros ([|k] & Hm & Hl); cbn in *; [left; congruence | right; eauto].
    + rewrite IH. split.
      * intros (k & Hm & Hl). exists (S k). auto.
      * intros ([|k] & Hm & Hl); cbn in *; [discriminate | eauto].
Qed.

Lemma zip_with_fmap_same {A B C E} (f : B -> C -> E) (g : A -> B) (h : A -> C)
    (l : list A) :
  zip_with f (g <$> l) (h <$> l) = (fun x => f (g x) (h x)) <$> l.
Proof. induction l as [|x l IH]; cbn; [reflexivity | rewrite IH; reflexivity]. Qed.

Section DataFrameFacts.
Context `{Double D}.

Lemma column_loc (data : DataFrame D) (mask : list bool) (name : string) :
  column (loc data mask) name = @select D mask <$> column data name.
Proof.
  induction data as [|[n s] data IH]; cbn; [reflexivity|].
  destruct (decide (n = name)); [reflexivity | exact IH].
Qed.

Lemma loc_loc (data : DataFrame D) (m a : list bool) :
  loc (loc data m) (select m a) = loc data (zip_with andb m a).
Proof.
  unfold loc. rewrite <- list_fmap_compose. apply list_fmap_ext.
  intros k [n s] _. cbn. rewrite select_select. reflexivity.
Qed.

(** The equality of the hash tables is symmetric and transitive when [==]
    is. *)
Lemma same_value_sym (x y : D) :
  eqb_is_partial_equivalence D -> same_value x y = true -> same_value y x = true.
Proof.
  intros [Hsym _]. unfold same_value. rewrite !orb_true_iff, !andb_true_iff.
  intros [Hxy|[Hx Hy]]; [left; apply Hsym; exact Hxy | right; auto].
Qed.

Lemma same_value_trans (x y z : D) :
  eqb_is_partial_equivalence D ->
  same_value x y = true -> same_value y z = true -> same_value x z = true.
Proof.
  intros [Hsym Htrans]. unfold same_value, isnan.
  rewrite !orb_true_iff, !andb_true_iff, !negb_true_iff.
  intros [Hxy|[Hx Hy]] [Hyz|[Hy' Hz]].
  - left. exact (Htrans _ _ _ Hxy Hyz).
  - pose proof (Htrans _ _ _ (Hsym _ _ Hxy) Hxy). congruence.
  - pose proof (Htrans _ _ _ Hyz (Hsym _ _ Hyz)). congruence.
  - right. auto.
Qed.

(** The members of the set of the requests with an interaction. *)
Lemma isin_interaction_requests (interactions request_id : list D) (id : D) :
  existsb (same_value id) (select (gt_0 interactions) request_id) = true <->
  has_interaction interactions request_id id.
Proof.
  rewrite existsb_exists. unfold has_interaction. split.
  - intros (id' & Hin & Heq). apply list_elem_of_In, elem_of_select in Hin as (k & Hm & Hk).
    unfold gt_0 in Hm. rewrite list_lookup_fmap in Hm.
    destruct (interactions !! k) as [v|] eqn:Hv; [|discriminate].
    injection Hm as Hm. exists k, id', v. auto.
  - intros (k & id' & v & Hk & Hv & Hpos & Heq). exists id'. split; [|exact Heq].
    apply list_elem_of_In, elem_of_select. exists k. split; [|exact Hk].
    unfold gt_0. rewrite list_lookup_fmap, Hv. cbn. rewrite Hpos. reflexivity.
Qed.

(** What the function returns, and when. *)
Lemma drop_requests_Ok (data : DataFrame D) (interaction_col : string)
    (data' : DataFrame D) :
  drop_requests_with_no_interactions data interaction_col = inr data' <->
  exists interactions request_id,
    column data interaction_col = Some interactions /\
    column data "request_id" = Some request_id /\
    data' = loc data (isin request_id (select (gt_0 interactions) request_id)).
Proof.
  unfold drop_requests_with_no_interactions, getitem, getattr.
  destruct (column data interaction_col) as [s|]; cbn.
  - rewrite column_loc. destruct (column data "request_id") as [ids|]; cbn.
    + split; [intros [= <-]; eauto | intros (s' & ids' & [= <-] & [= <-] & ->); reflexivity].
    + split; [discriminate | intros (s' & ids' & _ & [=] & _)].
  - split; [discriminate | intros (s' & ids' & [=] & _)].
Qed.

(** The second filter, on the frame that the first has left: it keeps the
    requests with an interaction in both columns. *)
Lemma drop_requests_again (data : DataFrame D) (col_1 col_2 : string)
    (s1 s2 request_id : list D) :
  eqb_is_partial_equivalence D ->
  column data col_1 = Some s1 -> column data col_2 = Some s2 ->
  column data "request_id" = Some request_id ->
  drop_requests_with_no_interactions
    (loc data (isin request_id (select (gt_0 s1) request_id))) col_2
  = inr (loc data ((fun id => existsb (same_value id) (select (gt_0 s1) request_id)
                             && existsb (same_value id) (select (gt_0 s2) request_id))
                     <$> request_id)).
Proof.
  intros Heqb H1 H2 Hid.
  set (m1 := isin request_id (select (gt_0 s1) request_id)).
  apply drop_requests_Ok.
  exists (select m1 s2), (select m1 request_id).
  rewrite !column_loc, H2, Hid. split; [reflexivity|]. split; [reflexivity|].
  symmetry.
  replace (gt_0 (select m1 s2)) with (select m1 (gt_0 s2))
    by (unfold gt_0; apply select_fmap).
  rewrite select_select.
  set (set_2 := select (zip_with andb m1 (gt_0 s2)) request_id).
  replace (isin (select m1 request_id) set_2) with (select m1 (isin request_id set_2))
    by (unfold isin; apply select_fmap).
  rewrite loc_loc. f_equal. unfold m1, isin, set_2.
  rewrite zip_with_fmap_same. apply list_fmap_ext. intros _ id _.
  apply Bool.eq_iff_eq_true. rewrite !andb_true_iff, !isin_interaction_requests.
  split; intros [Hg1 Hg2]; (split; [exact Hg1|]).
  - (* a request with an interaction in the frame that was left has one in
       the frame *)
    apply existsb_exists in Hg2 as (id' & Hin & Heq).
    apply list_elem_of_In, elem_of_select in Hin as (k & Hm & Hk).
    rewrite lookup_zip_with in Hm.
    unfold m1, isin, gt_0 in Hm.
    rewrite (list_lookup_fmap _ request_id), (list_lookup_fmap _ s2), Hk in Hm.
    destruct (s2 !! k) as [v|] eqn:Hv; [|discriminate]. cbn in Hm.
    injection Hm as Hm. apply andb_true_iff in Hm as [_ Hpos].
    exists k, id', v. auto.
  - (* the row with the interaction was kept, since it is a row of the request *)
    destruct Hg2 as (k & id' & v & Hk & Hv & Hpos & Heq).
    apply existsb_exists. exists id'. split; [|exact Heq].
    apply list_elem_of_In, elem_of_select. exists k. split; [|exact Hk].
    rewrite lookup_zip_with. unfold m1, isin, gt_0.
    rewrite (list_lookup_fmap _ request_id), (list_lookup_fmap _ s2), Hk, Hv. cbn.
    rewrite Hpos, andb_true_r. f_equal.
    apply isin_interaction_requests.
    destruct Hg1 as (k1 & id1 & v1 & Hk1 & Hv1 & Hpos1 & Heq1).
    exists k1, id1, v1. repeat (split; [assumption|]).
    exact (same_value_trans _ _ _ Heqb (same_value_sym _ _ Heqb Heq) Heq1).
Qed.

End DataFrameFacts.

Lemma Q_eqb_is_partial_equivalence : eqb_is_partial_equivalence Q.
Proof.
  split.
  - intros x y Hxy. apply Qeq_bool_iff. symmetry. apply Qeq_bool_iff. exact Hxy.
  - intros x y z Hxy Hyz. apply Qeq_bool_iff.
    transitivity y; apply Qeq_bool_iff; assumption.
Qed.

(** [drop_requests_with_no_interactions] raises KeyError on a frame without
    the interaction column and, on a frame with it, AttributeError when
    there is no column [request_id]; on a frame with both it returns the rows
    of the requests that have an interaction, the rows without an interaction
    of such a request among them, in every column and in their order.  The
    rows of one request are those with equal request ids, and those whose
    request id is a NaN. *)
Theorem drop_requests_keeps_whole_requests `{Double D}
    (data : DataFrame D) (interaction_col : string) :
  (column data interaction_col = None ->
   drop_requests_with_no_interactions data interaction_col
   = inl (KeyError interaction_col)) /\
  (forall interactions,
     column data interaction_col = Some interactions ->
     column data "request_id" = None ->
     drop_requests_with_no_interactions data interaction_col
     = inl (AttributeError "request_id")) /\
  (forall interactions request_id,
     column data interaction_col = Some interactions ->
     column data "request_id" = Some request_id ->
     exists mask,
       drop_requests_with_no_interactions data interaction_col = inr (loc data mask) /\
       length mask = length request_id /\
       forall k id, request_id !! k = Some id ->
         (mask !! k = Some true <-> has_interaction interactions request_id id)).
Proof.
  unfold drop_requests_with_no_interactions, getitem, getattr.
  split; [|split].
  - intros ->. reflexivity.
  - intros s -> Hid. cbn. rewrite column_loc, Hid. reflexivity.
  - intros s ids -> Hid. cbn. rewrite column_loc, Hid. cbn.
    exists (isin ids (select (gt_0 s) ids)). split; [reflexivity|].
    unfold isin. split; [apply length_fmap|].
    intros k id Hk. rewrite list_lookup_fmap, Hk. cbn.
    rewrite <- isin_interaction_requests. split; [intros [= ->] | intros ->]; reflexivity.
Qed.

(** Three requests of two rows each, with interactions in the first and in
    the third; and, in binary64, two rows whose request id is a NaN, the
    first with an interaction: the second is kept with it. *)
Lemma drop_requests_keeps_whole_requests_witness :
  drop_requests_with_no_interactions (D := Q)
    [("request_id", [0; 0; 1; 1; 2; 2]%Q); ("feature_1", [3; 4; 5; 6; 7; 8]%Q);
     ("i_1", [0; 1; 0; 0; 1; 0]%Q)] "i_2" = inl (KeyError "i_2") /\
  drop_requests_with_no_interactions (D := Q)
    [("request_id", [0; 0; 1; 1; 2; 2]%Q); ("feature_1", [3; 4; 5; 6; 7; 8]%Q);
     ("i_1", [0; 1; 0; 0; 1; 0]%Q)] "i_1"
  = inr [("request_id", [0; 0; 2; 2]%Q); ("feature_1", [3; 4; 7; 8]%Q);
         ("i_1", [0; 1; 1; 0]%Q)] /\
  (exists mask,
    drop_requests_with_no_interactions (D := Q)
      [("request_id", [0; 0; 1; 1; 2; 2]%Q); ("feature_1", [3; 4; 5; 6; 7; 8]%Q);
       ("i_1", [0; 1; 0; 0; 1; 0]%Q)] "i_1"
    = inr (loc [("request_id", [0; 0; 1; 1; 2; 2]%Q); ("feature_1", [3; 4; 5; 6; 7; 8]%Q);
                ("i_1", [0; 1; 0; 0; 1; 0]%Q)] mask) /\
    length mask = 6%nat) /\
  (exists mask,
    drop_requests_with_no_interactions (D := float)
      [("request_id", [nan; nan; 1; 1; 2; 2]%float);
       ("i_1", [1; 0; 0; 0; 0; 1]%float)] "i_1"
    = inr (loc [("request_id", [nan; nan; 1; 1; 2; 2]%float);
                ("i_1", [1; 0; 0; 0; 0; 1]%float)] mask) /\
    mask !! 1%nat = Some true /\
    loc [("request_id", [nan; nan; 1; 1; 2; 2]%float);
         ("i_1", [1; 0; 0; 0; 0; 1]%float)] mask
    = [("request_id", [nan; nan; 2; 2]%float); ("i_1", [1; 0; 0; 1]%float)]).
Proof.
  destruct (drop_requests_keeps_whole_requests (D := Q)
              [("request_id", [0; 0; 1; 1; 2; 2]%Q); ("feature_1", [3; 4; 5; 6; 7; 8]%Q);
               ("i_1", [0; 1; 0; 0; 1; 0]%Q)] "i_2") as (Hkey & _).
  destruct (drop_requests_keeps_whole_requests (D := Q)
              [("request_id", [0; 0; 1; 1; 2; 2]%Q); ("feature_1", [3; 4; 5; 6; 7; 8]%Q);
               ("i_1", [0; 1; 0; 0; 1; 0]%Q)] "i_1") as (_ & _ & Hrun).
  destruct (drop_requests_keeps_whole_requests (D := float)
              [("request_id", [nan; nan; 1; 1; 2; 2]%float);
               ("i_1", [1; 0; 0; 0; 0; 1]%float)] "i_1") as (_ & _ & Hnan).
  split; [exact (Hkey eq_refl)|]. split; [vm_compute; reflexivity|]. split.
  - destruct (Hrun _ _ eq_refl eq_refl) as (mask & Hmask & Hlen & _).
    exists mask. split; assumption.
  - destruct (Hnan _ _ eq_refl eq_refl) as (mask & Hmask & _ & Hkept).
    exists mask. split; [exact Hmask|]. split.
    + apply (Hkept 1%nat nan eq_refl). exists 0%nat, nan, 1%float.
      repeat split; reflexivity.
    + assert (Hdata : drop_requests_with_no_interactions (D := float)
                        [("request_id", [nan; nan; 1; 1; 2; 2]%float);
                         ("i_1", [1; 0; 0; 0; 0; 1]%float)] "i_1"
                      = inr [("request_id", [nan; nan; 2; 2]%float);
                             ("i_1", [1; 0; 0; 1]%float)])
        by (vm_compute; reflexivity).
      congruence.
Defined.

(** On a frame with the two interaction columns and a column [request_id]
    whose [==] is symmetric and transitive, the filter by the one column and
    the filter by the other return, in either order, the same frame, and the
    filter by a column returns the frame that it has left as it is. *)
Theorem drop_requests_twice `{Double D}
    (data : DataFrame D) (col_1 col_2 : string) (s1 s2 request_id : list D) :
  eqb_is_partial_equivalence D ->
  column data col_1 = Some s1 -> column data col_2 = Some s2 ->
  column data "request_id" = Some request_id ->
  exists data_1 data_2 data_12,
    drop_requests_with_no_interactions data col_1 = inr data_1 /\
    drop_requests_with_no_interactions data col_2 = inr data_2 /\
    drop_requests_with_no_interactions data_1 col_2 = inr data_12 /\
    drop_requests_with_no_interactions data_2 col_1 = inr data_12 /\
    drop_requests_with_no_interactions data_1 col_1 = inr data_1.
Proof.
  intros Heqb H1 H2 Hid.
  set (g := fun s id => existsb (same_value id) (select (gt_0 s) request_id)).
  exists (loc data (isin request_id (select (gt_0 s1) request_id))),
         (loc data (isin request_id (select (gt_0 s2) request_id))),
         (loc data ((fun id => g s1 id && g s2 id) <$> request_id)).
  split; [apply drop_requests_Ok; eauto|]. split; [apply drop_requests_Ok; eauto|].
  split; [exact (drop_requests_again data col_1 col_2 s1 s2 request_id Heqb H1 H2 Hid)|].
  split.
  - rewrite (drop_requests_again data col_2 col_1 s2 s1 request_id Heqb H2 H1 Hid).
    do 2 f_equal. apply list_fmap_ext. intros _ id _. apply andb_comm.
  - rewrite (drop_requests_again data col_1 col_1 s1 s1 request_id Heqb H1 H1 Hid).
    do 2 f_equal. apply list_fmap_ext. intros _ id _. apply andb_diag.
Qed.

(** Three requests of two rows each, with interactions of the first kind in
    the first and the third, and of the second kind in the second and the
    third. *)
Lemma drop_requests_twice_witness :
  exists data_1 data_2 data_12,
    drop_requests_with_no_interactions (D := Q)
      [("request_id", [0; 0; 1; 1; 2; 2]%Q); ("i_1", [0; 1; 0; 0; 1; 0]%Q);
       ("i_2", [0; 0; 0; 1; 1; 1]%Q)] "i_1" = inr data_1 /\
    drop_requests_with_no_interactions (D := Q)
      [("request_id", [0; 0; 1; 1; 2; 2]%Q); ("i_1", [0; 1; 0; 0; 1; 0]%Q);
       ("i_2", [0; 0; 0; 1; 1; 1]%Q)] "i_2" = inr data_2 /\
    drop_requests_with_no_interactions data_1 "i_2" = inr data_12 /\
    drop_requests_with_no_interactions data_2 "i_1" = inr data_12 /\
    drop_requests_with_no_interactions data_1 "i_1" = inr data_1.
Proof.
  exact (drop_requests_twice (D := Q)
           [("request_id", [0; 0; 1; 1; 2; 2]%Q); ("i_1", [0; 1; 0; 0; 1; 0]%Q);
            ("i_2", [0; 0; 0; 1; 1; 1]%Q)] "i_1" "i_2" _ _ _
           Q_eqb_is_partial_equivalence eq_refl eq_refl eq_refl).
Defined.

(** ** The group sizes of a filtered frame *)

Lemma filter_replicate {A} (P : A -> Prop) `{!forall x, Decision (P x)} (n : nat) (x : A) :
  filter P (replicate n x) = if decide (P x) then replicate n x else [].
Proof.
  destruct (decide (P x)) as [HP|HP]; induction n as [|n IH]; try reflexivity;
    cbn [replicate].
  - rewrite filter_cons_True by exact HP. rewrite IH. reflexivity.
  - rewrite filter_cons_False by exact HP. exact IH.
Qed.

Lemma filter_np_repeat {A} (P : A -> Prop) `{!forall x, Decision (P x)}
    (l : list A) (n : nat) :
  filter P (np_repeat l n) = np_repeat (filter P l) n.
Proof.
  unfold np_repeat. induction l as [|x l IH]; [reflexivity|].
  rewrite bind_cons, filter_app, IH, filter_cons, filter_replicate.
  destruct (decide (P x)); [rewrite bind_cons|]; reflexivity.
Qed.

Lemma length_np_repeat {A} (l : list A) (n : nat) :
  length (np_repeat l n) = (length l * n)%nat.
Proof.
  unfold np_repeat. induction l as [|x l IH]; [reflexivity|].
  rewrite bind_cons, length_app, length_replicate, IH. cbn. lia.
Qed.

Lemma elem_of_np_repeat {A} (l : list A) (n : nat) (x : A) :
  x ∈ np_repeat l n -> x ∈ l.
Proof.
  unfold np_repeat. intros (y & Hx & Hy)%list_elem_of_bind.
  apply elem_of_replicate in Hx as [-> _]. exact Hy.
Qed.

Lemma filter_id {A} (P : A -> Prop) `{!forall x, Decision (P x)} (l : list A) :
  Forall P l -> filter P l = l.
Proof.
  induction 1 as [|x l Hx _ IH]; [reflexivity|].
  rewrite filter_cons_True by exact Hx. rewrite IH. reflexivity.
Qed.

Lemma Q_eqb_inject_Z (a b : Z) : d_eqb (inject_Z a) (inject_Z b) = true <-> a = b.
Proof.
  change (Qeq_bool (inject_Z a) (inject_Z b) = true <-> a = b).
  rewrite Qeq_bool_iff. apply inject_Z_injective.
Qed.

(** A rational is no NaN. *)
Lemma Q_isnan (x : Q) : isnan x = false.
Proof. unfold isnan. cbn. rewrite Qeq_bool_refl. reflexivity. Qed.

Lemma Q_same_value (x y : Q) : same_value x y = d_eqb x y.
Proof. unfold same_value. rewrite Q_isnan. apply orb_false_r. Qed.

Lemma unique_subset (s : list Q) (x : Q) : x ∈ unique s -> x ∈ s.
Proof.
  induction s as [|y s IH]; cbn [unique]; [auto|].
  rewrite !elem_of_cons. intros [->|Hx]; [auto|].
  apply list_elem_of_filter in Hx as [_ Hx]. auto.
Qed.

(** A block of one value counts once. *)
Lemma unique_block (x : Q) (n : nat) (rest : list Q) :
  same_value x x = true ->
  unique (replicate (S n) x ++ rest)
  = x :: filter (fun y => same_value x y = false) (unique rest).
Proof.
  intros Hx. induction n as [|n IH]; [reflexivity|].
  change (replicate (S (S n)) x ++ rest) with (x :: (replicate (S n) x ++ rest)).
  cbn [unique]. rewrite IH. rewrite filter_cons_False by congruence.
  f_equal. apply list_filter_filter_l. auto.
Qed.

Lemma nunique_np_repeat (requests : list Z) (n : nat) :
  NoDup requests ->
  nunique (inject_Z <$> np_repeat requests (S n)) = length requests.
Proof.
  assert (Hnan : forall s : list Q, filter (fun x => isnan x = false) s = s).
  { intros s. apply filter_id, Forall_forall. intros y _. apply Q_isnan. }
  unfold nunique, np_repeat. rewrite Hnan.
  induction 1 as [|x l Hx Hl IH]; [reflexivity|].
  rewrite bind_cons, fmap_app, fmap_replicate.
  rewrite unique_block by (rewrite Q_same_value; apply Q_eqb_inject_Z; reflexivity).
  rewrite filter_id; [cbn [length]; rewrite IH; reflexivity|].
  apply Forall_forall. intros y Hy%unique_subset.
  apply list_elem_of_fmap in Hy as (z & -> & Hz).
  apply (elem_of_np_repeat l (S n)) in Hz.
  apply not_true_iff_false. rewrite Q_same_value, Q_eqb_inject_Z. intros <-.
  contradiction.
Qed.

(** On a frame whose column [request_id] is [np.repeat] of distinct request
    ids, [N_POSITIONS] rows for each as [generate_data] lays them out, the
    filter leaves a frame of the same layout, on some of the requests in
    their order; the group sizes that the notebook computes for it,
    [N_POSITIONS] for each distinct request id, sum to the number of its
    rows. *)
Theorem group_sizes_cover_the_rows (data : DataFrame Q) (interaction_col : string)
    (requests : list Z) (N_POSITIONS : nat) (interactions : list Q) :
  NoDup requests ->
  column data "request_id" = Some (inject_Z <$> np_repeat requests N_POSITIONS) ->
  column data interaction_col = Some interactions ->
  exists data' kept request_id',
    drop_requests_with_no_interactions data interaction_col = inr data' /\
    column data' "request_id" = Some request_id' /\
    sublist kept requests /\
    request_id' = inject_Z <$> np_repeat kept N_POSITIONS /\
    foldr Z.add 0 (group_sizes (Z.of_nat N_POSITIONS) request_id') = len request_id'.
Proof.
  intros Hnodup Hid Hcol.
  set (ids := inject_Z <$> np_repeat requests N_POSITIONS) in *.
  set (set_1 := select (gt_0 interactions) ids).
  set (P := fun z : Z => existsb (same_value (inject_Z z)) set_1 = true).
  exists (loc data (isin ids set_1)), (filter P requests),
         (inject_Z <$> np_repeat (filter P requests) N_POSITIONS).
  split; [apply drop_requests_Ok; eauto|].
  assert (Hsel : select (isin ids set_1) ids
                 = inject_Z <$> np_repeat (filter P requests) N_POSITIONS).
  { unfold isin, ids. rewrite <- list_fmap_compose, select_fmap, select_fmap_mask.
    exact (f_equal (fmap inject_Z) (filter_np_repeat P requests N_POSITIONS)). }
  split; [rewrite column_loc, Hid; cbn; rewrite Hsel; reflexivity|].
  split; [apply sublist_filter|]. split; [reflexivity|].
  unfold group_sizes, len. rewrite length_fmap, length_np_repeat.
  assert (Hsum : forall (n : nat) (z : Z), foldr Z.add 0 (replicate n z) = Z.of_nat n * z).
  { intros n z. induction n as [|n IH]; [reflexivity|]. cbn [replicate foldr].
    rewrite IH. lia. }
  rewrite Hsum. destruct N_POSITIONS as [|n]; [lia|].
  rewrite nunique_np_repeat by (apply (NoDup_filter P), Hnodup). lia.
Qed.

(** Three requests of two rows each, with interactions in the first and in
    the third. *)
Lemma group_sizes_cover_the_rows_witness :
  exists data' kept request_id',
    drop_requests_with_no_interactions (D := Q)
      [("request_id", [0; 0; 1; 1; 2; 2]%Q); ("i_1", [0; 1; 0; 0; 1; 0]%Q)] "i_1"
    = inr data' /\
    column data' "request_id" = Some request_id' /\
    sublist kept [0; 1; 2] /\
    request_id' = inject_Z <$> np_repeat kept 2 /\
    foldr Z.add 0 (group_sizes 2 request_id') = len request_id'.
Proof.
  assert (Hnodup : NoDup [0; 1; 2]) by (apply NoDup_ListNoDup; repeat constructor; cbn; lia).
  exact (group_sizes_cover_the_rows
           [("request_id", [0; 0; 1; 1; 2; 2]%Q); ("i_1", [0; 1; 0; 0; 1; 0]%Q)] "i_1"
           [0; 1; 2] 2 _ Hnodup eq_refl eq_refl).
Defined.
